(** * TextToVid: the bounded-concurrency task manager, the text
    generator, the video stream and the text splitter, embedded from

    - [app/services/manager/base_manager.py]   (class [TaskManager])
    - [app/services/manager/memory_manager.py] (class [InMemoryTaskManager])
    - [app/repositories/gen_text/generate_text.py]
      ([_generate_response], [generate_script], [generate_terms])
    - [app/web/api/gen_tvc/views.py]           ([stream_video])
    - [app/utils/string_utils.py]
      ([str_contains_punctuation], [split_string_by_punctuations])

    Python integers are unbounded, so counters are [Z].  Every access to
    [current_tasks] and [queue] in the source sits inside a
    [with self.lock:] block, so each such block is one atomic step of the
    interleaving semantics below; what happens between two blocks of the
    same thread is a point where any other thread may run. *)

From Stdlib Require Import ZArith Lia Bool Ascii.
From stdpp Require Import base option list strings.

Local Open Scope Z_scope.

(** ** Exceptions and results *)

Inductive exn_class :=
| Empty                (* queue.Empty *)
| AttributeError
| ValueError
| TypeError
| IndexError
| UnboundLocalError
| JSONDecodeError
| Exception            (* a plain [Exception(...)] *)
| SystemExit.          (* a [BaseException] that is not an [Exception] *)

Record exn := Exn { exn_cls : exn_class; exn_str : string (* str(e) *) }.

(** [isinstance(e, Exception)]: what [except Exception] catches. *)
Definition isinstance_Exception (e : exn) : bool :=
  match exn_cls e with
  | SystemExit => false
  | _ => true
  end.

Inductive result (A : Type) : Type :=
| Ok (a : A)
| Raise (e : exn).
Arguments Ok {A} a.
Arguments Raise {A} e.

Definition bind {A B} (r : result A) (k : A -> result B) : result B :=
  match r with
  | Ok a => k a
  | Raise e => Raise e
  end.

Notation "'do' x <- r ; k" := (bind r (fun x => k))
  (at level 10, x name, r at level 100, k at level 200).

Definition returned {A} (r : result A) : option A :=
  match r with
  | Ok a => Some a
  | Raise _ => None
  end.

(** ** Classes and method resolution

    [TaskManager] defines seven methods; [InMemoryTaskManager(TaskManager)]
    defines four more and overrides none.  [self.m(...)] looks [m] up along
    the method resolution order of the class of [self]. *)

Inductive cls := C_TaskManager | C_InMemoryTaskManager.

Inductive method :=
| m___init__ | m_add_task | m_execute_task | m_run_task
| m_check_queue | m_task_done | m__log
| m_create_queue | m_enqueue | m_dequeue | m_is_queue_empty.

(** The [def]s in the body of each [class] statement. *)
Definition class_body (c : cls) (m : method) : bool :=
  match c, m with
  | C_TaskManager, (m___init__ | m_add_task | m_execute_task | m_run_task
                    | m_check_queue | m_task_done | m__log) => true
  | C_InMemoryTaskManager, (m_create_queue | m_enqueue | m_dequeue
                            | m_is_queue_empty) => true
  | _, _ => false
  end.

Definition mro (c : cls) : list cls :=
  match c with
  | C_TaskManager => [C_TaskManager]
  | C_InMemoryTaskManager => [C_InMemoryTaskManager; C_TaskManager]
  end.

Definition resolve (c : cls) (m : method) : option cls :=
  find (fun c' => class_body c' m) (mro c).

(** [type(self).__name__] and the name of a method. *)
Definition class_name (c : cls) : string :=
  match c with
  | C_TaskManager => "TaskManager"
  | C_InMemoryTaskManager => "InMemoryTaskManager"
  end.

Definition method_name (m : method) : string :=
  match m with
  | m___init__ => "__init__"
  | m_add_task => "add_task"
  | m_execute_task => "execute_task"
  | m_run_task => "run_task"
  | m_check_queue => "check_queue"
  | m_task_done => "task_done"
  | m__log => "_log"
  | m_create_queue => "create_queue"
  | m_enqueue => "enqueue"
  | m_dequeue => "dequeue"
  | m_is_queue_empty => "is_queue_empty"
  end.

(** ** Jobs, threads, events *)

(** A callable.  A function, a method or a builtin has a [__name__]; a
    [functools.partial] object or an instance of a class that defines
    [__call__] has none, and is known by the name of its type. *)
Inductive callable :=
| Function (__name__ : string)
| CallableObject (type_name : string).

(** [func.__name__] *)
Definition getattr___name__ (func : callable) : result string :=
  match func with
  | Function name => Ok name
  | CallableObject type_name =>
      Raise (Exn AttributeError
               ("'" +:+ type_name +:+ "' object has no attribute '__name__'"))
  end.

(** The dict [{"func": func, "args": args, "kwargs": kwargs}] that
    [add_task] builds; argument values are opaque. *)
Record task_info := {
  func : callable;
  args : list string;
  kwargs : list (string * string)
}.

(** How the call [func( *args, **kwargs)] at line 74 ends. *)
Inductive outcome :=
| Returns
| Raises (e : exn).

(** Where a thread started by [execute_task] stands in [run_task]. *)
Inductive thread :=
| Created (task : task_info)         (* started, before [with self.lock] of line 72 *)
| InBody (task : task_info)          (* line 74, the job body is running *)
| InFinally (task : task_info)       (* line 78, before [with self.lock] of line 95 *)
| AfterDecrement (task : task_info)  (* line 97, before [with self.lock] of line 82 *)
| Exited (task : task_info).

Definition thread_task (th : thread) : task_info :=
  match th with
  | Created k | InBody k | InFinally k | AfterDecrement k | Exited k => k
  end.

(** Has the thread executed [self.current_tasks += 1]? *)
Definition started (th : thread) : bool :=
  match th with
  | Created _ => false
  | _ => true
  end.

(** Has the thread executed [self.current_tasks -= 1]? *)
Definition completed (th : thread) : bool :=
  match th with
  | AfterDecrement _ | Exited _ => true
  | _ => false
  end.

Definition in_flight (th : thread) : bool := started th && negb (completed th).

(** What [_log] prints (the f-strings, kept structured). *)
Inductive log_message :=
| Executing (name : string) (current : Z)
| Enqueuing (name : string) (current : Z)
| ErrorWhileExecuting (name : string) (e : string).

(** Instrumentation: every method called on [self] with the class whose
    definition was selected, every call on [self.queue], every line
    printed, every thread start and every update of the counter. *)
Inductive event :=
| Call (owner : cls) (m : method)
| QPut (item : task_info)                (* self.queue.put(item) *)
| QGetNowait (r : option task_info)      (* self.queue.get_nowait(); None: Empty raised *)
| QGet (item : task_info)                (* self.queue.get() *)
| QEmpty (r : bool)                      (* self.queue.empty() *)
| Printed (msg : log_message)
| ThreadStart (t : nat) (task : task_info)
| Incr (t : nat)
| Decr (t : nat).

(** ** State *)

Record TaskManager := {
  max_concurrent_tasks : Z;
  current_tasks : Z;
  queue : list task_info     (* queue.Queue(): unbounded FIFO *)
}.

Record World := {
  self : TaskManager;
  threads : list thread;     (* in order of creation; a thread is named by its index *)
  trace : list event
}.

Definition emit (e : event) (w : World) : World :=
  {| self := self w; threads := threads w; trace := trace w ++ [e] |}.

Definition set_current_tasks (n : Z) (w : World) : World :=
  {| self := {| max_concurrent_tasks := max_concurrent_tasks (self w);
                current_tasks := n;
                queue := queue (self w) |};
     threads := threads w; trace := trace w |}.

Definition set_queue (q : list task_info) (w : World) : World :=
  {| self := {| max_concurrent_tasks := max_concurrent_tasks (self w);
                current_tasks := current_tasks (self w);
                queue := q |};
     threads := threads w; trace := trace w |}.

Definition set_thread (t : nat) (th : thread) (w : World) : World :=
  {| self := self w; threads := <[t := th]> (threads w); trace := trace w |}.

(** ** queue.Queue *)

Definition Queue_put (item : task_info) (w : World) : World :=
  emit (QPut item) (set_queue (queue (self w) ++ [item]) w).

Definition Queue_get_nowait (w : World) : result (task_info * World) :=
  match queue (self w) with
  | [] => Raise (Exn Empty EmptyString)
  | item :: q => Ok (item, emit (QGetNowait (Some item)) (set_queue q w))
  end.

(** ** class TaskManager *)

(** The [AttributeError] of a lookup [self.m] that finds no definition. *)
Definition no_attribute (c : cls) (m : method) : exn :=
  Exn AttributeError
    ("'" +:+ class_name c +:+ "' object has no attribute '" +:+ method_name m +:+ "'").

(** A call [self.m(...)] from code that goes on with [TaskManager]'s
    definition of [m]: it is modelled when resolution selects that
    definition ([resolve_inherited] below: it always does), and is an
    [AttributeError] when there is none. *)
Definition invoke (c : cls) (m : method) (w : World) : result World :=
  match resolve c m with
  | Some C_TaskManager => Ok (emit (Call C_TaskManager m) w)
  | _ => Raise (no_attribute c m)
  end.

Definition __init__ (c : cls) (max_concurrent_tasks : Z) : result World :=
  invoke c m___init__
    {| self := {| max_concurrent_tasks := max_concurrent_tasks;
                  current_tasks := 0;
                  queue := [] |};
       threads := [];
       trace := [] |}.

Definition _log (c : cls) (msg : log_message) (w : World) : result World :=
  do w <- invoke c m__log w;
  Ok (emit (Printed msg) w).

(** [threading.Thread(target=self.run_task, ...).start()]: the new thread
    exists and has not run anything yet. *)
Definition execute_task (c : cls) (task : task_info) (w : World) : result World :=
  do w <- invoke c m_execute_task w;
  Ok (emit (ThreadStart (length (threads w)) task)
        {| self := self w; threads := threads w ++ [Created task]; trace := trace w |}).

(** Lines 36-46, one critical section.  The f-strings of lines 39 and
    44 read [func.__name__] before anything is started or queued; the
    lookup of [self._log] that precedes them always succeeds
    ([resolve_inherited] below). *)
Definition add_task (c : cls) (task : task_info) (w : World) : result World :=
  do w <- invoke c m_add_task w;
  if current_tasks (self w) <? max_concurrent_tasks (self w) then
    do name <- getattr___name__ (func task);
    do w <- _log c (Executing name (current_tasks (self w))) w;
    execute_task c task w
  else
    do name <- getattr___name__ (func task);
    do w <- _log c (Enqueuing name (current_tasks (self w))) w;
    Ok (Queue_put task w).

(** Lines 72-73 of [run_task], run by thread [t]. *)
Definition run_task_enter (c : cls) (t : nat) (w : World) : result World :=
  do w <- invoke c m_run_task w;
  Ok (emit (Incr t) (set_current_tasks (current_tasks (self w) + 1) w)).

(** Lines 74-76 of [run_task]: the body has ended with [o].  The
    handler of line 76 reads [func.__name__] too. *)
Definition run_task_except (c : cls) (task : task_info) (o : outcome) (w : World)
  : result World :=
  match o with
  | Returns => Ok w
  | Raises e =>
      if isinstance_Exception e
      then
        do name <- getattr___name__ (func task);
        _log c (ErrorWhileExecuting name (exn_str e)) w
      else Ok w
  end.

(** [finally] (line 77): line 78 runs next whether lines 74-76 ended
    normally or with an exception, which then leaves [run_task] after
    [task_done]; a handler that failed has printed nothing. *)
Definition finally (w : World) (r : result World) : World :=
  match r with
  | Ok w' => w'
  | Raise _ => w
  end.

(** Lines 82-91, one critical section. *)
Definition check_queue (c : cls) (w : World) : result World :=
  do w <- invoke c m_check_queue w;
  if current_tasks (self w) <? max_concurrent_tasks (self w) then
    match Queue_get_nowait w with
    | Raise e =>
        match exn_cls e with
        | Empty => Ok (emit (QGetNowait None) w)
        | _ => Raise e
        end
    | Ok (task, w) => execute_task c task w
    end
  else Ok w.

(** Lines 95-96 of [task_done], run by thread [t]: its first critical
    section.  Line 97 then calls [check_queue], which takes the lock anew. *)
Definition task_done_decrement (c : cls) (t : nat) (w : World) : result World :=
  do w <- invoke c m_task_done w;
  Ok (emit (Decr t) (set_current_tasks (current_tasks (self w) - 1) w)).

(** [task_done] when no other thread runs between its two critical
    sections. *)
Definition task_done (c : cls) (t : nat) (w : World) : result World :=
  do w <- task_done_decrement c t w;
  check_queue c w.

(** The exception that [except Exception] does not catch. *)
Definition uncaught (o : outcome) : option exn :=
  match o with
  | Returns => None
  | Raises e => if isinstance_Exception e then None else Some e
  end.

(** [run_task] in thread [t] when no other thread runs meanwhile and the
    job ends with [o]: [try] (lines 72-74), [except] (75-76), [finally]
    (78).  It gives the state in which the thread ends and the exception
    that leaves [run_task], if there is one. *)
Definition run_task (c : cls) (t : nat) (task : task_info) (o : outcome)
    (w : World) : result (World * option exn) :=
  do w <- run_task_enter c t w;
  let handled := run_task_except c task o w in
  do w <- task_done c t (finally w handled);
  Ok (w, match handled with
         | Ok _ => uncaught o
         | Raise e => Some e
         end).

(** ** class InMemoryTaskManager *)

Definition invoke_subclass (c : cls) (m : method) (w : World) : result World :=
  match resolve c m with
  | Some C_InMemoryTaskManager => Ok (emit (Call C_InMemoryTaskManager m) w)
  | _ => Raise (no_attribute c m)
  end.

Definition create_queue (c : cls) (w : World) : result (list task_info * World) :=
  do w <- invoke_subclass c m_create_queue w;
  Ok ([], w).

Definition enqueue (c : cls) (task : task_info) (w : World) : result World :=
  do w <- invoke_subclass c m_enqueue w;
  Ok (Queue_put task w).

(** [self.queue.get()] waits while the queue is empty: [Ok None] stands
    for a caller that is still waiting. *)
Definition dequeue (c : cls) (w : World) : result (option (task_info * World)) :=
  do w <- invoke_subclass c m_dequeue w;
  match queue (self w) with
  | [] => Ok None
  | item :: q => Ok (Some (item, emit (QGet item) (set_queue q w)))
  end.

Definition is_queue_empty (c : cls) (w : World) : result (bool * World) :=
  do w <- invoke_subclass c m_is_queue_empty w;
  let r := match queue (self w) with [] => true | _ => false end in
  Ok (r, emit (QEmpty r) w).

(** ** Interleavings *)

Inductive action :=
| Submit (task : task_info)          (* some caller runs [add_task] *)
| RunTaskEnter (t : nat)             (* thread [t]: lines 72-73 *)
| BodyEnds (t : nat) (o : outcome)   (* thread [t]: lines 74-76 *)
| TaskDone (t : nat)                 (* thread [t]: lines 95-96 *)
| CheckQueue (t : nat).              (* thread [t]: lines 82-91 *)

(** One step; [None] when the action is not enabled in [w] (no such
    thread, or the thread is elsewhere) or the method raised; the body of
    a job may end with an exception, after which [finally] goes on. *)
Definition exec (c : cls) (w : World) (a : action) : option World :=
  match a with
  | Submit task => returned (add_task c task w)
  | RunTaskEnter t =>
      match threads w !! t with
      | Some (Created task) =>
          set_thread t (InBody task) <$> returned (run_task_enter c t w)
      | _ => None
      end
  | BodyEnds t o =>
      match threads w !! t with
      | Some (InBody task) =>
          Some (set_thread t (InFinally task)
                  (finally w (run_task_except c task o w)))
      | _ => None
      end
  | TaskDone t =>
      match threads w !! t with
      | Some (InFinally task) =>
          set_thread t (AfterDecrement task) <$> returned (task_done_decrement c t w)
      | _ => None
      end
  | CheckQueue t =>
      match threads w !! t with
      | Some (AfterDecrement task) =>
          set_thread t (Exited task) <$> returned (check_queue c w)
      | _ => None
      end
  end.

Fixpoint exec_all (c : cls) (w : World) (sched : list action) : option World :=
  match sched with
  | [] => Some w
  | a :: sched' =>
      match exec c w a with
      | Some w' => exec_all c w' sched'
      | None => None
      end
  end.

(** A run: construct the manager with limit [K], then follow [sched]. *)
Definition run (c : cls) (K : Z) (sched : list action) : option World :=
  match returned (__init__ c K) with
  | Some w => exec_all c w sched
  | None => None
  end.

(** ** generate_text.py *)

(** The fields of [settings] that [_generate_response] reads. *)
Record Settings := {
  llm_provider : string;
  open_api_key : string;
  openai_base_url : string;
  openai_model_name : string;
  gemini_api_key : string;
  gemini_model_name : string
}.

(** Python values that [json.loads] can produce. *)
Unset Elimination Schemes.
Inductive pyvalue :=
| PNone
| PBool (b : bool)
| PInt (z : Z)
| PFloat (nonzero : bool)
| PStr (s : string)
| PList (l : list pyvalue)
| PDict (l : list (string * pyvalue)).
Set Elimination Schemes.

(** What [client.chat.completions.create] hands back. *)
Inductive chat_response :=
| NoResponse                                  (* a falsy value *)
| OtherResponse (repr : string)               (* truthy, not a ChatCompletion *)
| ChatCompletion (choices : list (option string)).  (* message.content per choice *)

Definition _max_retries : nat := 5.

Definition is_empty (s : string) : bool :=
  match s with
  | EmptyString => true
  | _ => false
  end.

Definition double_quote : string := String "034"%char EmptyString.
Definition newline : ascii := "010"%char.

(** [content.replace("\n", "")] *)
Fixpoint remove_newlines (s : string) : string :=
  match s with
  | EmptyString => EmptyString
  | String a s' =>
      if Ascii.eqb a newline then remove_newlines s'
      else String a (remove_newlines s')
  end.

(** [needle in s] *)
Fixpoint contains (needle s : string) : bool :=
  String.prefix needle s ||
  match s with
  | EmptyString => false
  | String _ s' => contains needle s'
  end.

(** [bool(v)] *)
Definition truthy (v : pyvalue) : bool :=
  match v with
  | PNone => false
  | PBool b => b
  | PInt z => negb (z =? 0)
  | PFloat nonzero => nonzero
  | PStr s => negb (is_empty s)
  | PList l => match l with [] => false | _ => true end
  | PDict l => match l with [] => false | _ => true end
  end.

(** [len(v)] *)
Definition len (v : pyvalue) : result nat :=
  match v with
  | PStr s => Ok (String.length s)
  | PList l => Ok (length l)
  | PDict l => Ok (length l)
  | PNone => Raise (Exn TypeError "object of type 'NoneType' has no len()")
  | PBool _ => Raise (Exn TypeError "object of type 'bool' has no len()")
  | PInt _ => Raise (Exn TypeError "object of type 'int' has no len()")
  | PFloat _ => Raise (Exn TypeError "object of type 'float' has no len()")
  end.

(** [isinstance(v, list) and all(isinstance(term, str) for term in v)]:
    the declared result type [List[str]]. *)
Definition is_list_of_str (v : pyvalue) : bool :=
  match v with
  | PList l => forallb (fun term => match term with PStr _ => true | _ => false end) l
  | _ => false
  end.

(** How one pass through the body of the retry loop ends. *)
Inductive flow :=
| Return (v : pyvalue)
| Break (search_terms : pyvalue) (response : string)
| Next (search_terms : pyvalue) (response : string)   (* [continue], or the end of the body *)
| Propagate (e : exn).

Section generate_text.

Variable settings : Settings.

(** The world outside the repository; [n] numbers the calls of
    [_generate_response], which need not answer twice alike. *)

(** [OpenAI(api_key, base_url).chat.completions.create(model, messages)] *)
Variable chat_completions_create :
  forall (n : nat) (api_key base_url model_name prompt : string), result chat_response.
(** Lines 62-96: the import, [genai.configure], [genai.GenerativeModel]. *)
Variable genai_GenerativeModel :
  forall (n : nat) (api_key model_name : string), result unit.
(** Lines 99-101: [generate_content] and the accesses down to [.text]. *)
Variable generate_content_text :
  forall (n : nat) (model_name prompt : string), result string.
(** [str(e)] of the [UnboundLocalError] of the running interpreter. *)
Variable unbound_local_message : string.
Variable json_loads : string -> result pyvalue.
(** [re.search(r"\[.*]", s)], and [.group()] of the match. *)
Variable re_search_brackets : string -> option string.
(** [GEN_VIDEO_TERM.format(amount=, video_subject=, video_script=)]. *)
Variable GEN_VIDEO_TERM_format : Z -> string -> string -> string.

(** The [try] block of [_generate_response], lines 29-129. *)
Definition _generate_response_try (n : nat) (prompt : string) : result string :=
  let llm_provider := llm_provider settings in
  do cfg <-
    (if String.eqb llm_provider "openai" then
       Ok (open_api_key settings, openai_model_name settings,
           if is_empty (openai_base_url settings)
           then "https://api.openai.com/v1"
           else openai_base_url settings)
     else if String.eqb llm_provider "gemini" then
       Ok (gemini_api_key settings, gemini_model_name settings, "***")
     else
       Raise (Exn ValueError
                "llm_provider is not set, please set it in the config.toml file."));
  let '(api_key, model_name, base_url) := cfg in
  if is_empty api_key then
    Raise (Exn ValueError (llm_provider +:+ ": api_key is not set."))
  else if is_empty model_name then
    Raise (Exn ValueError (llm_provider +:+ ": model_name is not set ."))
  else if is_empty base_url then
    Raise (Exn ValueError (llm_provider +:+ ": base_url is not set."))
  else if String.eqb llm_provider "gemini" then
    do _ <- genai_GenerativeModel n api_key model_name;
    match generate_content_text n model_name prompt with
    | Ok generated_text => Ok generated_text
    | Raise e =>
        match exn_cls e with
        | AttributeError | IndexError =>
            (* logged; [return generated_text] then finds no such local *)
            Raise (Exn UnboundLocalError unbound_local_message)
        | _ => Raise e
        end
    end
  else
    do response <- chat_completions_create n api_key base_url model_name prompt;
    match response with
    | ChatCompletion [] => Raise (Exn IndexError "list index out of range")
    | ChatCompletion (None :: _) =>
        Raise (Exn AttributeError "'NoneType' object has no attribute 'replace'")
    | ChatCompletion (Some content :: _) => Ok (remove_newlines content)
    | OtherResponse repr =>
        Raise (Exn Exception
                 ("[" +:+ llm_provider +:+ "] returned an invalid response: "
                  +:+ double_quote +:+ repr +:+ double_quote
                  +:+ ", please check your network connection and try again."))
    | NoResponse =>
        Raise (Exn Exception
                 ("[" +:+ llm_provider +:+
                  "] returned an empty response, please check your network connection and try again."))
    end.

(** [_generate_response]: [except Exception as e: return f"Error: {e!s}"]. *)
Definition _generate_response (n : nat) (prompt : string) : result string :=
  match _generate_response_try n prompt with
  | Ok text => Ok text
  | Raise e =>
      if isinstance_Exception e then Ok ("Error: " +:+ exn_str e) else Raise e
  end.

(** Lines 245-246: [if search_terms and len(search_terms) > 0: break]. *)
Definition after_try (search_terms : pyvalue) (response : string) : flow :=
  if truthy search_terms then
    match len search_terms with
    | Ok n => if (0 <? n)%nat then Break search_terms response
              else Next search_terms response
    | Raise e => Propagate e
    end
  else Next search_terms response.

(** Lines 234-243: the handler of [except Exception as e]. *)
Definition except_handler (search_terms : pyvalue) (response : string) : flow :=
  if is_empty response then after_try search_terms response
  else
    match re_search_brackets response with
    | None => after_try search_terms response
    | Some group =>
        match json_loads group with
        | Ok v => after_try v response
        | Raise e =>
            if isinstance_Exception e then after_try search_terms response
            else Propagate e
        end
    end.

(** Lines 222-248: one pass of [for i in range(_max_retries)]. *)
Definition generate_terms_iteration (n : nat) (prompt : string)
    (search_terms : pyvalue) (response : string) : flow :=
  match _generate_response n prompt with
  | Raise e => Propagate e
  | Ok response =>
      if contains "Error: " response then Return (PStr response)
      else
        match json_loads response with
        | Ok v =>
            if is_list_of_str v then after_try v response
            else Next v response
        | Raise e =>
            if isinstance_Exception e then except_handler search_terms response
            else Propagate e
        end
  end.

Fixpoint generate_terms_loop (n : nat) (retries : nat) (prompt : string)
    (search_terms : pyvalue) (response : string) : result pyvalue :=
  match retries with
  | O => Ok search_terms
  | S retries' =>
      match generate_terms_iteration n prompt search_terms response with
      | Return v => Ok v
      | Break search_terms _ => Ok search_terms
      | Next search_terms response =>
          generate_terms_loop (S n) retries' prompt search_terms response
      | Propagate e => Raise e
      end
  end.

(** The values of [search_terms] and [response] with which pass number
    [k] of the loop begins (the first pass is number 0 and makes call
    [n]); [None] when the loop has been left before. *)
Fixpoint generate_terms_pass (n k : nat) (prompt : string)
    (search_terms : pyvalue) (response : string) : option (pyvalue * string) :=
  match k with
  | O => Some (search_terms, response)
  | S k' =>
      match generate_terms_iteration n prompt search_terms response with
      | Next search_terms response =>
          generate_terms_pass (S n) k' prompt search_terms response
      | _ => None
      end
  end.

(** [generate_terms]; [n] is the number of calls made to the provider
    before this one. *)
Definition generate_terms (n : nat) (video_subject video_script : string)
    (amount : Z) : result pyvalue :=
  let prompt := GEN_VIDEO_TERM_format amount video_subject video_script in
  generate_terms_loop n _max_retries prompt (PList []) EmptyString.

End generate_text.

(** ** Instrumentation read off a trace *)

Fixpoint count {A} (p : A -> bool) (l : list A) : nat :=
  match l with
  | [] => 0%nat
  | x :: l' => ((if p x then 1 else 0) + count p l')%nat
  end.

Definition is_incr (e : event) : bool :=
  match e with Incr _ => true | _ => false end.
Definition is_decr (e : event) : bool :=
  match e with Decr _ => true | _ => false end.
Definition is_incr_of (t : nat) (e : event) : bool :=
  match e with Incr t' => Nat.eqb t t' | _ => false end.
Definition is_decr_of (t : nat) (e : event) : bool :=
  match e with Decr t' => Nat.eqb t t' | _ => false end.
Definition is_thread_start (e : event) : bool :=
  match e with ThreadStart _ _ => true | _ => false end.

(** Totals a controller instrumented to count would show. *)
Definition total_increments (w : World) : nat := count is_incr (trace w).
Definition total_decrements (w : World) : nat := count is_decr (trace w).
Definition total_admissions (w : World) : nat := count is_thread_start (trace w).

(** Items put on the queue, and items taken from it, oldest first. *)
Definition enqueued (tr : list event) : list task_info :=
  omap (fun e => match e with QPut k => Some k | _ => None end) tr.
Definition dequeued (tr : list event) : list task_info :=
  omap (fun e => match e with QGetNowait (Some k) => Some k | _ => None end) tr.

(** Jobs handed to [add_task], oldest first. *)
Definition submitted (sched : list action) : list task_info :=
  omap (fun a => match a with Submit k => Some k | _ => None end) sched.

(** Jobs handed to [execute_task], oldest first. *)
Definition dispatched (w : World) : list task_info := thread_task <$> threads w.

(** Is a method of the subclass, or a queue call only the subclass makes? *)
Definition subclass_only (e : event) : bool :=
  match e with
  | Call C_InMemoryTaskManager _ => true
  | Call _ (m_create_queue | m_enqueue | m_dequeue | m_is_queue_empty) => true
  | QGet _ | QEmpty _ => true
  | _ => false
  end.

(** ** Progress measures *)

(** Has the thread still a step to take? *)
Definition unfinished (th : thread) : bool :=
  match th with
  | Exited _ => false
  | _ => true
  end.

(** Work the manager still owes: threads not at their end, and queued jobs. *)
Definition backlog (w : World) : nat :=
  (count unfinished (threads w) + length (queue (self w)))%nat.

(** Nothing left to do: every thread has run to its end, nothing is queued. *)
Definition quiescent (w : World) : Prop :=
  (forall th, th ∈ threads w -> completed th = true /\ unfinished th = false) /\
  queue (self w) = [].

(** A step of thread [t] in which the job, if it ends, ends with [o]. *)
Definition step_of_thread (o : outcome) (a : action) : Prop :=
  exists t, a ∈ [RunTaskEnter t; BodyEnds t o; TaskDone t; CheckQueue t].

(** Has the callable of the job a [__name__]? *)
Definition named (task : task_info) : bool :=
  match func task with
  | Function _ => true
  | CallableObject _ => false
  end.

Definition is_submit (a : action) : bool :=
  match a with Submit _ => true | _ => false end.
Definition is_check_queue (a : action) : bool :=
  match a with CheckQueue _ => true | _ => false end.

(** ** Sample jobs *)

Definition job_A : task_info := {| func := Function "A"; args := []; kwargs := [] |}.
Definition job_B : task_info := {| func := Function "B"; args := []; kwargs := [] |}.
Definition job_C : task_info := {| func := Function "C"; args := []; kwargs := [] |}.
(** [functools.partial(print, "x")]: a callable without [__name__]. *)
Definition job_partial : task_info :=
  {| func := CallableObject "functools.partial"; args := []; kwargs := [] |}.
Definition boom : exn := Exn Exception "boom".

Definition no_settings : Settings :=
  {| llm_provider := EmptyString;
     open_api_key := EmptyString;
     openai_base_url := EmptyString;
     openai_model_name := EmptyString;
     gemini_api_key := EmptyString;
     gemini_model_name := EmptyString |}.

(** ** Statements that the code does not meet *)



(** ** Invariants of the bookkeeping *)

Record invariant (K : Z) (w : World) : Prop := {
  inv_max : max_concurrent_tasks (self w) = K;
  inv_current : current_tasks (self w) = Z.of_nat (count in_flight (threads w));
  inv_incr : total_increments w = count started (threads w);
  inv_decr : total_decrements w = count completed (threads w);
  inv_admit : total_admissions w = length (threads w);
  inv_fifo : enqueued (trace w) = dequeued (trace w) ++ queue (self w)
}.

(** [flag p l t] is 1 when thread [t] exists and satisfies [p]. *)
Definition flag (p : thread -> bool) (l : list thread) (t : nat) : nat :=
  match l !! t with
  | Some th => if p th then 1%nat else 0%nat
  | None => 0%nat
  end.

Definition times_incremented (t : nat) (w : World) : nat :=
  count (is_incr_of t) (trace w).
Definition times_decremented (t : nat) (w : World) : nat :=
  count (is_decr_of t) (trace w).

Definition thread_invariant (w : World) : Prop :=
  forall t,
    times_incremented t w = flag started (threads w) t /\
    times_decremented t w = flag completed (threads w) t.

(** ** Further notions for the manager *)

Definition is_created (th : thread) : bool :=
  match th with
  | Created _ => true
  | _ => false
  end.

(** Threads that were started and have not yet run line 73. *)
Definition pending (w : World) : nat := count is_created (threads w).

(** Does the action read the counter to decide on admission (lines 37, 83)? *)
Definition tests_capacity (a : action) : bool := is_submit a || is_check_queue a.

(** Every capacity test of the schedule is made at a moment when no
    started thread is still waiting to increment the counter. *)
Fixpoint tests_after_increments (c : cls) (w : World) (sched : list action) : bool :=
  match sched with
  | [] => true
  | a :: sched' =>
      (negb (tests_capacity a) || Nat.eqb (pending w) 0) &&
      match exec c w a with
      | Some w' => tests_after_increments c w' sched'
      | None => true
      end
  end.

Definition prompt_run (c : cls) (K : Z) (sched : list action) : bool :=
  match returned (__init__ c K) with
  | Some w => tests_after_increments c w sched
  | None => true
  end.

(** [enqueue] called once per job, in order. *)
Fixpoint enqueue_all (c : cls) (tasks : list task_info) (w : World) : result World :=
  match tasks with
  | [] => Ok w
  | task :: tasks' =>
      do w <- enqueue c task w;
      enqueue_all c tasks' w
  end.

(** Up to [n] calls of [dequeue], stopping at the first that would wait. *)
Fixpoint dequeue_upto (c : cls) (n : nat) (w : World)
  : result (list task_info * World) :=
  match n with
  | O => Ok ([], w)
  | S n' =>
      do r <- dequeue c w;
      match r with
      | None => Ok ([], w)
      | Some (task, w) =>
          do rest <- dequeue_upto c n' w;
          Ok (task :: fst rest, snd rest)
      end
  end.

(** ** Further notions for the text generator *)

(** Do the settings alone make [_generate_response] fail (lines 33-55)? *)
Definition misconfigured (s : Settings) : bool :=
  if String.eqb (llm_provider s) "openai" then
    is_empty (open_api_key s) || is_empty (openai_model_name s)
  else if String.eqb (llm_provider s) "gemini" then
    is_empty (gemini_api_key s) || is_empty (gemini_model_name s)
  else true.

(** Is the character in the string? *)
Fixpoint occurs (a : ascii) (s : string) : bool :=
  match s with
  | EmptyString => false
  | String b s' => Ascii.eqb a b || occurs a s'
  end.

(** What [search_terms] can hold after the calls numbered [lo] to
    [hi - 1]: the initial empty list, or what [json.loads] made of an
    answer received in those calls or of the bracketed part of one. *)
Definition parsed_between (response : nat -> string -> result string)
    (json_loads : string -> result pyvalue)
    (re_search_brackets : string -> option string)
    (lo hi : nat) (prompt : string) (v : pyvalue) : Prop :=
  v = PList [] \/
  exists i r, (lo <= i < hi)%nat /\ response i prompt = Ok r /\
    (json_loads r = Ok v \/
     exists g, re_search_brackets r = Some g /\ json_loads g = Ok v).

Definition openai_settings : Settings :=
  {| llm_provider := "openai";
     open_api_key := "key";
     openai_base_url := EmptyString;
     openai_model_name := "model";
     gemini_api_key := EmptyString;
     gemini_model_name := EmptyString |}.

Definition gemini_settings : Settings :=
  {| llm_provider := "gemini";
     open_api_key := EmptyString;
     openai_base_url := EmptyString;
     openai_model_name := EmptyString;
     gemini_api_key := "key";
     gemini_model_name := "model" |}.

(** ** str.split *)

(** The pieces of [s] between the occurrences of [sep], found from the
    left and not overlapping; [skip] characters at the head of [s] still
    belong to an occurrence that has been found. *)
Fixpoint split_skip (sep : string) (skip : nat) (s : string) : list string :=
  match s with
  | EmptyString => [EmptyString]
  | String a s' =>
      match skip with
      | S skip' => split_skip sep skip' s'
      | O =>
          if String.prefix sep s then
            EmptyString :: split_skip sep (String.length sep - 1) s'
          else
            match split_skip sep 0 s' with
            | piece :: pieces => String a piece :: pieces
            | [] => [String a EmptyString]
            end
      end
  end.

(** [s.split(sep)] for a separator that is not empty (an empty one is a
    [ValueError] in Python; the source has literal separators only). *)
Definition str_split (sep s : string) : list string := split_skip sep 0 s.

(** ** stream_video (web/api/gen_tvc/views.py, lines 308-360) *)

(** What iterating [file_iterator] gives: the chunks, or the [OSError] of
    [f.seek] on a negative offset. *)
Inductive iterated :=
| Chunks (chunks : list (list Byte.byte))
| SeekFails.

(** The [StreamingResponse]: the body and the headers set at lines
    355-358, with the numbers of the f-strings kept as numbers. *)
Record StreamingResponse := {
  body : iterated;
  content_range : Z * Z * Z;      (* "bytes {start}-{end}/{video_size}" *)
  content_length : Z;
  status_code : Z
}.

Fixpoint map_result {A B} (f : A -> result B) (l : list A) : result (list B) :=
  match l with
  | [] => Ok []
  | x :: l' =>
      do y <- f x;
      do ys <- map_result f l';
      Ok (y :: ys)
  end.

(** The loop of lines 344-350 on the bytes that lie after the file
    position.  An iteration reads at least one byte or leaves the loop, so
    as many iterations as there are bytes left are enough. *)
Fixpoint read_chunks (fuel : nat) (rest : list Byte.byte) (remaining : Z)
  : list (list Byte.byte) :=
  match fuel with
  | O => []
  | S fuel' =>
      if 0 <? remaining then
        let data := take (Z.to_nat (Z.min 4096 remaining)) rest in
        match data with
        | [] => []
        | _ :: _ =>
            data :: read_chunks fuel' (drop (length data) rest)
                      (remaining - Z.of_nat (length data))
        end
      else []
  end.

Section stream_video.

(** [int(part)] *)
Variable int : string -> result Z.

(** Lines 331-332: the two parts of the [Range] header. *)
Definition parse_range (range_header : string) : result (option Z * option Z) :=
  match str_split "bytes=" range_header with
  | _ :: range_ :: _ =>
      do parts <-
        map_result
          (fun part => if is_empty part then Ok None
                       else do z <- int part; Ok (Some z))
          (str_split "-" range_);
      match parts with
      | [start; end_] => Ok (start, end_)
      | [] =>
          Raise (Exn ValueError "not enough values to unpack (expected 2, got 0)")
      | [_] =>
          Raise (Exn ValueError "not enough values to unpack (expected 2, got 1)")
      | _ => Raise (Exn ValueError "too many values to unpack (expected 2)")
      end
  | _ => Raise (Exn IndexError "list index out of range")
  end.

(** Lines 327-338: [start], [end] and [length]. *)
Definition stream_video_range (video_size : Z) (range_header : option string)
  : result (Z * Z * Z) :=
  match range_header with
  | None => Ok (0, video_size - 1, video_size)
  | Some header =>
      if is_empty header then Ok (0, video_size - 1, video_size)
      else
        do parts <- parse_range header;
        match parts with
        | (None, None) =>
            Raise (Exn TypeError
                     "unsupported operand type(s) for -: 'int' and 'NoneType'")
        | (None, Some end_) =>
            let start := video_size - end_ in
            let end_ := video_size - 1 in
            Ok (start, end_, end_ - start + 1)
        | (Some start, None) =>
            let end_ := video_size - 1 in
            Ok (start, end_, end_ - start + 1)
        | (Some start, Some end_) => Ok (start, end_, end_ - start + 1)
        end
  end.

(** Lines 340-350, on a file that holds [file]. *)
Definition file_iterator (file : list Byte.byte) (video_size : Z) (offset : Z)
    (bytes_to_read : Z) : iterated :=
  if offset <? 0 then SeekFails
  else
    let rest := drop (Z.to_nat offset) file in
    let remaining := if bytes_to_read =? 0 then video_size else bytes_to_read in
    Chunks (read_chunks (length rest) rest remaining).

(** [stream_video] for a path under the tasks directory at which a file
    with content [file] exists. *)
Definition stream_video (file : list Byte.byte) (range_header : option string)
  : result StreamingResponse :=
  let video_size := Z.of_nat (length file) in
  do range <- stream_video_range video_size range_header;
  let '(start, end_, length) := range in
  Ok {| body := file_iterator file video_size start length;
        content_range := (start, end_, video_size);
        content_length := length;
        status_code := 206 |}.

End stream_video.

(** The bytes of a response body, chunk after chunk. *)
Definition body_bytes (b : iterated) : option (list Byte.byte) :=
  match b with
  | Chunks chunks => Some (concat chunks)
  | SeekFails => None
  end.

(** A stand-in for [int] that knows a few numerals. *)
Definition sample_int (s : string) : result Z :=
  if String.eqb s "0" then Ok 0
  else if String.eqb s "1" then Ok 1
  else if String.eqb s "2" then Ok 2
  else if String.eqb s "3" then Ok 3
  else Raise (Exn ValueError
                ("invalid literal for int() with base 10: '" +:+ s +:+ "'")).

Definition sample_file : list Byte.byte :=
  [Byte.x61; Byte.x62; Byte.x63; Byte.x64; Byte.x65].

(** ** string_utils.py: str_contains_punctuation, split_string_by_punctuations

    A Python string is a sequence of characters; the functions below
    compare characters and ask whether one is a digit or white space, so
    they are given for any type of characters with those two tests.
    [const.PUNCTUATIONS] is defined in [app/utils/const.py]; here it is a
    parameter, a list of strings. *)

Record split_state (char : Type) := {
  st_result : list (list char);         (* result *)
  st_txt : list char;                   (* txt *)
  st_previous_char : option char;       (* previous_char; None is "" *)
  st_next_char : option char            (* next_char; None is "" *)
}.
Arguments st_result {char} _.
Arguments st_txt {char} _.
Arguments st_previous_char {char} _.
Arguments st_next_char {char} _.

Section string_utils.

Context {char : Type} `{EqDecision char}.
Variable line_feed : char.                    (* "\n" *)
Variable dot : char.                          (* "." *)
Variable isdigit : char -> bool.              (* c.isdigit() *)
Variable isspace : char -> bool.              (* what str.strip() removes *)
Variable PUNCTUATIONS : list (list char).     (* const.PUNCTUATIONS *)

(** [word.startswith(p)] *)
Fixpoint starts_with (p word : list char) : bool :=
  match p, word with
  | [], _ => true
  | _ :: _, [] => false
  | a :: p', b :: word' => bool_decide (a = b) && starts_with p' word'
  end.

(** [p in word] *)
Fixpoint str_in (p word : list char) : bool :=
  starts_with p word ||
  match word with
  | [] => false
  | _ :: word' => str_in p word'
  end.

(** Lines 42-47. *)
Definition str_contains_punctuation (word : list char) : bool :=
  existsb (fun p => str_in p word) PUNCTUATIONS.

Fixpoint lstrip (s : list char) : list char :=
  match s with
  | [] => []
  | c :: s' => if isspace c then lstrip s' else s
  end.

Definition rstrip (s : list char) : list char :=
  reverse (lstrip (reverse s)).

(** [s.strip()] *)
Definition strip (s : list char) : list char := rstrip (lstrip s).

(** ["".isdigit()] is [False]. *)
Definition isdigit_str (c : option char) : bool :=
  match c with
  | Some c => isdigit c
  | None => false
  end.

(** Lines 57-77: the body of the loop at index [i], where [before] is
    [s[i - 1]] when [i > 0], [c] is [s[i]], and [after] is [s[i + 1]]
    when [i < len(s) - 1]. *)
Definition split_step (before : option char) (c : char) (after : option char)
    (st : split_state char) : split_state char :=
  if bool_decide (c = line_feed) then
    {| st_result := st_result st ++ [strip (st_txt st)];
       st_txt := [];
       st_previous_char := st_previous_char st;
       st_next_char := st_next_char st |}
  else
    let previous_char :=
      match before with Some p => Some p | None => st_previous_char st end in
    let next_char :=
      match after with Some n => Some n | None => st_next_char st end in
    if bool_decide (c = dot) && isdigit_str previous_char && isdigit_str next_char
    then
      {| st_result := st_result st;
         st_txt := st_txt st ++ [c];
         st_previous_char := previous_char;
         st_next_char := next_char |}
    else if negb (bool_decide ([c] ∈ PUNCTUATIONS)) then
      {| st_result := st_result st;
         st_txt := st_txt st ++ [c];
         st_previous_char := previous_char;
         st_next_char := next_char |}
    else
      {| st_result := st_result st ++ [strip (st_txt st)];
         st_txt := [];
         st_previous_char := previous_char;
         st_next_char := next_char |}.

(** [for i in range(len(s))], from the index whose character heads [s]. *)
Fixpoint split_loop (before : option char) (s : list char)
    (st : split_state char) : split_state char :=
  match s with
  | [] => st
  | c :: s' => split_loop (Some c) s' (split_step before c (head s') st)
  end.

(** Lines 50-81. *)
Definition split_string_by_punctuations (s : list char) : list (list char) :=
  let st :=
    split_loop None s
      {| st_result := []; st_txt := [];
         st_previous_char := None; st_next_char := None |} in
  filter (fun piece => piece <> []) (st_result st ++ [strip (st_txt st)]).

End string_utils.

(** Digits, white space and punctuation for examples, among the
    characters below 128: [str.isdigit] holds of [0] to [9], and
    [str.strip] removes the characters 9 to 13 and 28 to 32. *)
Definition ascii_isdigit (c : ascii) : bool :=
  (48 <=? nat_of_ascii c)%nat && (nat_of_ascii c <=? 57)%nat.
Definition ascii_isspace (c : ascii) : bool :=
  let n := nat_of_ascii c in
  ((9 <=? n) && (n <=? 13) || (28 <=? n) && (n <=? 32))%nat.
Definition sample_punctuations : list (list ascii) :=
  [["?"%char]; [","%char]; ["."%char]; [";"%char]; [":"%char]; ["!"%char]].

(** ** generate_script (repositories/gen_text/generate_text.py, lines 134-197) *)

(** [s.replace(c, "")] for a one-character [c]. *)
Fixpoint remove_char (c : ascii) (s : string) : string :=
  match s with
  | EmptyString => EmptyString
  | String a s' =>
      if Ascii.eqb a c then remove_char c s' else String a (remove_char c s')
  end.

(** The length of the longest head of [s] that [.*<close>] matches: any
    characters but a line feed, then [close]. *)
Fixpoint greedy_to (close : ascii) (s : string) : option nat :=
  match s with
  | EmptyString => None
  | String a s' =>
      if Ascii.eqb a newline then None
      else
        match greedy_to close s' with
        | Some n => Some (S n)
        | None => if Ascii.eqb a close then Some 1%nat else None
        end
  end.

(** [re.sub(r"<open>.*<close>", "", s)] for two literal characters: from
    the left, every match is dropped; [skip] characters at the head of [s]
    still belong to a match that has been found. *)
Fixpoint re_sub_skip (open close : ascii) (skip : nat) (s : string) : string :=
  match s with
  | EmptyString => EmptyString
  | String a s' =>
      match skip with
      | S skip' => re_sub_skip open close skip' s'
      | O =>
          if Ascii.eqb a open then
            match greedy_to close s' with
            | Some n => re_sub_skip open close n s'
            | None => String a (re_sub_skip open close 0 s')
            end
          else String a (re_sub_skip open close 0 s')
      end
  end.

Definition re_sub_enclosed (open close : ascii) (s : string) : string :=
  re_sub_skip open close 0 s.

(** [sep.join(pieces)] *)
Fixpoint str_join (sep : string) (pieces : list string) : string :=
  match pieces with
  | [] => EmptyString
  | [piece] => piece
  | piece :: pieces' => piece +:+ sep +:+ str_join sep pieces'
  end.

(** Lines 157-175, the nested function. *)
Definition format_response (response : string) : string :=
  let response := remove_char "#" (remove_char "*" response) in
  let response := re_sub_enclosed "[" "]" response in
  let response := re_sub_enclosed "(" ")" response in
  let paragraphs := str_split (String newline (String newline EmptyString)) response in
  str_join (String newline (String newline EmptyString)) paragraphs.

Section generate_script.

Variable settings : Settings.
Variable chat_completions_create :
  forall (n : nat) (api_key base_url model_name prompt : string), result chat_response.
Variable genai_GenerativeModel :
  forall (n : nat) (api_key model_name : string), result unit.
Variable generate_content_text :
  forall (n : nat) (model_name prompt : string), result string.
Variable unbound_local_message : string.
(** [GEN_VIDEO_SCRIPT.format(video_subject=, paragraph_number=)]. *)
Variable GEN_VIDEO_SCRIPT_format : string -> Z -> string.
(** The characters that [str.strip()] removes. *)
Variable isspace : ascii -> bool.

(** [s.strip()] *)
Definition str_strip (s : string) : string :=
  String.string_of_list_ascii (strip isspace (String.list_ascii_of_string s)).

(** Lines 178-192, one pass of [for i in range(_max_retries)]: the new
    [final_script], and whether the loop is left by [break]. *)
Definition generate_script_iteration (n : nat) (prompt final_script : string)
    : result (string * bool) :=
  match
    _generate_response settings chat_completions_create genai_GenerativeModel
      generate_content_text unbound_local_message n prompt
  with
  | Ok response =>
      let final_script :=
        if is_empty response then final_script else format_response response in
      Ok (final_script, negb (is_empty final_script))
  | Raise e =>
      if isinstance_Exception e then Ok (final_script, false) else Raise e
  end.

Fixpoint generate_script_loop (n : nat) (retries : nat)
    (prompt final_script : string) : result string :=
  match retries with
  | O => Ok final_script
  | S retries' =>
      match generate_script_iteration n prompt final_script with
      | Raise e => Raise e
      | Ok (final_script, true) => Ok final_script
      | Ok (final_script, false) =>
          generate_script_loop (S n) retries' prompt final_script
      end
  end.

(** Lines 149-152. *)
Definition generate_script_prompt (video_subject language : string)
    (paragraph_number : Z) : string :=
  let prompt := GEN_VIDEO_SCRIPT_format video_subject paragraph_number in
  if is_empty language then prompt
  else prompt +:+ String newline "- language: " +:+ language.

(** [generate_script]; [n] is the number of calls made to the provider
    before this one. *)
Definition generate_script (n : nat) (video_subject language : string)
    (paragraph_number : Z) : result string :=
  let prompt := generate_script_prompt video_subject language paragraph_number in
  do final_script <- generate_script_loop n _max_retries prompt EmptyString;
  Ok (str_strip final_script).

End generate_script.

(** * Proofs *)

(** ** Lists *)

Lemma count_app {A} (p : A -> bool) (l1 l2 : list A) :
  count p (l1 ++ l2) = (count p l1 + count p l2)%nat.
Proof. induction l1 as [|x l1 IH]; simpl; [done | rewrite IH; lia]. Qed.

Lemma count_insert {A} (p : A -> bool) (l : list A) (i : nat) (x y : A) :
  l !! i = Some x ->
  (count p (<[i := y]> l) + (if p x then 1 else 0) =
   count p l + (if p y then 1 else 0))%nat.
Proof.
  revert i. induction l as [|z l IH]; intros [|i] Hi; simpl in *; try done.
  - injection Hi as ->. lia.
  - specialize (IH i Hi). lia.
Qed.

Lemma count_le_length {A} (p : A -> bool) (l : list A) :
  (count p l <= length l)%nat.
Proof. induction l as [|x l IH]; simpl; [lia | destruct (p x); lia]. Qed.

Lemma count_zero {A} (p : A -> bool) (l : list A) :
  (forall x, x ∈ l -> p x = false) -> count p l = 0%nat.
Proof.
  induction l as [|x l IH]; intros H; simpl; [done|].
  rewrite (H x) by constructor. rewrite IH; [done|].
  intros y Hy. apply H. by constructor.
Qed.

Lemma count_mono {A} (p q : A -> bool) (l : list A) :
  (forall x, p x = true -> q x = true) -> (count p l <= count q l)%nat.
Proof.
  intros Hpq. induction l as [|x l IH]; simpl; [lia|].
  destruct (p x) eqn:Hp; [rewrite (Hpq x Hp)|destruct (q x)]; lia.
Qed.

Lemma count_all {A} (p : A -> bool) (l : list A) :
  (forall x, x ∈ l -> p x = true) -> count p l = length l.
Proof.
  induction l as [|x l IH]; intros H; simpl; [done|].
  rewrite (H x) by constructor. rewrite IH; [done|].
  intros y Hy. apply H. by constructor.
Qed.

Lemma completed_started (th : thread) : completed th = true -> started th = true.
Proof. by destruct th. Qed.

(** ** Method resolution *)

Lemma resolve_inherited (c : cls) (m : method) :
  class_body C_TaskManager m = true -> resolve c m = Some C_TaskManager.
Proof. destruct c, m; simpl; intros; done. Qed.

Lemma invoke_inherited (c : cls) (m : method) (w : World) :
  class_body C_TaskManager m = true ->
  invoke c m w = Ok (emit (Call C_TaskManager m) w).
Proof. intros H. unfold invoke. by rewrite resolve_inherited. Qed.

Ltac run_methods :=
  unfold run_task, task_done, add_task, check_queue, task_done_decrement,
    run_task_enter, run_task_except, execute_task, _log, __init__,
    Queue_get_nowait, Queue_put, getattr___name__ in *;
  cbn [bind] in *;
  repeat match goal with
    | |- context [invoke ?c ?m ?w] =>
        rewrite (invoke_inherited c m w) by reflexivity; cbn [bind]
    | H : context [invoke ?c ?m ?w] |- _ =>
        rewrite (invoke_inherited c m w) in H by reflexivity; cbn [bind] in H
    end.

Lemma init_world (c : cls) (K : Z) :
  __init__ c K =
  Ok {| self := {| max_concurrent_tasks := K; current_tasks := 0; queue := [] |};
        threads := [];
        trace := [Call C_TaskManager m___init__] |}.
Proof. by run_methods. Qed.

Lemma exec_all_app (c : cls) (w : World) (s1 s2 : list action) :
  exec_all c w (s1 ++ s2) =
  match exec_all c w s1 with
  | Some w' => exec_all c w' s2
  | None => None
  end.
Proof.
  revert w. induction s1 as [|a s1 IH]; intros w; simpl; [done|].
  destruct (exec c w a); [apply IH | done].
Qed.

(** Induction over the states a run can reach. *)
Lemma run_ind (c : cls) (K : Z) (P : World -> Prop) :
  (forall w, returned (__init__ c K) = Some w -> P w) ->
  (forall w a w', P w -> exec c w a = Some w' -> P w') ->
  forall sched w, run c K sched = Some w -> P w.
Proof.
  intros Hinit Hstep sched w. unfold run.
  destruct (returned (__init__ c K)) as [w0|] eqn:E; [|done].
  specialize (Hinit w0 eq_refl). clear E.
  revert w0 Hinit. induction sched as [|a sched IH]; intros w0 H0; simpl.
  - by intros [= <-].
  - destruct (exec c w0 a) as [w1|] eqn:E1; [|done].
    apply IH. by eapply Hstep.
Qed.

(** Every case of a step, with the resulting state written out. *)
Ltac step_cases H :=
  match type of H with
  | exec ?c ?w ?a = Some ?w' =>
      destruct a as [task | t | t o | t | t]; simpl in H;
      [ | destruct (threads w !! t) as [[ | | | | ]|] eqn:Hth; try discriminate H ..];
      run_methods; simpl in H;
      repeat match type of H with
        | context [if (?x <? ?y) then _ else _] => destruct (Z.ltb_spec x y) as [Hlt|Hge]
        | context [if isinstance_Exception ?e then _ else _] =>
            destruct (isinstance_Exception e) eqn:Hisinstance
        | context [match ?o with Returns => _ | Raises _ => _ end] => destruct o
        | context [match queue ?x with [] => _ | _ :: _ => _ end] =>
            destruct (queue x) eqn:Hqueue
        | context [match func ?k with Function _ => _ | CallableObject _ => _ end] =>
            destruct (func k) eqn:Hfunc
        end;
      run_methods;
      unfold finally, emit, set_queue, set_current_tasks, set_thread in H;
      simpl in H;
      first [discriminate H | injection H as <-]
  end.

(** ** The bookkeeping invariant *)

Lemma init_invariant (c : cls) (K : Z) (w : World) :
  returned (__init__ c K) = Some w -> invariant K w.
Proof.
  run_methods. intros [= <-]. by split.
Qed.

Ltac count_steps :=
  unfold total_increments, total_decrements, total_admissions, enqueued,
    dequeued in *; simpl in *;
  rewrite ?insert_app_l by (eapply lookup_lt_Some; eassumption);
  rewrite ?count_app, ?omap_app, ?length_app, ?length_insert in *; simpl in *.

Ltac count_inserts Hth :=
  repeat match goal with
    | |- context [count ?p (<[?t := ?y]> ?l)] =>
        let H := fresh "Hc" in
        pose proof (count_insert p l t _ y Hth) as H; simpl in H;
        let n := fresh "n" in
        set (n := count p (<[t := y]> l)) in *; clearbody n
    end.

Lemma exec_invariant (c : cls) (K : Z) (w w' : World) (a : action) :
  invariant K w -> exec c w a = Some w' -> invariant K w'.
Proof.
  intros [Hmax Hcur Hincr Hdecr Hadm Hfifo] H.
  step_cases H; split; count_steps; try count_inserts Hth;
    try lia; try done;
    rewrite ?Hfifo, ?Hqueue, <- ?app_assoc, ?app_nil_r; simpl; try done.
Qed.

Lemma run_invariant (c : cls) (K : Z) (sched : list action) (w : World) :
  run c K sched = Some w -> invariant K w.
Proof.
  revert sched w. apply run_ind.
  - apply init_invariant.
  - intros w a w'. apply exec_invariant.
Qed.

(** ** Per-thread accounting *)

Lemma flag_snoc (p : thread -> bool) (l : list thread) (x : thread) (t : nat) :
  p x = false -> flag p (l ++ [x]) t = flag p l t.
Proof.
  intros Hx. unfold flag. rewrite lookup_app.
  destruct (l !! t) as [th|]; [done|].
  destruct (t - length l)%nat as [|n]; simpl; [by rewrite Hx | done].
Qed.

Lemma flag_insert (p : thread -> bool) (l : list thread) (t t0 : nat) (x y : thread) :
  l !! t = Some x ->
  flag p (<[t := y]> l) t0 =
  if Nat.eqb t0 t then (if p y then 1%nat else 0%nat) else flag p l t0.
Proof.
  intros Hx. unfold flag. destruct (Nat.eqb_spec t0 t) as [->|Hne].
  - rewrite list_lookup_insert_eq; [done | by eapply lookup_lt_Some].
  - by rewrite list_lookup_insert_ne.
Qed.

Lemma flag_here (p : thread -> bool) (l : list thread) (t : nat) (x : thread) :
  l !! t = Some x -> flag p l t = if p x then 1%nat else 0%nat.
Proof. intros Hx. unfold flag. by rewrite Hx. Qed.

Lemma exec_thread_invariant (c : cls) (w w' : World) (a : action) :
  thread_invariant w -> exec c w a = Some w' -> thread_invariant w'.
Proof.
  intros Hinv H t0. destruct (Hinv t0) as [Hi Hd].
  unfold times_incremented, times_decremented in *.
  step_cases H; simpl;
    rewrite ?insert_app_l by (eapply lookup_lt_Some; eassumption);
    rewrite ?count_app, ?(flag_insert _ _ _ _ _ _ Hth); simpl;
    rewrite ?flag_snoc by done;
    rewrite ?(flag_insert _ _ _ _ _ _ Hth); simpl;
    try (split; lia);
    destruct (Nat.eqb_spec t0 t) as [->|Hne];
    rewrite ?(flag_here _ _ _ _ Hth) in *; simpl in *; split; lia.
Qed.

Lemma run_thread_invariant (c : cls) (K : Z) (sched : list action) (w : World) :
  run c K sched = Some w -> thread_invariant w.
Proof.
  revert sched w. apply run_ind.
  - run_methods. intros w [= <-] t. by destruct t.
  - intros w a w'. apply exec_thread_invariant.
Qed.

(** ** Where submitted jobs are *)

Lemma dispatched_insert (l : list thread) (t : nat) (th th' : thread) :
  l !! t = Some th -> thread_task th' = thread_task th ->
  thread_task <$> <[t := th']> l = thread_task <$> l.
Proof.
  intros Hth Heq. rewrite list_fmap_insert, Heq.
  apply list_insert_id. by rewrite list_lookup_fmap, Hth.
Qed.

(** A step moves at most one job: from the caller to a thread or to the
    queue tail, or from the queue head to a thread. *)
Lemma exec_dispatched (c : cls) (w w' : World) (a : action) :
  exec c w a = Some w' ->
  (exists k, a = Submit k /\ dispatched w' = dispatched w ++ [k] /\
             queue (self w') = queue (self w)) \/
  (exists k, a = Submit k /\ dispatched w' = dispatched w /\
             queue (self w') = queue (self w) ++ [k]) \/
  (exists k t, a = CheckQueue t /\ dispatched w' = dispatched w ++ [k] /\
             queue (self w) = k :: queue (self w')) \/
  (submitted [a] = [] /\ dispatched w' = dispatched w /\
   queue (self w') = queue (self w)).
Proof.
  intros H. unfold dispatched.
  step_cases H; simpl;
    rewrite ?insert_app_l by (eapply lookup_lt_Some; eassumption);
    rewrite ?fmap_app, ?(dispatched_insert _ _ _ _ Hth) by done; simpl;
    first [ by repeat right
          | left; by exists task
          | right; left; by exists task
          | right; right; left; by eexists _, _ ].
Qed.

Lemma submitted_cons (a : action) (sched : list action) :
  submitted (a :: sched) = submitted [a] ++ submitted sched.
Proof. by destruct a. Qed.

Lemma exec_all_dispatched (c : cls) (sched : list action) (w w' : World) :
  exec_all c w sched = Some w' ->
  dispatched w' ++ queue (self w') ≡ₚ
  (dispatched w ++ queue (self w)) ++ submitted sched.
Proof.
  revert w. induction sched as [|a sched IH]; intros w; cbn [exec_all].
  - intros [= <-]. by rewrite app_nil_r.
  - destruct (exec c w a) as [w1|] eqn:E; [|done]. intros H.
    rewrite (IH _ H), submitted_cons, (app_assoc _ (submitted [a])).
    apply Permutation_app_tail. clear IH H.
    destruct (exec_dispatched _ _ _ _ E)
      as [(k & -> & -> & ->)|[(k & -> & -> & ->)|[(k & t & -> & -> & ->)|(-> & -> & ->)]]];
      simpl.
    + rewrite <- !app_assoc. apply Permutation_app_head, Permutation_app_comm.
    + by rewrite <- !app_assoc.
    + rewrite app_nil_r, <- app_assoc. done.
    + by rewrite app_nil_r.
Qed.

(** ** Jobs that get in have a name *)

(** [add_task] returns only for a callable with a [__name__]. *)
Lemma submit_named (c : cls) (w w' : World) (task : task_info) :
  exec c w (Submit task) = Some w' -> named task = true.
Proof.
  unfold named. simpl. run_methods.
  destruct (func task); [done|].
  by destruct (_ <? _).
Qed.

Lemma exec_named (c : cls) (w w' : World) (a : action) :
  exec c w a = Some w' ->
  Forall (fun task => named task = true) (dispatched w ++ queue (self w)) ->
  Forall (fun task => named task = true) (dispatched w' ++ queue (self w')).
Proof.
  intros H HF.
  destruct (exec_dispatched _ _ _ _ H)
    as [(k & Ha & Hd & Hq)|[(k & Ha & Hd & Hq)|[(k & t & Ha & Hd & Hq)
       |(_ & Hd & Hq)]]]; rewrite Hd.
  - subst a. apply submit_named in H. rewrite Hq.
    revert HF. rewrite !Forall_app, Forall_singleton.
    intros [Hdone Hqueued]. by split_and!.
  - subst a. apply submit_named in H. rewrite Hq.
    revert HF. rewrite !Forall_app, Forall_singleton.
    intros [Hdone Hqueued]. by split_and!.
  - revert HF. rewrite Hq, !Forall_app, Forall_cons, Forall_singleton.
    intros (Hdone & Hk & Hqueued). by split_and!.
  - by rewrite Hq.
Qed.

(** Every job in a thread or in the queue of a reachable state has come
    through [add_task], so its callable has a [__name__]. *)
Lemma run_named (c : cls) (K : Z) (sched : list action) (w : World) :
  run c K sched = Some w ->
  Forall (fun task => named task = true) (dispatched w ++ queue (self w)).
Proof.
  revert sched w. apply run_ind.
  - run_methods. by intros w [= <-].
  - intros w a w' IH H. by apply (exec_named _ _ _ _ H).
Qed.

Lemma run_thread_named (c : cls) (K : Z) (sched : list action) (w : World)
    (t : nat) (th : thread) :
  run c K sched = Some w -> threads w !! t = Some th ->
  exists name, func (thread_task th) = Function name.
Proof.
  intros Hrun Hth. apply run_named in Hrun.
  apply Forall_app in Hrun as [Hd _]. rewrite Forall_forall in Hd.
  assert (Hn : named (thread_task th) = true).
  { apply Hd. unfold dispatched. apply list_elem_of_fmap. exists th.
    split; [done|]. by eapply list_elem_of_lookup_2. }
  unfold named in Hn. destruct (func (thread_task th)) as [name|]; [|done].
  by exists name.
Qed.

(** ** Every step of a thread is enabled *)

Lemma enter_enabled (c : cls) (w : World) (t : nat) (task : task_info) :
  threads w !! t = Some (Created task) ->
  exists w', exec c w (RunTaskEnter t) = Some w' /\
    current_tasks (self w') = current_tasks (self w) + 1 /\
    max_concurrent_tasks (self w') = max_concurrent_tasks (self w) /\
    queue (self w') = queue (self w) /\
    threads w' = <[t := InBody task]> (threads w).
Proof.
  intros Hth. simpl. rewrite Hth. run_methods. simpl.
  eexists; (split; [done|]); done.
Qed.

Lemma body_ends_enabled (c : cls) (w : World) (t : nat) (task : task_info)
    (o : outcome) :
  threads w !! t = Some (InBody task) ->
  exists w', exec c w (BodyEnds t o) = Some w' /\
    self w' = self w /\
    threads w' = <[t := InFinally task]> (threads w) /\
    trace w' =
      trace w ++
      match o with
      | Returns => []
      | Raises e =>
          if isinstance_Exception e
          then
            match func task with
            | Function name =>
                [Call C_TaskManager m__log;
                 Printed (ErrorWhileExecuting name (exn_str e))]
            | CallableObject _ => []
            end
          else []
      end.
Proof.
  intros Hth. simpl. rewrite Hth.
  destruct o as [|e]; simpl;
    [|destruct (isinstance_Exception e); [destruct (func task)|]];
    run_methods; simpl; eexists; (split; [done|]); simpl;
    rewrite <- ?app_assoc, ?app_nil_r; done.
Qed.

Lemma task_done_enabled (c : cls) (w : World) (t : nat) (task : task_info) :
  threads w !! t = Some (InFinally task) ->
  exists w', exec c w (TaskDone t) = Some w' /\
    current_tasks (self w') = current_tasks (self w) - 1 /\
    max_concurrent_tasks (self w') = max_concurrent_tasks (self w) /\
    queue (self w') = queue (self w) /\
    threads w' = <[t := AfterDecrement task]> (threads w) /\
    trace w' = trace w ++ [Call C_TaskManager m_task_done; Decr t].
Proof.
  intros Hth. simpl. rewrite Hth. run_methods. simpl.
  eexists; (split; [done|]); simpl. by rewrite <- app_assoc.
Qed.

Lemma check_queue_enabled (c : cls) (w : World) (t : nat) (task : task_info) :
  threads w !! t = Some (AfterDecrement task) ->
  exists w', exec c w (CheckQueue t) = Some w' /\
    threads w' !! t = Some (Exited task).
Proof.
  intros Hth. pose proof (lookup_lt_Some _ _ _ Hth) as Hlt.
  simpl. rewrite Hth. run_methods.
  destruct (_ <? _); [destruct (queue _) eqn:Hq|]; run_methods; simpl;
    eexists; (split; [done|]); simpl;
    rewrite list_lookup_insert_eq; rewrite ?length_app; try done; lia.
Qed.

Lemma submit_enabled (c : cls) (w : World) (task : task_info) :
  named task = true ->
  exists w', add_task c task w = Ok w' /\
    current_tasks (self w') = current_tasks (self w) /\
    max_concurrent_tasks (self w') = max_concurrent_tasks (self w) /\
    ((current_tasks (self w) < max_concurrent_tasks (self w) /\
      threads w' = threads w ++ [Created task] /\
      queue (self w') = queue (self w)) \/
     (max_concurrent_tasks (self w) <= current_tasks (self w) /\
      threads w' = threads w /\
      queue (self w') = queue (self w) ++ [task])).
Proof.
  unfold named. intros Hnamed. run_methods.
  destruct (func task); [|done]. run_methods. simpl.
  destruct (Z.ltb_spec (current_tasks (self w)) (max_concurrent_tasks (self w)));
    eexists; (split; [done|]); simpl; auto 10.
Qed.

(** A thread that exists can be run to its end by its own steps alone,
    whatever way [o] its job ends. *)
Lemma thread_can_exit (c : cls) (w : World) (t : nat) (th : thread) (o : outcome) :
  threads w !! t = Some th ->
  exists sched' w',
    suffix sched' [RunTaskEnter t; BodyEnds t o; TaskDone t; CheckQueue t] /\
    exec_all c w sched' = Some w' /\
    threads w' !! t = Some (Exited (thread_task th)).
Proof.
  intros Hth.
  assert (Hlt : (t < length (threads w))%nat) by by eapply lookup_lt_Some.
  destruct th as [k|k|k|k|k]; simpl.
  - destruct (enter_enabled c _ _ _ Hth) as (w1 & E1 & _ & _ & _ & T1).
    assert (H1 : threads w1 !! t = Some (InBody k))
      by (rewrite T1; by apply list_lookup_insert_eq).
    destruct (body_ends_enabled c _ _ _ o H1) as (w2 & E2 & _ & T2 & _).
    assert (H2 : threads w2 !! t = Some (InFinally k))
      by (rewrite T2, T1; apply list_lookup_insert_eq; by rewrite length_insert).
    destruct (task_done_enabled c _ _ _ H2) as (w3 & E3 & _ & _ & _ & T3 & _).
    assert (H3 : threads w3 !! t = Some (AfterDecrement k))
      by (rewrite T3, T2, T1; apply list_lookup_insert_eq; by rewrite !length_insert).
    destruct (check_queue_enabled c _ _ _ H3) as (w4 & E4 & T4).
    exists [RunTaskEnter t; BodyEnds t o; TaskDone t; CheckQueue t], w4.
    split; [done|]. cbn [exec_all]. by rewrite E1, E2, E3, E4.
  - destruct (body_ends_enabled c _ _ _ o Hth) as (w2 & E2 & _ & T2 & _).
    assert (H2 : threads w2 !! t = Some (InFinally k))
      by (rewrite T2; by apply list_lookup_insert_eq).
    destruct (task_done_enabled c _ _ _ H2) as (w3 & E3 & _ & _ & _ & T3 & _).
    assert (H3 : threads w3 !! t = Some (AfterDecrement k))
      by (rewrite T3, T2; apply list_lookup_insert_eq; by rewrite !length_insert).
    destruct (check_queue_enabled c _ _ _ H3) as (w4 & E4 & T4).
    exists [BodyEnds t o; TaskDone t; CheckQueue t], w4.
    split; [by exists [RunTaskEnter t]|]. cbn [exec_all]. by rewrite E2, E3, E4.
  - destruct (task_done_enabled c _ _ _ Hth) as (w3 & E3 & _ & _ & _ & T3 & _).
    assert (H3 : threads w3 !! t = Some (AfterDecrement k))
      by (rewrite T3; by apply list_lookup_insert_eq).
    destruct (check_queue_enabled c _ _ _ H3) as (w4 & E4 & T4).
    exists [TaskDone t; CheckQueue t], w4.
    split; [by exists [RunTaskEnter t; BodyEnds t o]|].
    cbn [exec_all]. by rewrite E3, E4.
  - destruct (check_queue_enabled c _ _ _ Hth) as (w4 & E4 & T4).
    exists [CheckQueue t], w4.
    split; [by exists [RunTaskEnter t; BodyEnds t o; TaskDone t]|].
    cbn [exec_all]. by rewrite E4.
  - exists [], w. split; [|done].
    by exists [RunTaskEnter t; BodyEnds t o; TaskDone t; CheckQueue t].
Qed.

Lemma run_app (c : cls) (K : Z) (sched sched' : list action) (w w' : World) :
  run c K sched = Some w -> exec_all c w sched' = Some w' ->
  run c K (sched ++ sched') = Some w'.
Proof.
  unfold run. destruct (returned (__init__ c K)) as [w0|]; [|done].
  intros H1 H2. by rewrite exec_all_app, H1.
Qed.

(** ** [run_task] as one piece *)

Ltac case_capacity :=
  match goal with
  | |- context [?a <? ?b] => destruct (a <? b)
  end.

(** Run without interruption, [run_task] returns whatever way the job
    ends, and leaves the counter where it was. *)
Lemma run_task_balanced (c : cls) (t : nat) (task : task_info) (o : outcome)
    (w : World) :
  exists w' propagated, run_task c t task o w = Ok (w', propagated) /\
    current_tasks (self w') = current_tasks (self w) /\
    max_concurrent_tasks (self w') = max_concurrent_tasks (self w).
Proof.
  run_methods.
  destruct o as [|e];
    [|destruct (isinstance_Exception e); [destruct (func task)|]];
    unfold finally; run_methods; simpl;
    (case_capacity; [destruct (queue (self w))|]); run_methods; simpl;
    eexists _, _; (split; [done|]); simpl; split; (done || lia).
Qed.

(** The four steps of a thread, taken back to back, are [run_task]. *)
Lemma run_task_uninterrupted (c : cls) (w : World) (t : nat) (task : task_info)
    (o : outcome) :
  threads w !! t = Some (Created task) ->
  exec_all c w [RunTaskEnter t; BodyEnds t o; TaskDone t; CheckQueue t] =
  set_thread t (Exited task) <$> (fst <$> returned (run_task c t task o w)).
Proof.
  intros Hth. pose proof (lookup_lt_Some _ _ _ Hth) as Hlt.
  cbn [exec_all exec]. rewrite Hth. run_methods. simpl.
  rewrite list_lookup_insert_eq by done.
  destruct o as [|e];
    [|destruct (isinstance_Exception e); [destruct (func task)|]];
    unfold finally; run_methods; simpl;
    rewrite list_lookup_insert_eq by (by rewrite ?length_insert);
    run_methods; simpl;
    rewrite list_lookup_insert_eq by (by rewrite ?length_insert);
    run_methods; simpl;
    (case_capacity; [destruct (queue (self w))|]); run_methods; simpl;
    unfold set_thread; simpl; do 2 f_equal;
    rewrite ?insert_app_l by (by rewrite ?length_insert);
    by rewrite ?list_insert_insert_eq, ?length_insert.
Qed.

(** ** Progress: the manager can always finish what it was given *)

Lemma count_zero_inv {A} (p : A -> bool) (l : list A) :
  count p l = 0%nat -> forall x, x ∈ l -> p x = false.
Proof.
  induction l as [|y l IH]; simpl; intros H x Hx.
  - by apply elem_of_nil in Hx.
  - apply elem_of_cons in Hx as [->|Hx].
    + destruct (p y); [lia | done].
    + apply IH; [|done]. destruct (p y); lia.
Qed.

Lemma count_pos_lookup {A} (p : A -> bool) (l : list A) :
  (0 < count p l)%nat -> exists i x, l !! i = Some x /\ p x = true.
Proof.
  induction l as [|y l IH]; simpl; [lia|].
  destruct (p y) eqn:Hy.
  - intros _. by exists 0%nat, y.
  - intros H. destruct (IH H) as (i & x & Hi & Hx). by exists (S i), x.
Qed.

Lemma in_flight_unfinished (th : thread) :
  in_flight th = true -> unfinished th = true.
Proof. by destruct th. Qed.

(** With a positive limit, a job waits in the queue only while some
    thread still has a step to take. *)
Lemma exec_queue_has_runner (c : cls) (K : Z) (w w' : World) (a : action) :
  0 < K -> invariant K w ->
  (queue (self w) = [] \/ (0 < count unfinished (threads w))%nat) ->
  exec c w a = Some w' ->
  queue (self w') = [] \/ (0 < count unfinished (threads w'))%nat.
Proof.
  intros HK [Hmax Hcur _ _ _ _] Hrunner H.
  pose proof (count_mono in_flight unfinished (threads w) in_flight_unfinished)
    as Hmono.
  step_cases H; simpl;
    rewrite ?insert_app_l by (eapply lookup_lt_Some; eassumption);
    rewrite ?count_app; simpl.
  - right. lia.
  - right. lia.
  - pose proof (count_insert unfinished _ _ _ (InBody task) Hth). simpl in *.
    destruct Hrunner; [by left | right; lia].
  - pose proof (count_insert unfinished _ _ _ (InFinally task) Hth). simpl in *.
    destruct Hrunner; [by left | right; lia].
  - pose proof (count_insert unfinished _ _ _ (InFinally task) Hth). simpl in *.
    destruct Hrunner; [by left | right; lia].
  - pose proof (count_insert unfinished _ _ _ (InFinally task) Hth). simpl in *.
    destruct Hrunner; [by left | right; lia].
  - pose proof (count_insert unfinished _ _ _ (InFinally task) Hth). simpl in *.
    destruct Hrunner; [by left | right; lia].
  - pose proof (count_insert unfinished _ _ _ (AfterDecrement task) Hth).
    simpl in *. destruct Hrunner; [by left | right; lia].
  - by left.
  - right. lia.
  - right.
    pose proof (count_insert in_flight _ _ _ (Exited task) Hth) as Hfl.
    pose proof (count_mono in_flight unfinished (<[t := Exited task]> (threads w))
                  in_flight_unfinished).
    simpl in *. lia.
Qed.

Lemma run_queue_has_runner (c : cls) (K : Z) (sched : list action) (w : World) :
  0 < K -> run c K sched = Some w ->
  queue (self w) = [] \/ (0 < count unfinished (threads w))%nat.
Proof.
  intros HK H.
  enough (invariant K w /\
          (queue (self w) = [] \/ (0 < count unfinished (threads w))%nat))
    as [_ ?]; [done|].
  revert sched w H. apply run_ind.
  - intros w H. split; [by eapply init_invariant|].
    rewrite init_world in H. injection H as <-. by left.
  - intros w a w' [Hinv Hrunner] H. split.
    + by eapply exec_invariant.
    + by eapply exec_queue_has_runner.
Qed.

(** A step changes the backlog by the job it takes in or finishes. *)
Lemma exec_backlog (c : cls) (w w' : World) (a : action) :
  exec c w a = Some w' ->
  (backlog w' + (if is_check_queue a then 1 else 0) =
   backlog w + (if is_submit a then 1 else 0))%nat.
Proof.
  intros H. unfold backlog.
  step_cases H; simpl;
    rewrite ?insert_app_l by (eapply lookup_lt_Some; eassumption);
    rewrite ?count_app, ?length_app, ?Hqueue; simpl;
    try lia;
    repeat match goal with
      | |- context [count ?p (<[?i := ?y]> ?l)] =>
          pose proof (count_insert p l i _ y Hth);
          generalize dependent (count p (<[i := y]> l)); intros
      end;
    simpl in *; lia.
Qed.

Lemma exec_all_backlog (c : cls) (sched : list action) (w w' : World) :
  exec_all c w sched = Some w' ->
  (backlog w' + count is_check_queue sched =
   backlog w + count is_submit sched)%nat.
Proof.
  revert w. induction sched as [|a sched IH]; intros w; cbn [exec_all].
  - intros [= <-]. simpl. lia.
  - destruct (exec c w a) as [w1|] eqn:E; [|done]. intros H.
    pose proof (exec_backlog _ _ _ _ E). pose proof (IH _ H).
    simpl. destruct (is_check_queue a), (is_submit a); lia.
Qed.

(** The steps that bring an unfinished thread to its end lower the backlog. *)
Lemma thread_exit_backlog (c : cls) (w : World) (t : nat) (th : thread)
    (o : outcome) :
  threads w !! t = Some th -> unfinished th = true ->
  exists sched' w',
    Forall (step_of_thread o) sched' /\
    count is_submit sched' = 0%nat /\
    exec_all c w sched' = Some w' /\
    (backlog w' < backlog w)%nat.
Proof.
  intros Hth Hun.
  destruct (thread_can_exit c w t th o Hth) as (sched' & w' & Hsuf & E & Hexit).
  exists sched', w'.
  assert (Hshape : sched' = [] \/
            (Forall (step_of_thread o) sched' /\
             count is_submit sched' = 0%nat /\
             count is_check_queue sched' = 1%nat)).
  { destruct Hsuf as [pre Hpre].
    destruct pre as [|a1 [|a2 [|a3 [|a4 [|a5 pre]]]]];
      simpl in Hpre; simplify_eq; [right|right|right|right|left]; try done.
    all: split; [|done].
    all: repeat (apply Forall_cons; split; [exists t; rewrite !elem_of_cons; auto 10|]).
    all: by apply Forall_nil. }
  destruct Hshape as [->|(Hsteps & Hsub & Hchk)].
  - simpl in E. injection E as <-. rewrite Hth in Hexit.
    injection Hexit as Heq. by rewrite Heq in Hun.
  - pose proof (exec_all_backlog _ _ _ _ E). split_and!; try done. lia.
Qed.

(** From any reachable state of a manager with a positive limit, the
    threads alone, with every job ending as [o], can bring the manager to
    rest: every thread at its end, the queue empty. *)
Lemma can_drain (c : cls) (K : Z) (o : outcome) :
  0 < K ->
  forall n sched w,
    (backlog w <= n)%nat ->
    run c K sched = Some w ->
    exists sched' w',
      Forall (step_of_thread o) sched' /\
      count is_submit sched' = 0%nat /\
      run c K (sched ++ sched') = Some w' /\
      quiescent w'.
Proof.
  intros HK n. induction n as [|n IH]; intros sched w Hn Hrun.
  - exists [], w. rewrite app_nil_r. split_and!; try done.
    unfold backlog in Hn. split.
    + intros th Hin.
      assert (Hu : unfinished th = false)
        by (eapply count_zero_inv; [|done]; lia).
      by destruct th.
    + destruct (queue (self w)); [done | simpl in Hn; lia].
  - destruct (count unfinished (threads w)) as [|m] eqn:Hcount.
    + exists [], w. rewrite app_nil_r. split_and!; try done. split.
      * intros th Hin.
        assert (Hu : unfinished th = false) by by eapply count_zero_inv.
        by destruct th.
      * destruct (run_queue_has_runner _ _ _ _ HK Hrun); [done | lia].
    + destruct (count_pos_lookup unfinished (threads w)) as (t & th & Hth & Hun);
        [lia|].
      destruct (thread_exit_backlog c w t th o Hth Hun)
        as (sched1 & w1 & Hsteps1 & Hsub1 & E1 & Hless).
      pose proof (run_app _ _ _ _ _ _ Hrun E1) as Hrun1.
      destruct (IH (sched ++ sched1) w1) as (sched2 & w2 & Hsteps2 & Hsub2 & Hrun2 & Hq);
        [lia | done |].
      exists (sched1 ++ sched2), w2. split_and!; try done.
      * by apply Forall_app.
      * rewrite count_app. lia.
      * by rewrite app_assoc.
Qed.

Lemma submitted_no_submit (sched : list action) :
  count is_submit sched = 0%nat -> submitted sched = [].
Proof.
  induction sched as [|a sched IH]; simpl; [done|].
  destruct a; simpl; try done; intros H; apply IH; lia.
Qed.

Lemma submitted_app (s1 s2 : list action) :
  submitted (s1 ++ s2) = submitted s1 ++ submitted s2.
Proof. apply omap_app. Qed.

(** At rest after a run: the counter is 0, and the jobs that were started
    are the jobs that were submitted. *)
Lemma quiescent_run (c : cls) (K : Z) (sched : list action) (w : World) :
  run c K sched = Some w -> quiescent w ->
  current_tasks (self w) = 0 /\
  dispatched w ≡ₚ submitted sched /\
  total_decrements w = total_admissions w /\
  total_increments w = total_admissions w.
Proof.
  intros Hrun [Hall Hq].
  pose proof (run_invariant _ _ _ _ Hrun) as [_ Hcur Hincr Hdecr Hadm _].
  split_and!.
  - rewrite Hcur, count_zero; [done|].
    intros th Hin. destruct (Hall th Hin). by destruct th.
  - unfold run in Hrun. rewrite init_world in Hrun. simpl in Hrun.
    apply exec_all_dispatched in Hrun. rewrite Hq, app_nil_r in Hrun. done.
  - rewrite Hdecr, Hadm. apply count_all. intros th Hin. by destruct (Hall th Hin).
  - rewrite Hincr, Hadm. apply count_all. intros th Hin.
    destruct (Hall th Hin). by apply completed_started.
Qed.

(** ** The counter and the limit *)

Lemma current_tasks_bounds (c : cls) (K : Z) (sched : list action) (w : World) :
  run c K sched = Some w ->
  0 <= current_tasks (self w) <= Z.of_nat (length (threads w)).
Proof.
  intros H. destruct (run_invariant _ _ _ _ H) as [_ Hcur _ _ _ _].
  rewrite Hcur. pose proof (count_le_length in_flight (threads w)). lia.
Qed.

(** C1 (the code departs from the claim).  With [max_concurrent_tasks = 1],
    two [add_task] calls made before either new thread has reached line 73
    both pass the capacity test of line 37 at [current_tasks = 0] and both
    start a thread.  The first thread increments the counter to 1; the
    second then enters its job although the counter is not below the
    limit, and the counter is 2, above the limit, with both job bodies
    running.  The test (in [add_task], caller's thread) and the increment
    (in [run_task], new thread) are two critical sections, not one. *)
Theorem C1_current_tasks_exceeds_limit :
  exists w1 w,
    run C_TaskManager 1 [Submit job_A; Submit job_B; RunTaskEnter 0] = Some w1 /\
    current_tasks (self w1) = 1 /\
    exec C_TaskManager w1 (RunTaskEnter 1) = Some w /\
    max_concurrent_tasks (self w) = 1 /\
    current_tasks (self w) = 2 /\
    threads w = [InBody job_A; InBody job_B] /\
    Printed (Executing "B" 0) ∈ trace w /\
    ~ (0 <= current_tasks (self w) <= max_concurrent_tasks (self w)).
Proof.
  eexists _, _. split; [vm_compute; reflexivity|].
  split; [reflexivity|]. split; [vm_compute; reflexivity|]. simpl.
  split_and!; try done.
  - rewrite !elem_of_cons. auto 12.
  - lia.
Qed.

(** The scenario of three jobs under limit 1, each started only after the
    one before it has finished. *)
Example three_jobs_in_turn :
  exists w,
    run C_InMemoryTaskManager 1
      [Submit job_A; RunTaskEnter 0; Submit job_B; Submit job_C;
       BodyEnds 0 Returns; TaskDone 0; CheckQueue 0;
       RunTaskEnter 1; BodyEnds 1 Returns; TaskDone 1; CheckQueue 1;
       RunTaskEnter 2; BodyEnds 2 Returns; TaskDone 2; CheckQueue 2] = Some w /\
    self w = {| max_concurrent_tasks := 1; current_tasks := 0; queue := [] |} /\
    threads w = [Exited job_A; Exited job_B; Exited job_C].
Proof. eexists. split; [vm_compute; reflexivity|]. done. Qed.

(** ** Completion whatever the job does *)

(** C2.  Take a manager with a positive limit in any reachable state.
    For every thread [t] that is running the body of its job, and for
    either way [o] the body can end, the thread's next two steps are
    enabled: the outcome leaves the manager's attributes as they were (an
    [Exception] is printed by [_log] under the [__name__] of the job,
    which every job in a thread has), then [task_done] decrements
    [current_tasks] once.  If the counter was within the limit, the slot is
    free again: the next [add_task] of a callable with a [__name__] starts
    a thread at once and that thread enters its job.  And even if every job that has still to end raises
    [e], the threads alone can bring the manager to rest, with the counter
    at 0 and every job that was submitted started. *)
Theorem C2_job_outcome_frees_slot (c : cls) (K : Z) (sched : list action)
    (w : World) :
  0 < K ->
  run c K sched = Some w ->
  (forall t task o, threads w !! t = Some (InBody task) ->
     exists w1 w2,
       exec c w (BodyEnds t o) = Some w1 /\
       exec c w1 (TaskDone t) = Some w2 /\
       self w1 = self w /\
       (forall e, o = Raises e -> isinstance_Exception e = true ->
          exists name,
            func task = Function name /\
            Printed (ErrorWhileExecuting name (exn_str e)) ∈ trace w1) /\
       current_tasks (self w2) = current_tasks (self w) - 1 /\
       queue (self w2) = queue (self w) /\
       times_decremented t w2 = 1%nat /\
       invariant K w2 /\
       (current_tasks (self w) <= K ->
        forall next, named next = true -> exists w3 w4,
          exec c w2 (Submit next) = Some w3 /\
          exec c w3 (RunTaskEnter (length (threads w))) = Some w4 /\
          threads w3 = threads w2 ++ [Created next] /\
          threads w4 !! length (threads w) = Some (InBody next))) /\
  (forall e, exists sched' w',
     Forall (step_of_thread (Raises e)) sched' /\
     run c K (sched ++ sched') = Some w' /\
     quiescent w' /\
     current_tasks (self w') = 0 /\
     dispatched w' ≡ₚ submitted sched).
Proof.
  intros HK Hrun. split.
  - intros t task o Hth.
    assert (Hlt : (t < length (threads w))%nat) by by eapply lookup_lt_Some.
    destruct (body_ends_enabled c _ _ _ o Hth) as (w1 & E1 & S1 & T1 & R1).
    assert (H1 : threads w1 !! t = Some (InFinally task))
      by (rewrite T1; by apply list_lookup_insert_eq).
    destruct (task_done_enabled c _ _ _ H1) as (w2 & E2 & C2 & M2 & Q2 & T2 & R2).
    assert (Hrun2 : run c K (sched ++ [BodyEnds t o; TaskDone t]) = Some w2).
    { eapply run_app; [done|]. cbn [exec_all]. by rewrite E1, E2. }
    pose proof (run_invariant _ _ _ _ Hrun2) as Hinv2.
    assert (Hlen2 : length (threads w2) = length (threads w))
      by (by rewrite T2, T1, !length_insert).
    exists w1, w2. split_and!; try done.
    + intros e -> He.
      destruct (run_thread_named _ _ _ _ _ _ Hrun Hth) as [name Hname].
      simpl in Hname. exists name. split; [done|].
      rewrite R1, He, Hname. rewrite elem_of_app, !elem_of_cons. auto.
    + by rewrite C2, S1.
    + by rewrite Q2, S1.
    + destruct (run_thread_invariant _ _ _ _ Hrun2 t) as [_ ->].
      rewrite T2. unfold flag. rewrite list_lookup_insert_eq; [done|].
      by rewrite T1, length_insert.
    + intros Hcap next Hnamed.
      destruct (submit_enabled c w2 next Hnamed)
        as (w3 & E3 & C3 & M3 & [(_ & T3 & Q3)|(Hfull & _)]); cycle 1.
      { rewrite (inv_max _ _ Hinv2), C2, S1 in Hfull. lia. }
      assert (H3 : threads w3 !! length (threads w) = Some (Created next)).
      { rewrite T3, <- Hlen2. by apply list_lookup_middle. }
      destruct (enter_enabled c _ _ _ H3) as (w4 & E4 & _ & _ & _ & T4).
      exists w3, w4. split_and!; try done.
      * cbn [exec]. by rewrite E3.
      * rewrite T4. apply list_lookup_insert_eq.
        rewrite T3, length_app, Hlen2. simpl. lia.
  - intros e.
    destruct (can_drain c K (Raises e) HK (backlog w) sched w)
      as (sched' & w' & Hsteps & Hsub & Hrun' & Hq); [lia | done |].
    destruct (quiescent_run _ _ _ _ Hrun' Hq) as (Hcur & Hdisp & _).
    exists sched', w'. split_and!; try done.
    by rewrite Hdisp, submitted_app, (submitted_no_submit _ Hsub), app_nil_r.
Qed.

Lemma C2_job_outcome_frees_slot_witness :
  exists w,
    run C_TaskManager 1 [Submit job_A; RunTaskEnter 0; Submit job_B] = Some w /\
    threads w = [InBody job_A] /\
    queue (self w) = [job_B] /\
    exists sched' w',
      Forall (step_of_thread (Raises boom)) sched' /\
      run C_TaskManager 1 ([Submit job_A; RunTaskEnter 0; Submit job_B] ++ sched')
        = Some w' /\
      quiescent w' /\
      current_tasks (self w') = 0 /\
      dispatched w' ≡ₚ [job_A; job_B].
Proof.
  eexists. split; [vm_compute; reflexivity|].
  split; [reflexivity|]. split; [reflexivity|].
  assert (HK : 0 < 1) by lia.
  exact (proj2 (C2_job_outcome_frees_slot C_TaskManager 1
                  [Submit job_A; RunTaskEnter 0; Submit job_B] _ HK eq_refl)
           boom).
Defined.

(** ** What the two halves of a completion do *)


Lemma check_queue_step (c : cls) (w w' : World) (t : nat) :
  exec c w (CheckQueue t) = Some w' ->
  exists task,
    threads w !! t = Some (AfterDecrement task) /\
    ((current_tasks (self w) < max_concurrent_tasks (self w) /\
      exists k q,
        queue (self w) = k :: q /\
        w' = {| self := {| max_concurrent_tasks := max_concurrent_tasks (self w);
                           current_tasks := current_tasks (self w);
                           queue := q |};
                threads := <[t := Exited task]> (threads w ++ [Created k]);
                trace := trace w ++
                         [Call C_TaskManager m_check_queue; QGetNowait (Some k);
                          Call C_TaskManager m_execute_task;
                          ThreadStart (length (threads w)) k] |}) \/
     (current_tasks (self w) < max_concurrent_tasks (self w) /\
      queue (self w) = [] /\
      w' = {| self := self w;
              threads := <[t := Exited task]> (threads w);
              trace := trace w ++
                       [Call C_TaskManager m_check_queue; QGetNowait None] |}) \/
     (max_concurrent_tasks (self w) <= current_tasks (self w) /\
      w' = {| self := self w;
              threads := <[t := Exited task]> (threads w);
              trace := trace w ++ [Call C_TaskManager m_check_queue] |})).
Proof.
  intros H. simpl in H.
  destruct (threads w !! t) as [[| | |task|]|] eqn:Hth; try done.
  exists task. split; [done|]. run_methods. simpl in H.
  destruct (Z.ltb_spec (current_tasks (self w)) (max_concurrent_tasks (self w)))
    as [Hlt|Hge]; [destruct (queue (self w)) as [|k q] eqn:Hq|];
    run_methods; simpl in H; injection H as <-;
    unfold set_thread, emit, set_queue; simpl; rewrite <- ?app_assoc; simpl.
  - right; left. done.
  - left. split; [done|]. by exists k, q.
  - right; right. done.
Qed.




(** ** Construction *)





(** ** Order of admission from the queue *)

(** C5.  Over any run the jobs put on the queue are the jobs taken from
    it followed by the jobs still in it, in that order: the i-th job taken
    is the i-th job put.  So when the b-th job put has been taken, every
    a-th job put with [a < b] was taken, as the a-th.  Every drain that
    takes a job takes the head and starts it in the same step. *)
Theorem C5_queue_is_fifo (c : cls) (K : Z) (sched : list action) (w : World) :
  run c K sched = Some w ->
  enqueued (trace w) = dequeued (trace w) ++ queue (self w) /\
  (forall i j, dequeued (trace w) !! i = Some j ->
               enqueued (trace w) !! i = Some j) /\
  (forall a b ja jb, (a < b)%nat ->
     enqueued (trace w) !! a = Some ja ->
     enqueued (trace w) !! b = Some jb ->
     dequeued (trace w) !! b = Some jb ->
     dequeued (trace w) !! a = Some ja) /\
  (forall t w', exec c w (CheckQueue t) = Some w' ->
     (dequeued (trace w') = dequeued (trace w) /\
      queue (self w') = queue (self w) /\
      dispatched w' = dispatched w) \/
     (exists k, queue (self w) = k :: queue (self w') /\
                dequeued (trace w') = dequeued (trace w) ++ [k] /\
                dispatched w' = dispatched w ++ [k])).
Proof.
  intros Hrun. pose proof (inv_fifo _ _ (run_invariant _ _ _ _ Hrun)) as Hfifo.
  split_and!.
  - done.
  - intros i j Hi. rewrite Hfifo. by apply lookup_app_l_Some.
  - intros a b ja jb Hab Ha Hb Hdb.
    assert (Hlt : (a < length (dequeued (trace w)))%nat).
    { apply lookup_lt_Some in Hdb. lia. }
    rewrite Hfifo, lookup_app_l in Ha by done. done.
  - intros t w' H.
    destruct (check_queue_step _ _ _ _ H)
      as (task & Hth & [(Hlt & k & q & Hq & ->)|[(Hlt & Hq & ->)|(Hge & ->)]]);
      unfold dispatched, dequeued; simpl; rewrite ?omap_app; simpl.
    + right. exists k. split_and!; try done.
      rewrite insert_app_l by (by eapply lookup_lt_Some).
      rewrite fmap_app. f_equal. by eapply dispatched_insert.
    + left. rewrite app_nil_r. split_and!; try done. by eapply dispatched_insert.
    + left. rewrite app_nil_r. split_and!; try done. by eapply dispatched_insert.
Qed.

Lemma C5_queue_is_fifo_witness :
  exists w,
    run C_TaskManager 1
      [Submit job_A; RunTaskEnter 0; Submit job_B; Submit job_C;
       BodyEnds 0 Returns; TaskDone 0; CheckQueue 0] = Some w /\
    enqueued (trace w) = [job_B; job_C] /\
    dequeued (trace w) = [job_B] /\
    queue (self w) = [job_C] /\
    enqueued (trace w) = dequeued (trace w) ++ queue (self w).
Proof.
  eexists. split; [vm_compute; reflexivity|].
  split; [reflexivity|]. split; [reflexivity|]. split; [reflexivity|].
  apply (C5_queue_is_fifo C_TaskManager 1
           [Submit job_A; RunTaskEnter 0; Submit job_B; Submit job_C;
            BodyEnds 0 Returns; TaskDone 0; CheckQueue 0]).
  reflexivity.
Defined.

(** ** Completion accounting *)

(** C6.  In every reachable state each thread has incremented the counter
    at most once and decremented it at most once, and never decremented
    before incrementing; a thread that is past [task_done] has done each
    exactly once.  Every existing thread can be brought to its end by its
    own four steps, whatever way its job ends, and has then decremented
    exactly once.  The totals satisfy decrements <= increments <=
    admissions, and when every started thread is past [task_done] the three
    totals are equal.  With a positive limit the threads alone can always
    bring the manager to rest, whatever way the jobs end, and the three
    totals then equal the number of jobs submitted. *)
Theorem C6_completion_counted_once (c : cls) (K : Z) (sched : list action)
    (w : World) :
  run c K sched = Some w ->
  (forall t, (times_decremented t w <= times_incremented t w <= 1)%nat) /\
  (forall t th, threads w !! t = Some th -> completed th = true ->
     times_incremented t w = 1%nat /\ times_decremented t w = 1%nat) /\
  (forall t th o, threads w !! t = Some th ->
     exists sched' w',
       suffix sched' [RunTaskEnter t; BodyEnds t o; TaskDone t; CheckQueue t] /\
       run c K (sched ++ sched') = Some w' /\
       threads w' !! t = Some (Exited (thread_task th)) /\
       times_incremented t w' = 1%nat /\
       times_decremented t w' = 1%nat) /\
  (total_decrements w <= total_increments w <= total_admissions w)%nat /\
  ((forall th, th ∈ threads w -> completed th = true) ->
   total_decrements w = total_admissions w /\
   total_increments w = total_admissions w) /\
  (0 < K -> forall o, exists sched' w',
     Forall (step_of_thread o) sched' /\
     run c K (sched ++ sched') = Some w' /\
     quiescent w' /\
     total_decrements w' = total_admissions w' /\
     total_increments w' = total_admissions w' /\
     total_admissions w' = length (submitted sched)).
Proof.
  intros Hrun.
  pose proof (run_invariant _ _ _ _ Hrun) as [_ _ Hincr Hdecr Hadm _].
  pose proof (run_thread_invariant _ _ _ _ Hrun) as Hthr.
  split_and!.
  - intros t. destruct (Hthr t) as [-> ->]. unfold flag.
    destruct (threads w !! t) as [[]|]; simpl; lia.
  - intros t th Hth Hdone. destruct (Hthr t) as [-> ->].
    rewrite !(flag_here _ _ _ _ Hth), Hdone, (completed_started _ Hdone). done.
  - intros t th o Hth.
    destruct (thread_can_exit c w t th o Hth) as (sched' & w' & Hsuf & E & Hexit).
    exists sched', w'. pose proof (run_app _ _ _ _ _ _ Hrun E) as Hrun'.
    destruct (run_thread_invariant _ _ _ _ Hrun' t) as [-> ->].
    by rewrite !(flag_here _ _ _ _ Hexit).
  - rewrite Hdecr, Hincr. apply count_mono, completed_started.
  - rewrite Hincr, Hadm. apply count_le_length.
  - intros Hall. rewrite Hdecr, Hincr, Hadm.
    rewrite !count_all; auto using completed_started.
  - intros HK o.
    destruct (can_drain c K o HK (backlog w) sched w)
      as (sched' & w' & Hsteps & Hsub & Hrun' & Hq); [lia | done |].
    destruct (quiescent_run _ _ _ _ Hrun' Hq) as (_ & Hdisp & Hd & Hi).
    exists sched', w'. split_and!; try done.
    rewrite (inv_admit _ _ (run_invariant _ _ _ _ Hrun')).
    apply Permutation_length in Hdisp. unfold dispatched in Hdisp.
    rewrite length_fmap in Hdisp. rewrite Hdisp.
    by rewrite submitted_app, (submitted_no_submit _ Hsub), app_nil_r.
Qed.

Lemma C6_completion_counted_once_witness :
  exists w,
    run C_TaskManager 1
      [Submit job_A; RunTaskEnter 0; Submit job_B; BodyEnds 0 (Raises boom);
       TaskDone 0; CheckQueue 0; RunTaskEnter 1; BodyEnds 1 Returns;
       TaskDone 1; CheckQueue 1] = Some w /\
    (forall th, th ∈ threads w -> completed th = true) /\
    total_admissions w = 2%nat /\
    total_decrements w = total_admissions w /\
    total_increments w = total_admissions w.
Proof.
  eexists. split; [vm_compute; reflexivity|].
  assert (Hall : forall th, th ∈ [Exited job_A; Exited job_B] -> completed th = true).
  { intros th. rewrite !elem_of_cons, elem_of_nil. by intros [->|[->|[]]]. }
  split; [exact Hall|]. split; [reflexivity|].
  apply (C6_completion_counted_once C_TaskManager 1
           [Submit job_A; RunTaskEnter 0; Submit job_B; BodyEnds 0 (Raises boom);
            TaskDone 0; CheckQueue 0; RunTaskEnter 1; BodyEnds 1 Returns;
            TaskDone 1; CheckQueue 1]); [reflexivity | exact Hall].
Defined.

(** ** Submission and draining as functions *)

(** C7.  [add_task] waits for no slot, but it does not take every job.
    In every state, reachable or not, the call ends at once.  For a
    callable with a [__name__] it returns: the counter and the limit are as
    before, and either there was room and one thread was started for the
    job with the queue untouched, or there was none and the job is the new
    last element of the queue with no thread started.  For a callable
    without a [__name__] (a [functools.partial], an object with
    [__call__]) the f-string of line 39 or 44 raises [AttributeError]
    before the job is started or queued: the job is neither dispatched nor
    enqueued, although the docstring of [add_task] promises one of the two
    for any [Callable]. *)
Theorem C7_add_task_raises_for_callable_without_name (c : cls)
    (task : task_info) (w : World) :
  match func task with
  | Function _ =>
      exists w',
        add_task c task w = Ok w' /\
        exec c w (Submit task) = Some w' /\
        current_tasks (self w') = current_tasks (self w) /\
        max_concurrent_tasks (self w') = max_concurrent_tasks (self w) /\
        ((current_tasks (self w) < max_concurrent_tasks (self w) /\
          threads w' = threads w ++ [Created task] /\
          queue (self w') = queue (self w)) \/
         (max_concurrent_tasks (self w) <= current_tasks (self w) /\
          threads w' = threads w /\
          queue (self w') = queue (self w) ++ [task]))
  | CallableObject type_name =>
      add_task c task w =
        Raise (Exn AttributeError
                 ("'" +:+ type_name +:+ "' object has no attribute '__name__'")) /\
      exec c w (Submit task) = None
  end.
Proof.
  destruct (func task) as [name|type_name] eqn:Hfunc.
  - destruct (submit_enabled c w task) as (w' & E & Hc & Hm & Hcases);
      [unfold named; by rewrite Hfunc|].
    exists w'. split_and!; try done. cbn [exec]. by rewrite E.
  - assert (E : add_task c task w =
                Raise (Exn AttributeError
                         ("'" +:+ type_name +:+
                          "' object has no attribute '__name__'"))).
    { run_methods. rewrite Hfunc. by destruct (_ <? _). }
    split; [done|]. cbn [exec]. by rewrite E.
Qed.

(** On a new manager with room for one job, a [functools.partial] is
    refused with the interpreter's message and no run goes through it. *)
Example add_task_partial :
  (exists w, __init__ C_TaskManager 1 = Ok w /\
     add_task C_TaskManager job_partial w =
       Raise (Exn AttributeError
                "'functools.partial' object has no attribute '__name__'")) /\
  run C_TaskManager 1 [Submit job_partial] = None /\
  run C_TaskManager 0 [Submit job_partial] = None.
Proof. split; [eexists; split; [apply init_world|]|]; done. Qed.

(** C8.  With an empty queue [check_queue] returns without raising and
    leaves the manager's attributes and the set of threads as they were,
    whether or not there is room; as the last step of a thread it only
    ends that thread. *)
Theorem C8_check_queue_empty_is_noop (c : cls) (w : World) :
  queue (self w) = [] ->
  (exists w', check_queue c w = Ok w' /\
              self w' = self w /\
              threads w' = threads w) /\
  (forall t task, threads w !! t = Some (AfterDecrement task) ->
     exists w', exec c w (CheckQueue t) = Some w' /\
                self w' = self w /\
                threads w' = <[t := Exited task]> (threads w) /\
                dispatched w' = dispatched w).
Proof.
  intros Hq.
  assert (Hcq : exists w', check_queue c w = Ok w' /\ self w' = self w /\
                           threads w' = threads w).
  { run_methods. simpl. rewrite Hq.
    destruct (_ <? _); simpl; eexists; (split; [done|]); done. }
  split; [done|]. intros t task Hth.
  destruct Hcq as (w' & E & Hs & Ht).
  exists (set_thread t (Exited task) w'). cbn [exec]. rewrite Hth, E. simpl.
  split_and!; try done.
  - by rewrite Ht.
  - unfold dispatched. simpl. rewrite Ht. by eapply dispatched_insert.
Qed.

Lemma C8_check_queue_empty_is_noop_witness :
  exists w,
    run C_TaskManager 1
      [Submit job_A; RunTaskEnter 0; BodyEnds 0 Returns; TaskDone 0] = Some w /\
    queue (self w) = [] /\
    exists w', check_queue C_TaskManager w = Ok w' /\
               self w' = self w /\
               threads w' = threads w.
Proof.
  eexists. split; [vm_compute; reflexivity|]. split; [reflexivity|].
  apply C8_check_queue_empty_is_noop. reflexivity.
Defined.

(** ** The subclass *)

Lemma exec_subclass (w : World) (a : action) :
  exec C_InMemoryTaskManager w a = exec C_TaskManager w a.
Proof. reflexivity. Qed.

Lemma exec_all_subclass (sched : list action) (w : World) :
  exec_all C_InMemoryTaskManager w sched = exec_all C_TaskManager w sched.
Proof.
  revert w. induction sched as [|a sched IH]; intros w; cbn [exec_all]; [done|].
  rewrite exec_subclass. destruct (exec C_TaskManager w a); [apply IH | done].
Qed.

Lemma exec_trace (c : cls) (w w' : World) (a : action) :
  exec c w a = Some w' ->
  Forall (fun e => subclass_only e = false) (trace w) ->
  Forall (fun e => subclass_only e = false) (trace w').
Proof.
  intros H Hall. step_cases H; simpl; rewrite ?Forall_app; repeat split;
    try done; by repeat constructor.
Qed.

(** C9.  For every limit and every schedule, the run of an
    [InMemoryTaskManager] is the run of a [TaskManager]: the same states,
    threads, printed lines and calls, step for step.  Every method of the
    base class resolves, on an [InMemoryTaskManager], to the base class's
    definition.  No run of either class ever calls [create_queue],
    [enqueue], [dequeue] or [is_queue_empty], or [get] or [empty] on the
    queue: the queue is reached through [put] and [get_nowait] only. *)
Theorem C9_subclass_runs_as_base (K : Z) (sched : list action) :
  run C_InMemoryTaskManager K sched = run C_TaskManager K sched /\
  (forall m, class_body C_TaskManager m = true ->
     resolve C_InMemoryTaskManager m = Some C_TaskManager) /\
  (forall m, class_body C_InMemoryTaskManager m = true ->
     resolve C_TaskManager m = None) /\
  (forall c w, run c K sched = Some w ->
     Forall (fun e => subclass_only e = false) (trace w)).
Proof.
  split_and!.
  - unfold run. rewrite !init_world. simpl. apply exec_all_subclass.
  - intros m. apply resolve_inherited.
  - by intros [].
  - intros c. revert sched. apply run_ind.
    + intros w. rewrite init_world. intros [= <-]. by repeat constructor.
    + intros w a w' Hall H. by eapply exec_trace.
Qed.

Lemma C9_subclass_runs_as_base_witness :
  exists w,
    run C_InMemoryTaskManager 1
      [Submit job_A; RunTaskEnter 0; Submit job_B; BodyEnds 0 Returns;
       TaskDone 0; CheckQueue 0] = Some w /\
    run C_TaskManager 1
      [Submit job_A; RunTaskEnter 0; Submit job_B; BodyEnds 0 Returns;
       TaskDone 0; CheckQueue 0] = Some w /\
    Forall (fun e => subclass_only e = false) (trace w).
Proof.
  eexists. split; [vm_compute; reflexivity|]. split; [vm_compute; reflexivity|].
  eapply (C9_subclass_runs_as_base 1
            [Submit job_A; RunTaskEnter 0; Submit job_B; BodyEnds 0 Returns;
             TaskDone 0; CheckQueue 0]) with (c := C_InMemoryTaskManager).
  reflexivity.
Defined.

Lemma subclass_methods_only_on_subclass (task : task_info) (w : World) :
  enqueue C_InMemoryTaskManager task w =
    Ok (Queue_put task (emit (Call C_InMemoryTaskManager m_enqueue) w)) /\
  enqueue C_TaskManager task w =
    Raise (Exn AttributeError "'TaskManager' object has no attribute 'enqueue'") /\
  subclass_only (Call C_InMemoryTaskManager m_enqueue) = true.
Proof. done. Qed.

(** ** generate_terms on a failed provider call *)

Lemma prefix_append (s x : string) : String.prefix s (s +:+ x) = true.
Proof.
  induction s as [|a s IH]; simpl; [by destruct x|].
  destruct (ascii_dec a a); [done | congruence].
Qed.

Lemma contains_prefix (s x : string) : contains s (s +:+ x) = true.
Proof.
  assert (Hunfold : forall y, String.prefix s y = true -> contains s y = true).
  { intros [|a y] H; simpl in *; by rewrite H. }
  apply Hunfold, prefix_append.
Qed.

Section generate_terms_error.

Variable settings : Settings.
Variable chat_completions_create :
  forall (n : nat) (api_key base_url model_name prompt : string), result chat_response.
Variable genai_GenerativeModel :
  forall (n : nat) (api_key model_name : string), result unit.
Variable generate_content_text :
  forall (n : nat) (model_name prompt : string), result string.
Variable unbound_local_message : string.
Variable json_loads : string -> result pyvalue.
Variable re_search_brackets : string -> option string.
Variable GEN_VIDEO_TERM_format : Z -> string -> string -> string.

Local Abbreviation response_try :=
  (_generate_response_try settings chat_completions_create
     genai_GenerativeModel generate_content_text unbound_local_message).
Local Abbreviation response :=
  (_generate_response settings chat_completions_create
     genai_GenerativeModel generate_content_text unbound_local_message).
Local Abbreviation iteration :=
  (generate_terms_iteration settings chat_completions_create
     genai_GenerativeModel generate_content_text unbound_local_message
     json_loads re_search_brackets).
Local Abbreviation terms :=
  (generate_terms settings chat_completions_create
     genai_GenerativeModel generate_content_text unbound_local_message
     json_loads re_search_brackets GEN_VIDEO_TERM_format).

Local Abbreviation loop :=
  (generate_terms_loop settings chat_completions_create
     genai_GenerativeModel generate_content_text unbound_local_message
     json_loads re_search_brackets).
Local Abbreviation pass :=
  (generate_terms_pass settings chat_completions_create
     genai_GenerativeModel generate_content_text unbound_local_message
     json_loads re_search_brackets).

(** A pass that gets the error string returns it, whatever the loop
    holds. *)
Lemma iteration_returns_error (i : nat) (prompt : string) (e : exn) :
  response_try i prompt = Raise e ->
  isinstance_Exception e = true ->
  response i prompt = Ok ("Error: " +:+ exn_str e) /\
  forall search_terms previous,
    iteration i prompt search_terms previous
    = Return (PStr ("Error: " +:+ exn_str e)).
Proof.
  intros Htry He.
  assert (Hresp : response i prompt = Ok ("Error: " +:+ exn_str e))
    by (unfold _generate_response; by rewrite Htry, He).
  split; [done|]. intros search_terms previous.
  unfold generate_terms_iteration. by rewrite Hresp, contains_prefix.
Qed.

(** The loop returns what pass [k] returns, when it gets that far. *)
Lemma loop_returns_at_pass (prompt : string) (v : pyvalue) (k : nat) :
  forall n retries search_terms previous state,
    (k < retries)%nat ->
    pass n k prompt search_terms previous = Some state ->
    iteration (n + k) prompt (fst state) (snd state) = Return v ->
    loop n retries prompt search_terms previous = Ok v.
Proof.
  induction k as [|k IH]; intros n [|retries] search_terms previous state Hk;
    try lia; cbn [generate_terms_pass generate_terms_loop].
  - intros [= <-]. rewrite Nat.add_0_r. simpl. by intros ->.
  - destruct (iteration n prompt search_terms previous); try done.
    intros Hpass Hret. eapply IH; [|exact Hpass|]; [lia|].
    by replace (S n + k)%nat with (n + S k)%nat by lia.
Qed.

(** C10.  When the [try] block of [_generate_response] raises an
    [Exception] [e], [_generate_response] returns the string
    ["Error: " + str(e)].  Any pass of the retry loop that gets it
    returns that string at once, and so does [generate_terms], in
    whichever of its five passes the call to the provider fails in this
    way: the result is a string, not a list of strings. *)
Theorem C10_generate_terms_returns_error_string (n k : nat)
    (video_subject video_script : string) (amount : Z) (e : exn)
    (state : pyvalue * string) :
  (k < 5)%nat ->
  pass n k (GEN_VIDEO_TERM_format amount video_subject video_script)
    (PList []) EmptyString = Some state ->
  response_try (n + k) (GEN_VIDEO_TERM_format amount video_subject video_script)
    = Raise e ->
  isinstance_Exception e = true ->
  response (n + k) (GEN_VIDEO_TERM_format amount video_subject video_script)
    = Ok ("Error: " +:+ exn_str e) /\
  contains "Error: " ("Error: " +:+ exn_str e) = true /\
  (forall search_terms previous,
     iteration (n + k) (GEN_VIDEO_TERM_format amount video_subject video_script)
       search_terms previous
     = Return (PStr ("Error: " +:+ exn_str e))) /\
  terms n video_subject video_script amount
    = Ok (PStr ("Error: " +:+ exn_str e)) /\
  is_list_of_str (PStr ("Error: " +:+ exn_str e)) = false.
Proof.
  intros Hk Hpass Htry He.
  destruct (iteration_returns_error _ _ _ Htry He) as [Hresp Hiter].
  split_and!; try done.
  - apply contains_prefix.
  - unfold generate_terms, _max_retries.
    by apply (loop_returns_at_pass _ _ k n 5 _ _ state).
Qed.

End generate_terms_error.

Lemma C10_generate_terms_returns_error_string_witness :
  generate_terms openai_settings
    (fun n _ _ _ _ =>
       match n with
       | O => Ok (ChatCompletion [Some "{}"])
       | _ => Ok NoResponse
       end)
    (fun _ _ _ => Ok tt) (fun _ _ _ => Ok EmptyString) EmptyString
    (fun s => if String.eqb s "{}" then Ok (PDict [])
              else Raise (Exn JSONDecodeError
                            "Expecting value: line 1 column 1 (char 0)"))
    (fun _ => None) (fun _ subject _ => subject)
    0 "cats" "a script" 5
  = Ok (PStr "Error: [openai] returned an empty response, please check your network connection and try again.").
Proof.
  refine (proj1 (proj2 (proj2 (proj2
    (C10_generate_terms_returns_error_string openai_settings
       (fun n _ _ _ _ =>
          match n with
          | O => Ok (ChatCompletion [Some "{}"])
          | _ => Ok NoResponse
          end)
       (fun _ _ _ => Ok tt) (fun _ _ _ => Ok EmptyString) EmptyString
       (fun s => if String.eqb s "{}" then Ok (PDict [])
                 else Raise (Exn JSONDecodeError
                               "Expecting value: line 1 column 1 (char 0)"))
       (fun _ => None) (fun _ subject _ => subject)
       0 1 "cats" "a script" 5
       (Exn Exception "[openai] returned an empty response, please check your network connection and try again.")
       (PDict [], "{}") _ _ _ _))))).
  - lia.
  - reflexivity.
  - reflexivity.
  - reflexivity.
Defined.

(** * Further properties *)

(** ** The manager's counter *)

(** X1.  In every reachable state [current_tasks] is the number of
    threads that have run [self.current_tasks += 1] and not yet
    [self.current_tasks -= 1]; so it is never negative and never above the
    number of threads started, and the limit is the one given at
    construction. *)
Theorem X1_counter_counts_threads_in_flight (c : cls) (K : Z)
    (sched : list action) (w : World) :
  run c K sched = Some w ->
  current_tasks (self w) = Z.of_nat (count in_flight (threads w)) /\
  0 <= current_tasks (self w) <= Z.of_nat (total_admissions w) /\
  max_concurrent_tasks (self w) = K.
Proof.
  intros Hrun.
  pose proof (run_invariant _ _ _ _ Hrun) as [Hmax Hcur _ _ Hadm _].
  pose proof (count_le_length in_flight (threads w)).
  split_and!; try done; lia.
Qed.

Lemma X1_counter_counts_threads_in_flight_witness :
  exists w,
    run C_TaskManager 1 [Submit job_A; Submit job_B; RunTaskEnter 1] = Some w /\
    threads w = [Created job_A; InBody job_B] /\
    current_tasks (self w) = Z.of_nat (count in_flight (threads w)) /\
    0 <= current_tasks (self w) <= Z.of_nat (total_admissions w) /\
    max_concurrent_tasks (self w) = 1.
Proof.
  eexists. split; [vm_compute; reflexivity|]. split; [reflexivity|].
  apply (X1_counter_counts_threads_in_flight C_TaskManager 1
           [Submit job_A; Submit job_B; RunTaskEnter 1]).
  reflexivity.
Defined.

(** X2.  A step starts at most one thread.  A thread is started only by
    [add_task] or [check_queue], and only when the counter read in that
    critical section is below the limit; a job is put on the queue only by
    [add_task], and only when the counter is at or above the limit. *)
Theorem X2_admission_reads_counter (c : cls) (w w' : World) (a : action) :
  exec c w a = Some w' ->
  (length (threads w') <= S (length (threads w)))%nat /\
  (length (threads w') = S (length (threads w)) ->
     tests_capacity a = true /\
     current_tasks (self w) < max_concurrent_tasks (self w)) /\
  (length (queue (self w')) = S (length (queue (self w))) ->
     is_submit a = true /\
     max_concurrent_tasks (self w) <= current_tasks (self w) /\
     length (threads w') = length (threads w)).
Proof.
  intros H.
  step_cases H; simpl; rewrite ?length_insert, ?length_app, ?Hqueue; simpl;
    split_and!; intros; try done; try lia.
Qed.

Lemma X2_admission_reads_counter_witness :
  exists w w',
    run C_TaskManager 1 [Submit job_A; RunTaskEnter 0] = Some w /\
    exec C_TaskManager w (Submit job_B) = Some w' /\
    length (queue (self w')) = S (length (queue (self w))) /\
    max_concurrent_tasks (self w) <= current_tasks (self w) /\
    length (threads w') = length (threads w).
Proof.
  eexists _, _. split; [vm_compute; reflexivity|].
  split; [vm_compute; reflexivity|]. split; [reflexivity|].
  refine (proj2 (proj2 (proj2 (X2_admission_reads_counter C_TaskManager _ _
                                 (Submit job_B) _)) _)); reflexivity.
Defined.

(** X3.  With a positive limit no job is stranded: in every reachable
    state with a job in the queue, some thread has not yet made its
    [check_queue]. *)
Theorem X3_queued_job_has_a_runner (c : cls) (K : Z) (sched : list action)
    (w : World) :
  0 < K ->
  run c K sched = Some w ->
  queue (self w) <> [] ->
  exists t th, threads w !! t = Some th /\ unfinished th = true.
Proof.
  intros HK Hrun Hq.
  destruct (run_queue_has_runner _ _ _ _ HK Hrun) as [Hnil|Hpos]; [done|].
  by apply count_pos_lookup.
Qed.

Lemma X3_queued_job_has_a_runner_witness :
  exists w,
    run C_TaskManager 1 [Submit job_A; Submit job_B; RunTaskEnter 0;
                         RunTaskEnter 1; Submit job_C] = Some w /\
    queue (self w) = [job_C] /\
    exists t th, threads w !! t = Some th /\ unfinished th = true.
Proof.
  eexists. split; [vm_compute; reflexivity|]. split; [reflexivity|].
  apply (X3_queued_job_has_a_runner C_TaskManager 1
           [Submit job_A; Submit job_B; RunTaskEnter 0; RunTaskEnter 1;
            Submit job_C]); [lia | reflexivity | discriminate].
Defined.

(** ** When the limit is kept *)

Lemma exec_prompt (c : cls) (w w' : World) (a : action) :
  (negb (tests_capacity a) || Nat.eqb (pending w) 0) = true ->
  0 <= max_concurrent_tasks (self w) ->
  current_tasks (self w) + Z.of_nat (pending w) <= max_concurrent_tasks (self w) ->
  exec c w a = Some w' ->
  max_concurrent_tasks (self w') = max_concurrent_tasks (self w) /\
  current_tasks (self w') + Z.of_nat (pending w') <= max_concurrent_tasks (self w').
Proof.
  intros Htest HK Hinv H. unfold pending in *.
  step_cases H; simpl in *;
    rewrite ?insert_app_l by (eapply lookup_lt_Some; eassumption);
    rewrite ?count_app; simpl;
    try (apply Nat.eqb_eq in Htest);
    repeat match goal with
      | |- context [count ?p (<[?i := ?y]> ?l)] =>
          pose proof (count_insert p l i _ y Hth);
          generalize dependent (count p (<[i := y]> l)); intros
      end;
    simpl in *; split; (done || lia).
Qed.

Lemma exec_all_prompt (c : cls) (sched : list action) (w w' : World) :
  tests_after_increments c w sched = true ->
  0 <= max_concurrent_tasks (self w) ->
  current_tasks (self w) + Z.of_nat (pending w) <= max_concurrent_tasks (self w) ->
  exec_all c w sched = Some w' ->
  max_concurrent_tasks (self w') = max_concurrent_tasks (self w) /\
  current_tasks (self w') + Z.of_nat (pending w') <= max_concurrent_tasks (self w').
Proof.
  revert w. induction sched as [|a sched IH]; intros w Hp HK Hinv;
    cbn [exec_all tests_after_increments] in *.
  - by intros [= <-].
  - destruct (exec c w a) as [w1|] eqn:E; [|done]. intros H.
    apply andb_prop in Hp as [Ha Hp].
    destruct (exec_prompt _ _ _ _ Ha HK Hinv E) as [Hm1 Hinv1].
    destruct (IH w1 Hp) as [Hm Hi]; [lia | done | done |].
    split; [congruence | lia].
Qed.

(** X4.  The limit is kept whenever each new thread reaches its increment
    before the counter is next read for admission: in a run where every
    [add_task] and every [check_queue] happens while no started thread is
    still waiting to run line 73, the counter plus the threads waiting to
    increment never exceeds a non-negative limit, so [current_tasks] stays
    between 0 and the limit. *)
Theorem X4_limit_kept_when_threads_start_promptly (c : cls) (K : Z)
    (sched : list action) (w : World) :
  0 <= K ->
  prompt_run c K sched = true ->
  run c K sched = Some w ->
  current_tasks (self w) + Z.of_nat (pending w) <= K /\
  0 <= current_tasks (self w) <= K.
Proof.
  intros HK Hp Hrun.
  pose proof (run_invariant _ _ _ _ Hrun) as [_ Hcur _ _ _ _].
  unfold run, prompt_run in *. rewrite init_world in *. simpl in *.
  apply exec_all_prompt in Hrun as [Hm Hle]; simpl in *; try done; lia.
Qed.

Lemma X4_limit_kept_when_threads_start_promptly_witness :
  exists w,
    run C_TaskManager 1
      [Submit job_A; RunTaskEnter 0; Submit job_B; BodyEnds 0 Returns;
       TaskDone 0; CheckQueue 0; RunTaskEnter 1; Submit job_C] = Some w /\
    current_tasks (self w) + Z.of_nat (pending w) <= 1 /\
    0 <= current_tasks (self w) <= 1.
Proof.
  eexists. split; [vm_compute; reflexivity|].
  apply (X4_limit_kept_when_threads_start_promptly C_TaskManager 1
           [Submit job_A; RunTaskEnter 0; Submit job_B; BodyEnds 0 Returns;
            TaskDone 0; CheckQueue 0; RunTaskEnter 1; Submit job_C]);
    [lia | reflexivity | reflexivity].
Defined.

(** ** The queue methods of the subclass *)

Lemma enqueue_all_spec (tasks : list task_info) (w : World) :
  exists w', enqueue_all C_InMemoryTaskManager tasks w = Ok w' /\
    queue (self w') = queue (self w) ++ tasks /\
    current_tasks (self w') = current_tasks (self w) /\
    max_concurrent_tasks (self w') = max_concurrent_tasks (self w) /\
    threads w' = threads w.
Proof.
  revert w. induction tasks as [|k ks IH]; intros w; cbn [enqueue_all].
  - exists w. by rewrite app_nil_r.
  - unfold enqueue, invoke_subclass. simpl.
    destruct (IH (Queue_put k (emit (Call C_InMemoryTaskManager m_enqueue) w)))
      as (w' & E & Hq & Hc & Hm & Ht).
    exists w'. split; [done|]. simpl in *.
    rewrite Hq, <- app_assoc. done.
Qed.

Lemma dequeue_upto_spec (n : nat) (w : World) :
  exists w', dequeue_upto C_InMemoryTaskManager n w =
               Ok (take n (queue (self w)), w') /\
    queue (self w') = drop n (queue (self w)) /\
    current_tasks (self w') = current_tasks (self w) /\
    max_concurrent_tasks (self w') = max_concurrent_tasks (self w) /\
    threads w' = threads w.
Proof.
  revert w. induction n as [|n IH]; intros w; cbn [dequeue_upto].
  - by exists w.
  - unfold dequeue, invoke_subclass. simpl.
    destruct (queue (self w)) as [|k q] eqn:Hq; simpl.
    + exists w. by rewrite Hq.
    + destruct (IH (emit (QGet k)
                      (set_queue q (emit (Call C_InMemoryTaskManager m_dequeue) w))))
        as (w' & E & Hq' & Hc & Hm & Ht).
      rewrite E. simpl in *. by exists w'.
Qed.

(** X5.  On an [InMemoryTaskManager], [enqueue] and [dequeue] are a
    first-in first-out pair that leaves the counter, the limit and the
    threads alone: after any jobs are enqueued, as many [dequeue] calls as
    the queue is long return the jobs that were queued before followed by
    the new ones, in order, and leave the queue empty; [is_queue_empty]
    then answers [True] and one more [dequeue] waits.  On a plain
    [TaskManager] the methods [enqueue], [dequeue], [is_queue_empty] and
    [create_queue] do not exist: calling one is an [AttributeError] that
    names the class and the method. *)
Theorem X5_enqueue_dequeue_first_in_first_out (tasks : list task_info)
    (w : World) :
  exists w1 w2,
    enqueue_all C_InMemoryTaskManager tasks w = Ok w1 /\
    queue (self w1) = queue (self w) ++ tasks /\
    dequeue_upto C_InMemoryTaskManager (length (queue (self w) ++ tasks)) w1
      = Ok (queue (self w) ++ tasks, w2) /\
    queue (self w2) = [] /\
    fst <$> returned (is_queue_empty C_InMemoryTaskManager w2) = Some true /\
    dequeue C_InMemoryTaskManager w2 = Ok None /\
    current_tasks (self w2) = current_tasks (self w) /\
    max_concurrent_tasks (self w2) = max_concurrent_tasks (self w) /\
    threads w2 = threads w /\
    (forall task,
       enqueue C_TaskManager task w =
         Raise (Exn AttributeError
                  "'TaskManager' object has no attribute 'enqueue'")) /\
    dequeue C_TaskManager w =
      Raise (Exn AttributeError
               "'TaskManager' object has no attribute 'dequeue'") /\
    is_queue_empty C_TaskManager w =
      Raise (Exn AttributeError
               "'TaskManager' object has no attribute 'is_queue_empty'") /\
    create_queue C_TaskManager w =
      Raise (Exn AttributeError
               "'TaskManager' object has no attribute 'create_queue'").
Proof.
  destruct (enqueue_all_spec tasks w) as (w1 & E1 & Hq1 & Hc1 & Hm1 & Ht1).
  destruct (dequeue_upto_spec (length (queue (self w) ++ tasks)) w1)
    as (w2 & E2 & Hq2 & Hc2 & Hm2 & Ht2).
  rewrite Hq1 in E2, Hq2. rewrite take_ge in E2 by done.
  rewrite drop_ge in Hq2 by done.
  exists w1, w2. split_and!; try done; try congruence.
  - unfold is_queue_empty, invoke_subclass. simpl. by rewrite Hq2.
  - unfold dequeue, invoke_subclass. simpl. by rewrite Hq2.
Qed.

(** ** generate_terms beyond the failed call *)

Section generate_terms_paths.

Variable settings : Settings.
Variable chat_completions_create :
  forall (n : nat) (api_key base_url model_name prompt : string), result chat_response.
Variable genai_GenerativeModel :
  forall (n : nat) (api_key model_name : string), result unit.
Variable generate_content_text :
  forall (n : nat) (model_name prompt : string), result string.
Variable unbound_local_message : string.
Variable json_loads : string -> result pyvalue.
Variable re_search_brackets : string -> option string.
Variable GEN_VIDEO_TERM_format : Z -> string -> string -> string.

Local Abbreviation response :=
  (_generate_response settings chat_completions_create
     genai_GenerativeModel generate_content_text unbound_local_message).
Local Abbreviation iteration :=
  (generate_terms_iteration settings chat_completions_create
     genai_GenerativeModel generate_content_text unbound_local_message
     json_loads re_search_brackets).
Local Abbreviation loop :=
  (generate_terms_loop settings chat_completions_create
     genai_GenerativeModel generate_content_text unbound_local_message
     json_loads re_search_brackets).
Local Abbreviation terms :=
  (generate_terms settings chat_completions_create
     genai_GenerativeModel generate_content_text unbound_local_message
     json_loads re_search_brackets GEN_VIDEO_TERM_format).

(** X6.  When the first answer of the provider is free of ["Error: "] and
    parses to a non-empty list of strings, [generate_terms] returns that
    list, whatever later calls would have answered. *)
Theorem X6_generate_terms_first_good_answer (n : nat)
    (video_subject video_script : string) (amount : Z) (r : string)
    (l : list pyvalue) :
  response n (GEN_VIDEO_TERM_format amount video_subject video_script) = Ok r ->
  contains "Error: " r = false ->
  json_loads r = Ok (PList l) ->
  is_list_of_str (PList l) = true ->
  l <> [] ->
  terms n video_subject video_script amount = Ok (PList l).
Proof.
  intros Hr Herr Hjson Hstr Hl.
  unfold generate_terms. cbn [generate_terms_loop _max_retries].
  unfold generate_terms_iteration. rewrite Hr, Herr, Hjson, Hstr.
  unfold after_try. destruct l as [|x l]; [done|]. done.
Qed.

Local Abbreviation parsed_from :=
  (parsed_between response json_loads re_search_brackets).

Lemma after_try_keeps (search_terms : pyvalue) (r : string) :
  match after_try search_terms r with
  | Break v _ | Next v _ => v = search_terms
  | Return _ => False
  | Propagate _ => True
  end.
Proof.
  unfold after_try. destruct (truthy search_terms); [|done].
  destruct (len search_terms) as [m|e]; [|done]. by destruct (0 <? m)%nat.
Qed.

Lemma iteration_provenance (lo n : nat) (prompt : string)
    (search_terms : pyvalue) (previous : string) :
  (lo <= n)%nat ->
  parsed_from lo n prompt search_terms ->
  match iteration n prompt search_terms previous with
  | Return v =>
      exists r, response n prompt = Ok r /\ contains "Error: " r = true /\ v = PStr r
  | Break v _ | Next v _ => parsed_from lo (S n) prompt v
  | Propagate _ => True
  end.
Proof.
  intros Hlo Hinv.
  assert (Hold : parsed_from lo (S n) prompt search_terms).
  { destruct Hinv as [->|(i & r & Hi & Hr & Hv)]; [by left|].
    right. exists i, r. split; [lia | done]. }
  unfold generate_terms_iteration.
  destruct (response n prompt) as [r|e] eqn:Hr; [|done].
  destruct (contains "Error: " r) eqn:Herr; [by exists r|].
  destruct (json_loads r) as [v|e] eqn:Hj.
  - assert (Hv : parsed_from lo (S n) prompt v).
    { right. exists n, r. split; [lia|]. split; [done|]. by left. }
    destruct (is_list_of_str v); [|done].
    pose proof (after_try_keeps v r) as Hk.
    destruct (after_try v r); try done; by subst.
  - destruct (isinstance_Exception e); [|done]. unfold except_handler.
    assert (Hsame : match after_try search_terms r with
                    | Break v _ | Next v _ => parsed_from lo (S n) prompt v
                    | Return _ => False
                    | Propagate _ => True
                    end).
    { pose proof (after_try_keeps search_terms r) as Hk.
      destruct (after_try search_terms r); try done; by subst. }
    destruct (is_empty r); [by destruct (after_try search_terms r)|].
    destruct (re_search_brackets r) as [g|] eqn:Hg;
      [|by destruct (after_try search_terms r)].
    destruct (json_loads g) as [v|e'] eqn:Hjg.
    + pose proof (after_try_keeps v r) as Hk.
      assert (Hv : parsed_from lo (S n) prompt v).
      { right. exists n, r. split; [lia|]. split; [done|]. right. by exists g. }
      destruct (after_try v r); try done; by subst.
    + destruct (isinstance_Exception e'); [|done].
      by destruct (after_try search_terms r).
Qed.

Lemma loop_provenance (lo : nat) (prompt : string) (retries n : nat)
    (search_terms : pyvalue) (previous : string) (v : pyvalue) :
  (lo <= n)%nat ->
  parsed_from lo n prompt search_terms ->
  loop n retries prompt search_terms previous = Ok v ->
  (exists i r, (lo <= i < n + retries)%nat /\ response i prompt = Ok r /\
               contains "Error: " r = true /\ v = PStr r) \/
  parsed_from lo (n + retries) prompt v.
Proof.
  revert n search_terms previous.
  induction retries as [|retries IH]; intros n search_terms previous Hlo Hinv;
    cbn [generate_terms_loop].
  - intros [= <-]. right. by rewrite Nat.add_0_r.
  - pose proof (iteration_provenance lo n prompt search_terms previous Hlo Hinv)
      as Hit.
    assert (Hwiden : forall u, parsed_from lo (S n) prompt u ->
                               parsed_from lo (n + S retries) prompt u).
    { intros u [->|(i & r & Hi & Hr & Hv)]; [by left|].
      right. exists i, r. split; [lia | done]. }
    destruct (iteration n prompt search_terms previous) as [u|u r|u r|e];
      intros H; try done.
    + injection H as <-. destruct Hit as (r & Hr & Herr & ->).
      left. exists n, r. split; [lia | done].
    + injection H as <-. right. by apply Hwiden.
    + replace (n + S retries)%nat with (S n + retries)%nat by lia.
      destruct (IH (S n) u r ltac:(lia) Hit H)
        as [(i & r' & Hi & Hr & Herr & ->)|Hp]; [left|by right].
      exists i, r'. split; [lia | done].
Qed.

(** X7.  Whatever [generate_terms] returns comes from one of its five
    calls: it is an answer that contains ["Error: "], returned as a
    string, or the initial empty list, or what [json.loads] made of an
    answer or of the bracketed part of an answer. *)
Theorem X7_generate_terms_result_provenance (n : nat)
    (video_subject video_script : string) (amount : Z) (v : pyvalue) :
  terms n video_subject video_script amount = Ok v ->
  (exists i r, (n <= i < n + 5)%nat /\
     response i (GEN_VIDEO_TERM_format amount video_subject video_script) = Ok r /\
     contains "Error: " r = true /\ v = PStr r) \/
  v = PList [] \/
  (exists i r, (n <= i < n + 5)%nat /\
     response i (GEN_VIDEO_TERM_format amount video_subject video_script) = Ok r /\
     (json_loads r = Ok v \/
      exists g, re_search_brackets r = Some g /\ json_loads g = Ok v)).
Proof.
  intros H. unfold generate_terms in H.
  apply (loop_provenance n) in H; [done | lia | by left].
Qed.

Lemma loop_not_a_list (prompt : string) (retries n : nat)
    (search_terms : pyvalue) (previous : string) :
  (forall i, (n <= i < n + S retries)%nat ->
     exists r v, response i prompt = Ok r /\ contains "Error: " r = false /\
                 json_loads r = Ok v /\ is_list_of_str v = false) ->
  exists r v, response (n + retries) prompt = Ok r /\ json_loads r = Ok v /\
              is_list_of_str v = false /\
              loop n (S retries) prompt search_terms previous = Ok v.
Proof.
  revert n search_terms previous.
  induction retries as [|retries IH]; intros n search_terms previous Hall.
  - destruct (Hall n) as (r & v & Hr & Herr & Hj & Hl); [lia|].
    exists r, v. rewrite Nat.add_0_r. split_and!; try done.
    cbn [generate_terms_loop]. unfold generate_terms_iteration.
    by rewrite Hr, Herr, Hj, Hl.
  - destruct (Hall n) as (r & v & Hr & Herr & Hj & Hl); [lia|].
    destruct (IH (S n) v r) as (r' & v' & Hr' & Hj' & Hl' & Hloop).
    { intros i Hi. apply Hall. lia. }
    exists r', v'. replace (n + S retries)%nat with (S n + retries)%nat by lia.
    split_and!; try done.
    rewrite <- Hloop. cbn [generate_terms_loop]. unfold generate_terms_iteration.
    by rewrite Hr, Herr, Hj, Hl.
Qed.

(** X8.  When each of the five answers is free of ["Error: "] and parses
    to a value that is not a list of strings, the type test fails five
    times, [continue] skips the rest of each pass, and [generate_terms]
    returns what the fifth answer parsed to: a value that is not a list
    of strings. *)
Theorem X8_generate_terms_returns_last_rejected_value (n : nat)
    (video_subject video_script : string) (amount : Z) :
  (forall i, (n <= i < n + 5)%nat ->
     exists r v,
       response i (GEN_VIDEO_TERM_format amount video_subject video_script) = Ok r /\
       contains "Error: " r = false /\
       json_loads r = Ok v /\ is_list_of_str v = false) ->
  exists r v,
    response (n + 4) (GEN_VIDEO_TERM_format amount video_subject video_script) = Ok r /\
    json_loads r = Ok v /\
    is_list_of_str v = false /\
    terms n video_subject video_script amount = Ok v.
Proof.
  intros Hall. unfold generate_terms. by apply loop_not_a_list.
Qed.

(** X9.  The recovery path has no type test.  When [json.loads] rejects
    the first answer, the bracketed part of the answer parses, and the
    parsed value is truthy with a positive length, [generate_terms]
    returns that value, strings or not. *)
Theorem X9_generate_terms_recovers_bracketed_part (n : nat)
    (video_subject video_script : string) (amount : Z) (r g : string)
    (e : exn) (v : pyvalue) (m : nat) :
  response n (GEN_VIDEO_TERM_format amount video_subject video_script) = Ok r ->
  contains "Error: " r = false ->
  json_loads r = Raise e ->
  isinstance_Exception e = true ->
  re_search_brackets r = Some g ->
  is_empty r = false ->
  json_loads g = Ok v ->
  truthy v = true ->
  len v = Ok m ->
  (0 < m)%nat ->
  terms n video_subject video_script amount = Ok v.
Proof.
  intros Hr Herr Hj He Hg Hne Hjg Ht Hlen Hm.
  unfold generate_terms. cbn [generate_terms_loop _max_retries].
  unfold generate_terms_iteration. rewrite Hr, Herr, Hj, He.
  unfold except_handler. rewrite Hne, Hg, Hjg.
  unfold after_try. rewrite Ht, Hlen.
  destruct (Nat.ltb_spec 0 m); [done | lia].
Qed.

End generate_terms_paths.

Lemma X6_generate_terms_first_good_answer_witness :
  generate_terms openai_settings
    (fun _ _ _ _ _ => Ok (ChatCompletion [Some "sky"])) (fun _ _ _ => Ok tt)
    (fun _ _ _ => Ok EmptyString) EmptyString
    (fun _ => Ok (PList [PStr "sky"])) (fun _ => None) (fun _ subject _ => subject)
    0 "cats" "a script" 5
  = Ok (PList [PStr "sky"]).
Proof.
  apply (X6_generate_terms_first_good_answer openai_settings
           (fun _ _ _ _ _ => Ok (ChatCompletion [Some "sky"])) (fun _ _ _ => Ok tt)
           (fun _ _ _ => Ok EmptyString) EmptyString
           (fun _ => Ok (PList [PStr "sky"])) (fun _ => None)
           (fun _ subject _ => subject) 0 "cats" "a script" 5 "sky");
    (reflexivity || discriminate).
Defined.

Lemma X7_generate_terms_result_provenance_witness :
  exists i r, (0 <= i < 0 + 5)%nat /\
    _generate_response openai_settings
      (fun _ _ _ _ _ => Ok (ChatCompletion [Some "sky"])) (fun _ _ _ => Ok tt)
      (fun _ _ _ => Ok EmptyString) EmptyString i "cats" = Ok r /\
    ((fun _ : string => Ok (PList [PStr "sky"])) r = Ok (PList [PStr "sky"]) \/
     exists g, (fun _ : string => @None string) r = Some g /\
               (fun _ : string => Ok (PList [PStr "sky"])) g = Ok (PList [PStr "sky"])).
Proof.
  destruct (X7_generate_terms_result_provenance openai_settings
              (fun _ _ _ _ _ => Ok (ChatCompletion [Some "sky"])) (fun _ _ _ => Ok tt)
              (fun _ _ _ => Ok EmptyString) EmptyString
              (fun _ => Ok (PList [PStr "sky"])) (fun _ => None)
              (fun _ subject _ => subject) 0 "cats" "a script" 5
              (PList [PStr "sky"]) eq_refl)
    as [(i & r & _ & _ & _ & Hv)|[Hv|H]]; [discriminate Hv | discriminate Hv | exact H].
Defined.

Lemma X8_generate_terms_returns_last_rejected_value_witness :
  generate_terms openai_settings
    (fun _ _ _ _ _ => Ok (ChatCompletion [Some "{}"])) (fun _ _ _ => Ok tt)
    (fun _ _ _ => Ok EmptyString) EmptyString
    (fun _ => Ok (PDict [])) (fun _ => None) (fun _ subject _ => subject)
    0 "cats" "a script" 5
  = Ok (PDict []).
Proof.
  destruct (X8_generate_terms_returns_last_rejected_value openai_settings
              (fun _ _ _ _ _ => Ok (ChatCompletion [Some "{}"])) (fun _ _ _ => Ok tt)
              (fun _ _ _ => Ok EmptyString) EmptyString
              (fun _ => Ok (PDict [])) (fun _ => None)
              (fun _ subject _ => subject) 0 "cats" "a script" 5)
    as (r & v & _ & Hv & _ & Hterms).
  - intros i _. by exists "{}", (PDict []).
  - injection Hv as <-. exact Hterms.
Defined.

Lemma X9_generate_terms_recovers_bracketed_part_witness :
  generate_terms openai_settings
    (fun _ _ _ _ _ => Ok (ChatCompletion [Some "terms: [1]"])) (fun _ _ _ => Ok tt)
    (fun _ _ _ => Ok EmptyString) EmptyString
    (fun s => if String.eqb s "[1]" then Ok (PList [PInt 1])
              else Raise (Exn JSONDecodeError "Expecting value: line 1 column 1 (char 0)"))
    (fun _ => Some "[1]") (fun _ subject _ => subject)
    0 "cats" "a script" 5
  = Ok (PList [PInt 1]) /\
  is_list_of_str (PList [PInt 1]) = false.
Proof.
  split; [|reflexivity].
  apply (X9_generate_terms_recovers_bracketed_part openai_settings
           (fun _ _ _ _ _ => Ok (ChatCompletion [Some "terms: [1]"]))
           (fun _ _ _ => Ok tt) (fun _ _ _ => Ok EmptyString) EmptyString
           (fun s => if String.eqb s "[1]" then Ok (PList [PInt 1])
                     else Raise (Exn JSONDecodeError "Expecting value: line 1 column 1 (char 0)"))
           (fun _ => Some "[1]") (fun _ subject _ => subject)
           0 "cats" "a script" 5 "terms: [1]" "[1]"
           (Exn JSONDecodeError "Expecting value: line 1 column 1 (char 0)") (PList [PInt 1]) 1);
    (reflexivity || lia).
Defined.

(** ** How many calls generate_terms makes *)

Lemma response_try_agrees (settings : Settings)
    (chat1 chat2 : nat -> string -> string -> string -> string -> result chat_response)
    (genai1 genai2 : nat -> string -> string -> result unit)
    (text1 text2 : nat -> string -> string -> result string)
    (message : string) (n : nat) (prompt : string) :
  (forall a b c d, chat1 n a b c d = chat2 n a b c d) ->
  (forall a b, genai1 n a b = genai2 n a b) ->
  (forall a b, text1 n a b = text2 n a b) ->
  _generate_response_try settings chat1 genai1 text1 message n prompt =
  _generate_response_try settings chat2 genai2 text2 message n prompt.
Proof.
  intros Hchat Hgenai Htext. unfold _generate_response_try.
  destruct (String.eqb (llm_provider settings) "openai");
    [|destruct (String.eqb (llm_provider settings) "gemini") eqn:Hg]; simpl;
    repeat match goal with
      | |- context [if is_empty ?x then _ else _] => destruct (is_empty x); [done|]
      end;
    rewrite ?Hg; try done;
    repeat match goal with
      | |- context [if String.eqb ?x ?y then _ else _] => destruct (String.eqb x y)
      end;
    by rewrite ?Hchat, ?Hgenai, ?Htext.
Qed.

Lemma loop_agrees (settings : Settings)
    (chat1 chat2 : nat -> string -> string -> string -> string -> result chat_response)
    (genai1 genai2 : nat -> string -> string -> result unit)
    (text1 text2 : nat -> string -> string -> result string)
    (message : string) (json_loads : string -> result pyvalue)
    (re_search_brackets : string -> option string)
    (prompt : string) (retries n : nat) (search_terms : pyvalue)
    (previous : string) :
  (forall i a b c d, (n <= i < n + retries)%nat -> chat1 i a b c d = chat2 i a b c d) ->
  (forall i a b, (n <= i < n + retries)%nat -> genai1 i a b = genai2 i a b) ->
  (forall i a b, (n <= i < n + retries)%nat -> text1 i a b = text2 i a b) ->
  generate_terms_loop settings chat1 genai1 text1 message json_loads
    re_search_brackets n retries prompt search_terms previous =
  generate_terms_loop settings chat2 genai2 text2 message json_loads
    re_search_brackets n retries prompt search_terms previous.
Proof.
  revert n search_terms previous.
  induction retries as [|retries IH]; intros n search_terms previous Hchat Hgenai Htext;
    cbn [generate_terms_loop]; [done|].
  unfold generate_terms_iteration, _generate_response.
  rewrite (response_try_agrees settings chat1 chat2 genai1 genai2 text1 text2
             message n prompt)
    by (intros; (apply Hchat || apply Hgenai || apply Htext); lia).
  repeat case_match; try done.
  all: apply IH; intros; (apply Hchat || apply Hgenai || apply Htext); lia.
Qed.

(** X10.  [generate_terms] asks the provider at most five times: its
    result is the same for any two behaviours of the provider that agree
    on the five calls numbered [n] to [n + 4]. *)
Theorem X10_generate_terms_asks_at_most_five_times (settings : Settings)
    (chat1 chat2 : nat -> string -> string -> string -> string -> result chat_response)
    (genai1 genai2 : nat -> string -> string -> result unit)
    (text1 text2 : nat -> string -> string -> result string)
    (message : string) (json_loads : string -> result pyvalue)
    (re_search_brackets : string -> option string)
    (GEN_VIDEO_TERM_format : Z -> string -> string -> string)
    (n : nat) (video_subject video_script : string) (amount : Z) :
  (forall i a b c d, (n <= i < n + 5)%nat -> chat1 i a b c d = chat2 i a b c d) ->
  (forall i a b, (n <= i < n + 5)%nat -> genai1 i a b = genai2 i a b) ->
  (forall i a b, (n <= i < n + 5)%nat -> text1 i a b = text2 i a b) ->
  generate_terms settings chat1 genai1 text1 message json_loads
    re_search_brackets GEN_VIDEO_TERM_format n video_subject video_script amount =
  generate_terms settings chat2 genai2 text2 message json_loads
    re_search_brackets GEN_VIDEO_TERM_format n video_subject video_script amount.
Proof.
  intros Hchat Hgenai Htext. unfold generate_terms. by apply loop_agrees.
Qed.

Lemma X10_generate_terms_asks_at_most_five_times_witness :
  generate_terms openai_settings
    (fun i _ _ _ _ => if (i <? 5)%nat then Ok (ChatCompletion [Some "{}"])
                      else Ok NoResponse)
    (fun _ _ _ => Ok tt) (fun _ _ _ => Ok EmptyString) EmptyString
    (fun _ => Ok (PDict [])) (fun _ => None) (fun _ subject _ => subject)
    0 "cats" "a script" 5 =
  generate_terms openai_settings
    (fun _ _ _ _ _ => Ok (ChatCompletion [Some "{}"]))
    (fun _ _ _ => Ok tt) (fun _ _ _ => Ok EmptyString) EmptyString
    (fun _ => Ok (PDict [])) (fun _ => None) (fun _ subject _ => subject)
    0 "cats" "a script" 5.
Proof.
  apply X10_generate_terms_asks_at_most_five_times; try reflexivity.
  intros i a b c d Hi. destruct (Nat.ltb_spec i 5); [reflexivity | lia].
Defined.

(** ** Failures that never reach the provider, and failures that lose
    their cause *)

(** X11.  Settings with an unknown provider, or with an empty key or
    model name for the chosen provider, make [_generate_response] return
    an ["Error: ..."] string that the settings alone decide: no provider
    is asked.  With any other settings a provider is asked, and its answer
    can come back. *)
Theorem X11_misconfigured_settings_decide_the_answer (settings : Settings) :
  (misconfigured settings = true ->
   exists msg, forall chat genai text message n prompt,
     _generate_response settings chat genai text message n prompt
     = Ok ("Error: " +:+ msg)) /\
  (misconfigured settings = false ->
   forall message n prompt, exists chat genai text,
     _generate_response settings chat genai text message n prompt = Ok "ok").
Proof.
  unfold misconfigured, _generate_response, _generate_response_try. split.
  - destruct (String.eqb (llm_provider settings) "openai") eqn:Ho;
      [|destruct (String.eqb (llm_provider settings) "gemini") eqn:Hg]; simpl.
    + destruct (is_empty (open_api_key settings)); simpl; intros Hm.
      * by eexists.
      * rewrite Hm. by eexists.
    + destruct (is_empty (gemini_api_key settings)); simpl; intros Hm.
      * by eexists.
      * rewrite Hm. by eexists.
    + intros _. by eexists.
  - destruct (String.eqb (llm_provider settings) "openai") eqn:Ho;
      [|destruct (String.eqb (llm_provider settings) "gemini") eqn:Hg];
      simpl; [| |done].
    + apply String.eqb_eq in Ho. rewrite Ho. simpl.
      intros Hm message n prompt. apply orb_false_elim in Hm as [-> ->].
      exists (fun _ _ _ _ _ => Ok (ChatCompletion [Some "ok"])),
             (fun _ _ _ => Ok tt), (fun _ _ _ => Ok EmptyString).
      by destruct (is_empty (openai_base_url settings)) eqn:Hb; simpl; rewrite ?Hb.
    + intros Hm message n prompt. apply orb_false_elim in Hm as [-> ->].
      exists (fun _ _ _ _ _ => Ok NoResponse),
             (fun _ _ _ => Ok tt), (fun _ _ _ => Ok "ok").
      done.
Qed.

Lemma X11_misconfigured_settings_decide_the_answer_witness :
  (exists msg, forall chat genai text message n prompt,
     _generate_response no_settings chat genai text message n prompt
     = Ok ("Error: " +:+ msg)) /\
  (forall message n prompt, exists chat genai text,
     _generate_response gemini_settings chat genai text message n prompt = Ok "ok").
Proof.
  split.
  - apply (proj1 (X11_misconfigured_settings_decide_the_answer no_settings)).
    reflexivity.
  - apply (proj2 (X11_misconfigured_settings_decide_the_answer gemini_settings)).
    reflexivity.
Defined.

(** X12.  With Gemini as the provider, when reading the answer raises an
    [AttributeError] or an [IndexError] (no candidate, no part, no text),
    the handler of lines 102-103 only logs it; line 105 then fails on the
    unassigned local, and what [_generate_response] returns is ["Error: "]
    followed by the text of that [UnboundLocalError].  The text of the
    original exception is not in the result. *)
Theorem X12_gemini_answer_error_is_masked (settings : Settings)
    (chat : nat -> string -> string -> string -> string -> result chat_response)
    (genai : nat -> string -> string -> result unit)
    (text : nat -> string -> string -> result string)
    (message : string) (n : nat) (prompt : string) (e : exn) :
  llm_provider settings = "gemini" ->
  is_empty (gemini_api_key settings) = false ->
  is_empty (gemini_model_name settings) = false ->
  genai n (gemini_api_key settings) (gemini_model_name settings) = Ok tt ->
  text n (gemini_model_name settings) prompt = Raise e ->
  exn_cls e = AttributeError \/ exn_cls e = IndexError ->
  _generate_response settings chat genai text message n prompt
  = Ok ("Error: " +:+ message).
Proof.
  intros Hp Hk Hm Hg Ht He.
  unfold _generate_response, _generate_response_try.
  rewrite Hp. simpl. rewrite Hk, Hm, Hg. simpl. rewrite Ht.
  by destruct He as [-> | ->].
Qed.

Lemma X12_gemini_answer_error_is_masked_witness :
  _generate_response gemini_settings
    (fun _ _ _ _ _ => Ok NoResponse) (fun _ _ _ => Ok tt)
    (fun _ _ _ => Raise (Exn IndexError "list index out of range"))
    "cannot access local variable 'generated_text'" 0 "cats"
  = Ok "Error: cannot access local variable 'generated_text'".
Proof.
  apply (X12_gemini_answer_error_is_masked gemini_settings
           (fun _ _ _ _ _ => Ok NoResponse) (fun _ _ _ => Ok tt)
           (fun _ _ _ => Raise (Exn IndexError "list index out of range"))
           "cannot access local variable 'generated_text'" 0 "cats"
           (Exn IndexError "list index out of range"));
    try reflexivity.
  by right.
Defined.

Lemma remove_newlines_clean (s : string) : occurs newline (remove_newlines s) = false.
Proof.
  induction s as [|a s IH]; [done|]. cbn [remove_newlines].
  destruct (Ascii.eqb a newline) eqn:E; [done|]. cbn [occurs].
  by rewrite Ascii.eqb_sym, E.
Qed.

Lemma remove_newlines_id (s : string) :
  occurs newline s = false -> remove_newlines s = s.
Proof.
  induction s as [|a s IH]; [done|]. cbn [remove_newlines occurs].
  rewrite Ascii.eqb_sym. destruct (Ascii.eqb a newline); [done|].
  intros H. by rewrite IH.
Qed.

(** X13.  With OpenAI as the provider and key and model set, the request
    goes to the configured base URL, or to [https://api.openai.com/v1]
    when none is configured; the content of the first choice comes back
    with every line feed removed, and unchanged if it had none. *)
Theorem X13_openai_answer_has_no_line_feed (settings : Settings)
    (chat : nat -> string -> string -> string -> string -> result chat_response)
    (genai : nat -> string -> string -> result unit)
    (text : nat -> string -> string -> result string)
    (message : string) (n : nat) (prompt content : string)
    (choices : list (option string)) :
  llm_provider settings = "openai" ->
  is_empty (open_api_key settings) = false ->
  is_empty (openai_model_name settings) = false ->
  chat n (open_api_key settings)
    (if is_empty (openai_base_url settings) then "https://api.openai.com/v1"
     else openai_base_url settings)
    (openai_model_name settings) prompt
  = Ok (ChatCompletion (Some content :: choices)) ->
  exists r,
    _generate_response settings chat genai text message n prompt = Ok r /\
    r = remove_newlines content /\
    occurs newline r = false /\
    (occurs newline content = false -> r = content).
Proof.
  intros Hp Hk Hm Hc. exists (remove_newlines content).
  split_and!; try done; [|apply remove_newlines_clean|apply remove_newlines_id].
  unfold _generate_response, _generate_response_try.
  rewrite Hp. simpl. rewrite Hk, Hm.
  destruct (is_empty (openai_base_url settings)) eqn:Hb; simpl;
    rewrite ?Hb; simpl; by rewrite Hc.
Qed.

Lemma X13_openai_answer_has_no_line_feed_witness :
  exists r,
    _generate_response openai_settings
      (fun _ _ url _ _ =>
         if String.eqb url "https://api.openai.com/v1"
         then Ok (ChatCompletion [Some (String newline "sky")])
         else Ok NoResponse)
      (fun _ _ _ => Ok tt) (fun _ _ _ => Ok EmptyString) EmptyString 0 "cats"
    = Ok r /\
    r = remove_newlines (String newline "sky") /\
    occurs newline r = false /\
    (occurs newline (String newline "sky") = false -> r = String newline "sky").
Proof.
  apply (X13_openai_answer_has_no_line_feed openai_settings
           (fun _ _ url _ _ =>
              if String.eqb url "https://api.openai.com/v1"
              then Ok (ChatCompletion [Some (String newline "sky")])
              else Ok NoResponse)
           (fun _ _ _ => Ok tt) (fun _ _ _ => Ok EmptyString) EmptyString 0
           "cats" (String newline "sky") []); reflexivity.
Defined.

Example stream_sample :
  stream_video sample_int sample_file (Some "bytes=1-3") =
  Ok {| body := Chunks [[Byte.x62; Byte.x63; Byte.x64]];
        content_range := (1, 3, 5);
        content_length := 3;
        status_code := 206 |}.
Proof. reflexivity. Qed.

(** ** Reading a file in chunks *)

Lemma take_take_drop {A} (l : list A) (n m : nat) :
  take n l ++ take m (drop n l) = take (n + m) l.
Proof.
  revert n. induction l as [|x l IH]; intros [|n]; simpl; try done.
  - by rewrite take_nil.
  - by rewrite IH.
Qed.

Lemma take_length_take {A} (l : list A) (n : nat) :
  take (length (take n l)) l = take n l.
Proof.
  rewrite length_take.
  destruct (Nat.min_spec n (length l)) as [[? ->]|[? ->]]; [done|].
  by rewrite !take_ge by lia.
Qed.

Lemma read_chunks_concat (fuel : nat) (rest : list Byte.byte) (remaining : Z) :
  (length rest <= fuel)%nat ->
  concat (read_chunks fuel rest remaining) = take (Z.to_nat remaining) rest.
Proof.
  revert rest remaining. induction fuel as [|fuel IH]; intros rest remaining Hfuel.
  - destruct rest; [|simpl in Hfuel; lia]. by rewrite take_nil.
  - cbn [read_chunks]. destruct (Z.ltb_spec 0 remaining) as [Hpos|Hneg]; cycle 1.
    { by replace (Z.to_nat remaining) with 0%nat by lia. }
    set (n := Z.to_nat (Z.min 4096 remaining)).
    assert (Hn : (0 < n <= Z.to_nat remaining)%nat) by lia.
    remember (take n rest) as data eqn:Hdata. destruct data as [|b data].
    + destruct rest as [|b rest]; [by rewrite take_nil|].
      destruct n; [lia | done].
    + assert (Hlen : (0 < length (take n rest) <= n)%nat).
      { split; [rewrite <- Hdata; simpl; lia | rewrite length_take; lia]. }
      rewrite Hdata. cbn [concat].
      rewrite IH by (rewrite length_drop; lia).
      rewrite <- (take_length_take rest n) at 1.
      rewrite take_take_drop. f_equal. lia.
Qed.

Lemma read_chunks_sizes (fuel : nat) (rest : list Byte.byte) (remaining : Z) :
  Forall (fun chunk => (0 < length chunk <= 4096)%nat)
    (read_chunks fuel rest remaining).
Proof.
  revert rest remaining. induction fuel as [|fuel IH]; intros rest remaining;
    cbn [read_chunks]; [constructor|].
  destruct (0 <? remaining); [|constructor].
  destruct (take (Z.to_nat (Z.min 4096 remaining)) rest) as [|b data] eqn:Hdata;
    [constructor|].
  constructor; [|apply IH].
  split; [simpl; lia|]. rewrite <- Hdata, length_take. lia.
Qed.

Lemma read_chunks_full (fuel : nat) (rest : list Byte.byte) (remaining : Z)
    (c c' : list Byte.byte) (more : list (list Byte.byte)) :
  read_chunks fuel rest remaining = c :: c' :: more -> length c = 4096%nat.
Proof.
  destruct fuel as [|fuel]; [done|]. cbn [read_chunks].
  destruct (Z.ltb_spec 0 remaining) as [Hpos|]; [|done].
  set (n := Z.to_nat (Z.min 4096 remaining)).
  remember (take n rest) as data eqn:Hdata. destruct data as [|b data]; [done|].
  rewrite Hdata. intros [= <- Hnext].
  destruct fuel as [|fuel]; [done|]. cbn [read_chunks] in Hnext.
  destruct (Z.ltb_spec 0 (remaining - Z.of_nat (length (take n rest))))
    as [Hleft|]; [|done].
  destruct (drop (length (take n rest)) rest) as [|b' rest'] eqn:Hdrop.
  { by rewrite take_nil in Hnext. }
  assert (Hmore : (length (take n rest) < length rest)%nat).
  { apply (f_equal length) in Hdrop. rewrite length_drop in Hdrop.
    simpl in Hdrop. lia. }
  rewrite length_take in *. lia.
Qed.

(** X14.  [file_iterator] yields, in order, exactly the bytes of the
    file from [offset] on, up to the number asked for, or up to the size
    of the file when 0 bytes are asked for; nothing when a negative number
    is asked for.  Every chunk has between 1 and 4096 bytes, and every
    chunk but the last has 4096.  A negative offset makes the iteration
    fail at [f.seek]. *)
Theorem X14_file_iterator_yields_the_slice (file : list Byte.byte)
    (video_size offset bytes_to_read : Z) :
  (offset < 0 ->
   file_iterator file video_size offset bytes_to_read = SeekFails) /\
  (0 <= offset ->
   exists chunks,
     file_iterator file video_size offset bytes_to_read = Chunks chunks /\
     concat chunks =
       take (Z.to_nat (if bytes_to_read =? 0 then video_size else bytes_to_read))
         (drop (Z.to_nat offset) file) /\
     Forall (fun chunk => (0 < length chunk <= 4096)%nat) chunks /\
     (forall i chunk, chunks !! i = Some chunk ->
        (S i < length chunks)%nat -> length chunk = 4096%nat)).
Proof.
  unfold file_iterator. split; intros Hoff.
  - by destruct (Z.ltb_spec offset 0); [|lia].
  - destruct (Z.ltb_spec offset 0); [lia|]. eexists. split; [done|].
    split; [by apply read_chunks_concat|]. split; [apply read_chunks_sizes|].
    generalize (length (drop (Z.to_nat offset) file)) at 1 2 as fuel.
    generalize (drop (Z.to_nat offset) file) as rest.
    generalize (if bytes_to_read =? 0 then video_size else bytes_to_read)
      as remaining.
    intros remaining rest fuel. revert rest remaining.
    induction fuel as [|fuel IH]; intros rest remaining i chunk Hi Hlast;
      [done|].
    destruct (read_chunks (S fuel) rest remaining) as [|c [|c' more]] eqn:E;
      [done | simpl in Hlast; lia |].
    destruct i as [|i].
    + injection Hi as <-. by eapply read_chunks_full.
    + cbn [read_chunks] in E.
      destruct (0 <? remaining); [|done].
      destruct (take (Z.to_nat (Z.min 4096 remaining)) rest) eqn:Hd; [done|].
      injection E as _ E. simpl in Hi, Hlast.
      eapply IH; rewrite E; [exact Hi | simpl; lia].
Qed.

Lemma X14_file_iterator_yields_the_slice_witness :
  file_iterator sample_file 5 (-1) 2 = SeekFails /\
  exists chunks,
    file_iterator sample_file 5 1 3 = Chunks chunks /\
    concat chunks = [Byte.x62; Byte.x63; Byte.x64].
Proof.
  split.
  - apply (proj1 (X14_file_iterator_yields_the_slice sample_file 5 (-1) 2)). lia.
  - destruct (proj2 (X14_file_iterator_yields_the_slice sample_file 5 1 3))
      as (chunks & E & Hc & _); [lia|].
    exists chunks. split; [exact E | exact Hc].
Defined.

(** ** Splitting at a separator *)

Lemma split_skip_over (sep x s : string) :
  split_skip sep (String.length x) (x +:+ s) = split_skip sep 0 s.
Proof. induction x as [|a x IH]; [done | apply IH]. Qed.

Lemma str_split_at_head (a : ascii) (sep' s : string) :
  str_split (String a sep') (String a sep' +:+ s) =
  EmptyString :: str_split (String a sep') s.
Proof.
  unfold str_split.
  change (String a sep' +:+ s) with (String a (sep' +:+ s)).
  cbn [split_skip String.prefix].
  destruct (ascii_dec a a); [|done].
  rewrite prefix_append.
  replace (String.length (String a sep') - 1)%nat with (String.length sep')
    by (simpl; lia).
  by rewrite split_skip_over.
Qed.

Lemma str_split_absent (sep s : string) :
  contains sep s = false -> str_split sep s = [s].
Proof.
  unfold str_split. induction s as [|a s IH]; [done|].
  cbn [contains split_skip]. intros H. apply orb_false_elim in H as [Hp Hc].
  by rewrite Hp, (IH Hc).
Qed.

Lemma str_split_char_absent (c : ascii) (s : string) :
  occurs c s = false -> str_split (String c EmptyString) s = [s].
Proof.
  unfold str_split. induction s as [|a s IH]; [done|].
  cbn [occurs split_skip String.prefix]. intros H.
  apply orb_false_elim in H as [Hp Hc].
  destruct (ascii_dec c a) as [->|_]; [by rewrite Ascii.eqb_refl in Hp|].
  by rewrite (IH Hc).
Qed.

Lemma str_split_char (c : ascii) (x y : string) :
  occurs c x = false ->
  str_split (String c EmptyString) (x +:+ String c y) =
  x :: str_split (String c EmptyString) y.
Proof.
  unfold str_split. induction x as [|a x IH]; intros H.
  - change (EmptyString +:+ String c y) with (String c y).
    cbn [split_skip String.prefix String.length].
    destruct (ascii_dec c c); [|done]. by destruct y.
  - cbn [occurs] in H. apply orb_false_elim in H as [Hp Hc].
    change (String a x +:+ String c y) with (String a (x +:+ String c y)).
    cbn [split_skip String.prefix].
    destruct (ascii_dec c a) as [->|_]; [by rewrite Ascii.eqb_refl in Hp|].
    by rewrite (IH Hc).
Qed.

(** ** The Range header *)

(** X15.  A header of the form [bytes=<first>-<last>], where neither part
    holds a hyphen and [bytes=] does not occur again, is taken apart into
    those two parts: each is [None] if empty and is otherwise given to
    [int].  A header in which [bytes=] does not occur makes
    [stream_video] fail with an [IndexError]. *)
Theorem X15_parse_range_takes_the_two_parts (int : string -> result Z)
    (first last : string) :
  occurs "-" first = false ->
  occurs "-" last = false ->
  contains "bytes=" (first +:+ "-" +:+ last) = false ->
  parse_range int ("bytes=" +:+ first +:+ "-" +:+ last) =
    (do a <- (if is_empty first then Ok None else do z <- int first; Ok (Some z));
     do b <- (if is_empty last then Ok None else do z <- int last; Ok (Some z));
     Ok (a, b)) /\
  (forall header, contains "bytes=" header = false -> is_empty header = false ->
     forall file, exists msg,
       stream_video int file (Some header) = Raise (Exn IndexError msg)).
Proof.
  intros Hf Hl Hb. split.
  - unfold parse_range.
    rewrite (str_split_at_head "b" "ytes=" (first +:+ "-" +:+ last)).
    rewrite (str_split_absent _ _ Hb).
    change ("-" +:+ last) with (String "-" last).
    rewrite (str_split_char "-" first last Hf), (str_split_char_absent _ _ Hl).
    cbn [map_result].
    destruct (is_empty first); [|destruct (int first)]; cbn [bind]; try done;
      destruct (is_empty last); [| destruct (int last) | | destruct (int last)];
      done.
  - intros header Hh Hne file. eexists.
    unfold stream_video, stream_video_range, parse_range.
    rewrite Hne, (str_split_absent _ _ Hh). done.
Qed.

Lemma X15_parse_range_takes_the_two_parts_witness :
  parse_range sample_int "bytes=1-3" = Ok (Some 1, Some 3) /\
  parse_range sample_int "bytes=2-" = Ok (Some 2, None) /\
  parse_range sample_int "bytes=-2" = Ok (None, Some 2).
Proof.
  split; [|split].
  - apply (proj1 (X15_parse_range_takes_the_two_parts sample_int "1" "3"
                    eq_refl eq_refl eq_refl)).
  - apply (proj1 (X15_parse_range_takes_the_two_parts sample_int "2" EmptyString
                    eq_refl eq_refl eq_refl)).
  - apply (proj1 (X15_parse_range_takes_the_two_parts sample_int EmptyString "2"
                    eq_refl eq_refl eq_refl)).
Defined.

Lemma stream_video_with_range (int : string -> result Z) (file : list Byte.byte)
    (header : string) (parts : option Z * option Z) :
  is_empty header = false ->
  parse_range int header = Ok parts ->
  stream_video int file (Some header) =
  match parts with
  | (None, None) =>
      Raise (Exn TypeError "unsupported operand type(s) for -: 'int' and 'NoneType'")
  | (None, Some end_) =>
      Ok {| body := file_iterator file (Z.of_nat (length file))
                      (Z.of_nat (length file) - end_)
                      (Z.of_nat (length file) - 1 - (Z.of_nat (length file) - end_) + 1);
            content_range := (Z.of_nat (length file) - end_,
                              Z.of_nat (length file) - 1, Z.of_nat (length file));
            content_length :=
              Z.of_nat (length file) - 1 - (Z.of_nat (length file) - end_) + 1;
            status_code := 206 |}
  | (Some start, None) =>
      Ok {| body := file_iterator file (Z.of_nat (length file)) start
                      (Z.of_nat (length file) - 1 - start + 1);
            content_range := (start, Z.of_nat (length file) - 1,
                              Z.of_nat (length file));
            content_length := Z.of_nat (length file) - 1 - start + 1;
            status_code := 206 |}
  | (Some start, Some end_) =>
      Ok {| body := file_iterator file (Z.of_nat (length file)) start
                      (end_ - start + 1);
            content_range := (start, end_, Z.of_nat (length file));
            content_length := end_ - start + 1;
            status_code := 206 |}
  end.
Proof.
  intros Hne Hparse. unfold stream_video, stream_video_range.
  rewrite Hne, Hparse. by destruct parts as [[start|] [end_|]].
Qed.

Lemma body_of_file_iterator (file : list Byte.byte) (video_size offset n : Z) :
  0 <= offset ->
  body_bytes (file_iterator file video_size offset n) =
  Some (take (Z.to_nat (if n =? 0 then video_size else n))
          (drop (Z.to_nat offset) file)).
Proof.
  intros Hoff. unfold file_iterator. destruct (Z.ltb_spec offset 0); [lia|].
  simpl. by rewrite read_chunks_concat.
Qed.

(** X16.  For a range [first-last] that lies within the file, the body is
    exactly the bytes numbered [first] to [last], the status is 206, and
    [Content-Length] and [Content-Range] describe that body. *)
Theorem X16_range_within_file_is_served_exactly (int : string -> result Z)
    (file : list Byte.byte) (header : string) (first last : Z) :
  is_empty header = false ->
  parse_range int header = Ok (Some first, Some last) ->
  0 <= first <= last ->
  last < Z.of_nat (length file) ->
  exists response bytes,
    stream_video int file (Some header) = Ok response /\
    status_code response = 206 /\
    content_range response = (first, last, Z.of_nat (length file)) /\
    content_length response = last - first + 1 /\
    body_bytes (body response) = Some bytes /\
    bytes = take (Z.to_nat (last - first + 1)) (drop (Z.to_nat first) file) /\
    Z.of_nat (length bytes) = content_length response /\
    (forall i, (i < length bytes)%nat -> bytes !! i = file !! (Z.to_nat first + i)%nat).
Proof.
  intros Hne Hparse Hfl Hlast.
  rewrite (stream_video_with_range _ _ _ _ Hne Hparse).
  eexists _, _. split; [done|]. simpl.
  rewrite body_of_file_iterator by lia.
  destruct (Z.eqb_spec (last - first + 1) 0); [lia|].
  split_and!; try done.
  - rewrite length_take, length_drop. lia.
  - intros i Hi. rewrite length_take in Hi.
    rewrite lookup_take_lt by lia. by rewrite lookup_drop.
Qed.

Lemma X16_range_within_file_is_served_exactly_witness :
  exists response,
    stream_video sample_int sample_file (Some "bytes=1-3") = Ok response /\
    content_length response = 3 /\
    body_bytes (body response) = Some [Byte.x62; Byte.x63; Byte.x64].
Proof.
  destruct (X16_range_within_file_is_served_exactly sample_int sample_file
              "bytes=1-3" 1 3 eq_refl eq_refl)
    as (response & bytes & E & _ & _ & Hlen & Hbody & -> & _); [lia | simpl; lia |].
  exists response. split; [exact E|]. split; [exact Hlen | exact Hbody].
Defined.

(** X17.  A range whose last byte lies before its first is not rejected.
    The status is still 206 and [Content-Length] is [last - first + 1],
    which is 0 or negative.  When it is 0, [bytes_to_read or video_size]
    turns it into the whole size and the body is the file from [first] to
    its end; when it is negative the body is empty. *)
Theorem X17_reversed_range_is_not_rejected (int : string -> result Z)
    (file : list Byte.byte) (header : string) (first last : Z) :
  is_empty header = false ->
  parse_range int header = Ok (Some first, Some last) ->
  0 <= first ->
  last < first ->
  exists response,
    stream_video int file (Some header) = Ok response /\
    status_code response = 206 /\
    content_length response = last - first + 1 /\
    content_length response <= 0 /\
    body_bytes (body response) =
      Some (if last =? first - 1 then drop (Z.to_nat first) file else []).
Proof.
  intros Hne Hparse Hf Hl.
  rewrite (stream_video_with_range _ _ _ _ Hne Hparse).
  eexists. split; [done|]. simpl.
  rewrite body_of_file_iterator by lia.
  split_and!; try done; [lia|]. f_equal.
  destruct (Z.eqb_spec last (first - 1)) as [->|Hne'].
  - replace (first - 1 - first + 1) with 0 by lia. simpl.
    apply take_ge. rewrite length_drop. lia.
  - destruct (Z.eqb_spec (last - first + 1) 0); [lia|].
    by replace (Z.to_nat (last - first + 1)) with 0%nat by lia.
Qed.

Lemma X17_reversed_range_is_not_rejected_witness :
  exists response,
    stream_video sample_int sample_file (Some "bytes=3-2") = Ok response /\
    content_length response = 0 /\
    body_bytes (body response) = Some [Byte.x64; Byte.x65].
Proof.
  destruct (X17_reversed_range_is_not_rejected sample_int sample_file
              "bytes=3-2" 3 2 eq_refl eq_refl)
    as (response & E & _ & Hlen & _ & Hbody); [lia | lia |].
  exists response. split; [exact E|]. split; [exact Hlen | exact Hbody].
Defined.

(** X18.  A suffix range [bytes=-n] with [0 < n] asks for the last [n]
    bytes: when the file has at least [n] bytes the body is exactly its
    last [n] bytes and the headers say so; when it has fewer, the response
    is still built with status 206 and a negative first byte in
    [Content-Range], and sending the body fails at [f.seek]. *)
Theorem X18_suffix_range (int : string -> result Z) (file : list Byte.byte)
    (header : string) (n : Z) :
  is_empty header = false ->
  parse_range int header = Ok (None, Some n) ->
  0 < n ->
  exists response,
    stream_video int file (Some header) = Ok response /\
    status_code response = 206 /\
    content_length response = n /\
    content_range response =
      (Z.of_nat (length file) - n, Z.of_nat (length file) - 1,
       Z.of_nat (length file)) /\
    (n <= Z.of_nat (length file) ->
     body_bytes (body response) =
       Some (drop (length file - Z.to_nat n) file)) /\
    (Z.of_nat (length file) < n -> body response = SeekFails).
Proof.
  intros Hne Hparse Hn.
  rewrite (stream_video_with_range _ _ _ _ Hne Hparse).
  eexists. split; [done|]. simpl. split_and!; try done; try lia.
  - intros Hle. rewrite body_of_file_iterator by lia. f_equal.
    match goal with |- context [?x =? 0] => destruct (Z.eqb_spec x 0); [lia|] end.
    replace (Z.to_nat (Z.of_nat (length file) - n))
      with (length file - Z.to_nat n)%nat by lia.
    apply take_ge. rewrite length_drop. lia.
  - intros Hlt. unfold file_iterator.
    by destruct (Z.ltb_spec (Z.of_nat (length file) - n) 0); [|lia].
Qed.

Lemma X18_suffix_range_witness :
  exists response,
    stream_video sample_int sample_file (Some "bytes=-2") = Ok response /\
    content_range response = (3, 4, 5) /\
    body_bytes (body response) = Some [Byte.x64; Byte.x65].
Proof.
  destruct (X18_suffix_range sample_int sample_file "bytes=-2" 2 eq_refl eq_refl)
    as (response & E & _ & _ & Hrange & Hbody & _); [lia|].
  exists response. split; [exact E|]. split; [exact Hrange|].
  apply Hbody. simpl. lia.
Defined.

(** X19.  Without a [Range] header, or with an empty one, the whole file
    is sent, still with status 206 and with [Content-Range] from 0 to the
    last byte; a header [bytes=-] makes the handler fail with a
    [TypeError]. *)
Theorem X19_no_range_sends_the_whole_file (int : string -> result Z)
    (file : list Byte.byte) :
  (forall header, header = None \/ header = Some EmptyString ->
     exists response,
       stream_video int file header = Ok response /\
       status_code response = 206 /\
       content_length response = Z.of_nat (length file) /\
       content_range response =
         (0, Z.of_nat (length file) - 1, Z.of_nat (length file)) /\
       body_bytes (body response) = Some file) /\
  (exists msg, stream_video int file (Some "bytes=-") = Raise (Exn TypeError msg)).
Proof.
  split.
  - intros header [-> | ->]; eexists; (split; [done|]);
      cbn [body status_code content_length content_range];
      (split_and!; try done);
      rewrite body_of_file_iterator by lia; f_equal;
      change (Z.to_nat 0) with 0%nat;
      rewrite drop_0; destruct (Z.of_nat (length file) =? 0);
      apply take_ge; lia.
  - by eexists.
Qed.

Lemma X19_no_range_sends_the_whole_file_witness :
  exists response,
    stream_video sample_int sample_file None = Ok response /\
    status_code response = 206 /\
    body_bytes (body response) = Some sample_file.
Proof.
  destruct (proj1 (X19_no_range_sends_the_whole_file sample_int sample_file)
              None (or_introl eq_refl))
    as (response & E & Hs & _ & _ & Hbody).
  exists response. split; [exact E|]. split; [exact Hs | exact Hbody].
Defined.

(** ** Splitting a text at punctuation *)

Section string_utils_facts.

Context {char : Type} `{EqDecision char}.
Variable line_feed : char.
Variable dot : char.
Variable isdigit : char -> bool.
Variable isspace : char -> bool.
Variable PUNCTUATIONS : list (list char).

Local Abbreviation trim := (strip isspace).
Local Abbreviation step := (split_step line_feed dot isdigit isspace PUNCTUATIONS).
Local Abbreviation loop := (split_loop line_feed dot isdigit isspace PUNCTUATIONS).
Local Abbreviation split :=
  (split_string_by_punctuations line_feed dot isdigit isspace PUNCTUATIONS).
Local Abbreviation has_punctuation := (str_contains_punctuation PUNCTUATIONS).
(** A character at which the text is never cut. *)
Local Abbreviation plain := (fun c : char => c <> line_feed /\ [c] ∉ PUNCTUATIONS).
(** A character that can occur in a piece. *)
Local Abbreviation kept :=
  (fun c : char => c <> line_feed /\ ([c] ∈ PUNCTUATIONS -> c = dot)).
(** What is appended to [result]: a stripped text of such characters. *)
Local Abbreviation stripped :=
  (fun piece : list char =>
     Forall kept piece /\
     (forall c, head piece = Some c -> isspace c = false) /\
     (forall c, last piece = Some c -> isspace c = false)).

Lemma lstrip_suffix (s : list char) : exists k, s = k ++ lstrip isspace s.
Proof.
  induction s as [|c s [k IH]]; [by exists []|]. simpl.
  destruct (isspace c); [|by exists []].
  exists (c :: k). simpl. by rewrite <- IH.
Qed.

Lemma lstrip_head (s : list char) (c : char) :
  head (lstrip isspace s) = Some c -> isspace c = false.
Proof.
  induction s as [|a s IH]; [done|]. simpl.
  destruct (isspace a) eqn:E; [done|]. simpl. by intros [= <-].
Qed.

Lemma rstrip_prefix (s : list char) : exists k, s = rstrip isspace s ++ k.
Proof.
  destruct (lstrip_suffix (reverse s)) as [k Hk]. exists (reverse k).
  apply (f_equal reverse) in Hk.
  by rewrite reverse_involutive, reverse_app in Hk.
Qed.

Lemma strip_head (s : list char) (c : char) :
  head (trim s) = Some c -> isspace c = false.
Proof.
  unfold strip. intros H. apply (lstrip_head s).
  destruct (rstrip_prefix (lstrip isspace s)) as [k Hk].
  rewrite Hk, head_app. by rewrite H.
Qed.

Lemma strip_last (s : list char) (c : char) :
  last (trim s) = Some c -> isspace c = false.
Proof.
  unfold strip, rstrip. rewrite last_reverse. apply lstrip_head.
Qed.

Lemma strip_sublist (s : list char) : trim s `sublist_of` s.
Proof.
  unfold strip.
  destruct (rstrip_prefix (lstrip isspace s)) as [k2 H2].
  destruct (lstrip_suffix s) as [k1 H1].
  rewrite H1 at 2. apply sublist_inserts_l.
  rewrite H2 at 2. by apply sublist_inserts_r.
Qed.

(** A text with no white space at either end is left as it is. *)
Lemma strip_id (s : list char) :
  (forall c, head s = Some c -> isspace c = false) ->
  (forall c, last s = Some c -> isspace c = false) ->
  trim s = s.
Proof.
  intros Hh Hl.
  assert (Hls : forall t : list char,
             (forall c, head t = Some c -> isspace c = false) ->
             lstrip isspace t = t).
  { intros [|a t] Ht; [done|]. simpl. by rewrite (Ht a). }
  unfold strip, rstrip. rewrite (Hls s Hh), Hls.
  - apply reverse_involutive.
  - intros c. rewrite head_reverse. apply Hl.
Qed.

Lemma concat_filter_nonempty (l : list (list char)) :
  concat (filter (fun piece => piece <> []) l) = concat l.
Proof.
  induction l as [|[|a p] l IH]; [done| |].
  - by rewrite filter_cons_False by (intros H'; by apply H').
  - rewrite filter_cons_True by done. simpl. by rewrite IH.
Qed.

Lemma step_plain (before after : option char) (c : char) (st : split_state char) :
  c <> line_feed -> [c] ∉ PUNCTUATIONS ->
  step before c after st =
    {| st_result := st_result st;
       st_txt := st_txt st ++ [c];
       st_previous_char :=
         match before with Some p => Some p | None => st_previous_char st end;
       st_next_char :=
         match after with Some n => Some n | None => st_next_char st end |}.
Proof.
  intros Hlf Hp. unfold split_step.
  rewrite (bool_decide_eq_false_2 _ Hlf).
  rewrite (bool_decide_eq_false_2 _ Hp). simpl.
  by destruct (_ && _).
Qed.

Lemma step_kept (before after : option char) (c : char) (st : split_state char) :
  Forall kept (st_txt st) ->
  Forall stripped (st_result st) ->
  Forall kept (st_txt (step before c after st)) /\
  Forall stripped (st_result (step before c after st)).
Proof.
  intros Ht Hr.
  assert (Hcut : Forall stripped (st_result st ++ [trim (st_txt st)])).
  { apply Forall_app_2; [done|]. apply Forall_singleton.
    split_and!; [|apply strip_head|apply strip_last].
    rewrite Forall_forall in Ht |- *. intros a Ha. apply Ht.
    by apply (sublist_subseteq _ _ (strip_sublist (st_txt st))). }
  unfold split_step. case_bool_decide as Hlf; simpl; [done|].
  destruct (bool_decide (c = dot) && _ && _) eqn:Hdot; simpl.
  - split; [|done]. apply Forall_app_2; [done|]. apply Forall_singleton.
    apply andb_prop in Hdot as [Hdot _]. apply andb_prop in Hdot as [Hdot _].
    by apply bool_decide_eq_true_1 in Hdot.
  - destruct (bool_decide ([c] ∈ PUNCTUATIONS)) eqn:Hp; simpl; [by split|].
    apply bool_decide_eq_false_1 in Hp.
    split; [|done]. apply Forall_app_2; [done|]. by apply Forall_singleton.
Qed.

Lemma loop_kept (s : list char) :
  forall before st,
    Forall kept (st_txt st) ->
    Forall stripped (st_result st) ->
    Forall kept (st_txt (loop before s st)) /\
    Forall stripped (st_result (loop before s st)).
Proof.
  induction s as [|c s IH]; intros before st Ht Hr; [done|].
  simpl. destruct (step_kept before (head s) c st Ht Hr). by apply IH.
Qed.

Lemma step_sublist (before after : option char) (c : char)
    (st : split_state char) (pre : list char) :
  concat (st_result st) ++ st_txt st `sublist_of` pre ->
  concat (st_result (step before c after st)) ++ st_txt (step before c after st)
    `sublist_of` pre ++ [c].
Proof.
  intros H.
  assert (Hcut : concat (st_result st ++ [trim (st_txt st)]) ++ []
                   `sublist_of` pre ++ [c]).
  { rewrite app_nil_r, concat_app. simpl. rewrite app_nil_r.
    apply sublist_inserts_r. etransitivity; [|exact H].
    apply sublist_app; [done|apply strip_sublist]. }
  assert (Hadd : concat (st_result st) ++ st_txt st ++ [c]
                   `sublist_of` pre ++ [c]).
  { rewrite app_assoc. by apply sublist_app. }
  unfold split_step. case_bool_decide; simpl; [done|].
  destruct (_ && _); simpl; [done|]. by case_bool_decide.
Qed.

Lemma loop_sublist (s : list char) :
  forall before st pre,
    concat (st_result st) ++ st_txt st `sublist_of` pre ->
    concat (st_result (loop before s st)) ++ st_txt (loop before s st)
      `sublist_of` pre ++ s.
Proof.
  induction s as [|c s IH]; intros before st pre H.
  - by rewrite app_nil_r.
  - simpl. rewrite (cons_middle c pre s), app_assoc.
    apply IH. by apply step_sublist.
Qed.

(** A run of characters at which the text is not cut is added to [txt];
    afterwards [next_char] is the character that follows the run. *)
Lemma loop_plain (x : list char) :
  forall before rest st,
    Forall plain x ->
    exists p n,
      loop before (x ++ rest) st =
        loop (match last x with Some l => Some l | None => before end) rest
          {| st_result := st_result st; st_txt := st_txt st ++ x;
             st_previous_char := p; st_next_char := n |} /\
      (x = [] -> p = st_previous_char st /\ n = st_next_char st) /\
      (x <> [] -> forall m, head rest = Some m -> n = Some m).
Proof.
  induction x as [|c x IH]; intros before rest st Hx.
  - exists (st_previous_char st), (st_next_char st).
    simpl. rewrite app_nil_r. by destruct st.
  - apply Forall_cons in Hx as [[Hlf Hp] Hx].
    cbn [app split_loop]. rewrite (step_plain _ _ _ _ Hlf Hp).
    edestruct (IH (Some c) rest) as (p & n & E & Hnil & Hcons); [exact Hx|].
    exists p, n. rewrite E. cbn [st_result st_txt] in *.
    rewrite last_cons, <- app_assoc. split_and!.
    + by destruct (last x).
    + done.
    + intros _ m Hm. destruct x as [|a x].
      * destruct (Hnil eq_refl) as [_ ->]. simpl in *. by rewrite Hm.
      * by apply Hcons.
Qed.

Lemma str_in_singleton (c : char) (s : list char) :
  c ∈ s -> str_in [c] s = true.
Proof.
  induction s as [|a s IH]; intros Hc.
  - by apply elem_of_nil in Hc.
  - apply elem_of_cons in Hc as [->|Hc]; simpl.
    + by rewrite bool_decide_eq_true_2.
    + rewrite (IH Hc). apply orb_true_r.
Qed.

Lemma contains_punctuation_char (c : char) (s : list char) :
  c ∈ s -> [c] ∈ PUNCTUATIONS -> has_punctuation s = true.
Proof.
  intros Hc Hp. unfold str_contains_punctuation.
  apply existsb_exists. exists [c]. split.
  - by apply list_elem_of_In.
  - by apply str_in_singleton.
Qed.

Lemma split_plain (s : list char) :
  Forall plain s ->
  split s = if decide (trim s = []) then [] else [trim s].
Proof.
  intros Hs. unfold split_string_by_punctuations.
  edestruct (loop_plain s None []) as (p & n & E & _); [exact Hs|].
  rewrite app_nil_r in E. rewrite E. simpl.
  rewrite filter_cons. by repeat case_decide.
Qed.

(** X20.  Splitting only removes characters: the pieces, one after the
    other, are a subsequence of the text.  Every piece is non-empty, has
    no white space at either end, holds no line feed, and holds no
    punctuation character other than the dot. *)
Theorem X20_pieces_are_stripped_and_free_of_separators (s : list char) :
  concat (split_string_by_punctuations line_feed dot isdigit isspace
            PUNCTUATIONS s) `sublist_of` s /\
  forall piece,
    piece ∈ split_string_by_punctuations line_feed dot isdigit isspace
              PUNCTUATIONS s ->
    piece <> [] /\
    (forall c, head piece = Some c -> isspace c = false) /\
    (forall c, last piece = Some c -> isspace c = false) /\
    (forall c, c ∈ piece -> c <> line_feed /\ ([c] ∈ PUNCTUATIONS -> c = dot)).
Proof.
  unfold split_string_by_punctuations.
  set (init := {| st_result := []; st_txt := [];
                  st_previous_char := None; st_next_char := None |}).
  split.
  - rewrite concat_filter_nonempty, concat_app. simpl. rewrite app_nil_r.
    etransitivity; [apply sublist_app; [reflexivity|apply strip_sublist]|].
    by apply (loop_sublist s None init []).
  - intros piece Hin. apply list_elem_of_filter in Hin as [Hne Hin].
    split; [done|].
    destruct (loop_kept s None init) as [Ht Hr]; [by apply Forall_nil..|].
    apply elem_of_app in Hin as [Hin|Hin].
    + rewrite Forall_forall in Hr. destruct (Hr _ Hin) as (Hk & Hh & Hl).
      split_and!; [done..|]. by rewrite Forall_forall in Hk.
    + apply list_elem_of_singleton in Hin as ->. split_and!.
      * apply strip_head.
      * apply strip_last.
      * intros c Hc. rewrite Forall_forall in Ht. apply Ht.
        by apply (sublist_subseteq _ _ (strip_sublist _)).
Qed.

(** X21.  A text in which [str_contains_punctuation] finds nothing and
    that has no line feed is not cut: the result is the stripped text, or
    nothing when only white space is left.  Conversely,
    [str_contains_punctuation] answers [True] for every text that holds a
    one-character punctuation mark. *)
Theorem X21_text_without_punctuation_is_one_piece (s : list char) :
  (str_contains_punctuation PUNCTUATIONS s = false -> line_feed ∉ s ->
   split_string_by_punctuations line_feed dot isdigit isspace PUNCTUATIONS s =
     if decide (strip isspace s = []) then [] else [strip isspace s]) /\
  (forall c, c ∈ s -> [c] ∈ PUNCTUATIONS ->
     str_contains_punctuation PUNCTUATIONS s = true).
Proof.
  split; [|intros c; apply contains_punctuation_char].
  intros Hno Hlf. apply split_plain. apply Forall_forall. intros c Hc. split.
  - by intros ->.
  - intros Hp. by rewrite (contains_punctuation_char c s Hc Hp) in Hno.
Qed.

(** The state at the end of the loop for one separator in plain text. *)
Lemma loop_one_separator (x y : list char) (c : char) :
  isdigit dot = false ->
  Forall plain x -> Forall plain y ->
  [c] ∈ PUNCTUATIONS \/ c = line_feed ->
  exists p n,
    loop None (x ++ c :: y)
      {| st_result := []; st_txt := [];
         st_previous_char := None; st_next_char := None |} =
    if bool_decide (c <> line_feed) && bool_decide (c = dot)
       && isdigit_str isdigit (last x) && isdigit_str isdigit (head y)
    then {| st_result := []; st_txt := x ++ c :: y;
            st_previous_char := p; st_next_char := n |}
    else {| st_result := [trim x]; st_txt := y;
            st_previous_char := p; st_next_char := n |}.
Proof.
  intros Hdot Hx Hy Hc.
  set (init := {| st_result := []; st_txt := [];
                  st_previous_char := None; st_next_char := None |}).
  destruct (loop_plain x None (c :: y) init Hx) as (p & n & -> & Hnil & Hcons).
  cbn [split_loop st_result st_txt init app].
  set (before := match last x with Some l => Some l | None => None end).
  assert (Hbefore : match before with Some q => Some q | None => p end = last x).
  { subst before. destruct x as [|a x]; [by destruct (Hnil eq_refl) as [-> _]|].
    by destruct (last (a :: x)) eqn:E; [|apply last_None in E]. }
  assert (Hnext : bool_decide (c = dot)
                  && isdigit_str isdigit
                       (match head y with Some m => Some m | None => n end)
                  = bool_decide (c = dot) && isdigit_str isdigit (head y)).
  { destruct (head y) eqn:Ey; [done|]. case_bool_decide as Hcd; [|done]. simpl.
    destruct x as [|a x]; [by destruct (Hnil eq_refl) as [_ ->]|].
    rewrite (Hcons ltac:(done) c eq_refl). simpl. by rewrite Hcd. }
  unfold split_step. cbn [st_result st_txt st_previous_char st_next_char].
  rewrite Hbefore.
  destruct (decide (c = line_feed)) as [Hlf|Hlf].
  - (* a line feed *)
    rewrite (bool_decide_eq_true_2 _ Hlf).
    rewrite (bool_decide_eq_false_2 (c <> line_feed)) by (intros Hn; by apply Hn).
    simpl.
    destruct (loop_plain y (Some c) [] {| st_result := [trim x]; st_txt := [];
               st_previous_char := p; st_next_char := n |} Hy)
      as (p' & n' & E & _).
    rewrite app_nil_r in E. rewrite E. simpl. by exists p', n'.
  - rewrite (bool_decide_eq_false_2 _ Hlf).
    rewrite (bool_decide_eq_true_2 (c <> line_feed)) by done. simpl.
    rewrite <- !andb_assoc, (andb_comm (isdigit_str isdigit (last x))), !andb_assoc.
    rewrite Hnext.
    rewrite <- !andb_assoc, (andb_comm (isdigit_str isdigit (head y))), !andb_assoc.
    destruct (bool_decide (c = dot) && isdigit_str isdigit (last x)
              && isdigit_str isdigit (head y)) eqn:Hkeep.
    + edestruct (loop_plain y (Some c) []) as (p' & n' & E & _); [exact Hy|].
      rewrite app_nil_r in E. rewrite E. simpl.
      rewrite <- app_assoc. by exists p', n'.
    + destruct Hc as [Hc|Hc]; [|done].
      rewrite (bool_decide_eq_true_2 _ Hc). simpl.
      edestruct (loop_plain y (Some c) []) as (p' & n' & E & _); [exact Hy|].
      rewrite app_nil_r in E. rewrite E. simpl. by exists p', n'.
Qed.

(** X22.  One separator in otherwise plain text.  A punctuation mark or a
    line feed cuts the text in two, each part stripped and dropped if
    empty; except a dot that stands between two digits, which is kept, so
    that a decimal number is not cut.  A dot at the very start or end of
    the text is never kept. *)
Theorem X22_dot_between_digits_is_kept (x y : list char) (c : char) :
  isdigit dot = false ->
  Forall (fun a => a <> line_feed /\ [a] ∉ PUNCTUATIONS) x ->
  Forall (fun a => a <> line_feed /\ [a] ∉ PUNCTUATIONS) y ->
  [c] ∈ PUNCTUATIONS \/ c = line_feed ->
  split_string_by_punctuations line_feed dot isdigit isspace PUNCTUATIONS
    (x ++ c :: y) =
    if bool_decide (c <> line_feed) && bool_decide (c = dot)
       && isdigit_str isdigit (last x) && isdigit_str isdigit (head y)
    then filter (fun piece => piece <> []) [strip isspace (x ++ c :: y)]
    else filter (fun piece => piece <> []) [strip isspace x; strip isspace y].
Proof.
  intros Hdot Hx Hy Hc. unfold split_string_by_punctuations.
  destruct (loop_one_separator x y c Hdot Hx Hy Hc) as (p & n & ->).
  by destruct (_ && _).
Qed.

End string_utils_facts.

Lemma X21_text_without_punctuation_is_one_piece_witness :
  split_string_by_punctuations "010"%char "."%char ascii_isdigit ascii_isspace
    sample_punctuations (String.list_ascii_of_string " take care now ") =
  [String.list_ascii_of_string "take care now"].
Proof.
  rewrite (proj1 (X21_text_without_punctuation_is_one_piece "010"%char "."%char
                    ascii_isdigit ascii_isspace sample_punctuations
                    (String.list_ascii_of_string " take care now "))).
  - vm_compute. reflexivity.
  - vm_compute. reflexivity.
  - refine (bool_decide_unpack _ _). vm_compute. exact I.
Defined.

Lemma X22_dot_between_digits_is_kept_witness :
  split_string_by_punctuations "010"%char "."%char ascii_isdigit ascii_isspace
    sample_punctuations
    (String.list_ascii_of_string "fee 2" ++
     "."%char :: String.list_ascii_of_string "5 now") =
  [String.list_ascii_of_string "fee 2.5 now"].
Proof.
  rewrite (X22_dot_between_digits_is_kept "010"%char "."%char
             ascii_isdigit ascii_isspace sample_punctuations).
  - vm_compute. reflexivity.
  - reflexivity.
  - refine (bool_decide_unpack _ _). vm_compute. exact I.
  - refine (bool_decide_unpack _ _). vm_compute. exact I.
  - left. refine (bool_decide_unpack _ _). vm_compute. exact I.
Defined.

Example split_sample :
  split_string_by_punctuations "010"%char "."%char ascii_isdigit ascii_isspace
    sample_punctuations (String.list_ascii_of_string "fee 2.5, now. go") =
  [String.list_ascii_of_string "fee 2.5"; String.list_ascii_of_string "now";
   String.list_ascii_of_string "go"].
Proof. vm_compute. reflexivity. Qed.

(** ** The script generator *)

Lemma remove_char_clean (c : ascii) (s : string) :
  occurs c (remove_char c s) = false.
Proof.
  induction s as [|a s IH]; [done|]. cbn [remove_char].
  destruct (Ascii.eqb a c) eqn:E; [done|]. cbn [occurs].
  by rewrite Ascii.eqb_sym, E.
Qed.

Lemma remove_char_absent (c d : ascii) (s : string) :
  occurs d s = false -> occurs d (remove_char c s) = false.
Proof.
  induction s as [|a s IH]; [done|]. cbn [remove_char occurs].
  intros H. apply orb_false_elim in H as [Ha Hs].
  destruct (Ascii.eqb a c); [by apply IH|]. cbn [occurs].
  by rewrite Ha, IH.
Qed.

Lemma remove_char_id (c : ascii) (s : string) :
  occurs c s = false -> remove_char c s = s.
Proof.
  induction s as [|a s IH]; [done|]. cbn [remove_char occurs].
  rewrite Ascii.eqb_sym. destruct (Ascii.eqb a c); [done|].
  intros H. by rewrite IH.
Qed.

Lemma re_sub_skip_absent (open close d : ascii) (s : string) :
  forall skip,
    occurs d s = false -> occurs d (re_sub_skip open close skip s) = false.
Proof.
  induction s as [|a s IH]; intros skip; [done|]. cbn [re_sub_skip occurs].
  intros H. apply orb_false_elim in H as [Ha Hs].
  destruct skip as [|skip]; [|by apply IH].
  destruct (Ascii.eqb a open); [destruct (greedy_to close s)|];
    cbn [occurs]; rewrite ?Ha; by apply IH.
Qed.

Lemma re_sub_enclosed_id (open close : ascii) (s : string) :
  occurs open s = false -> re_sub_enclosed open close s = s.
Proof.
  unfold re_sub_enclosed.
  induction s as [|a s IH]; [done|]. cbn [re_sub_skip occurs].
  rewrite Ascii.eqb_sym. destruct (Ascii.eqb a open); [done|].
  intros H. by rewrite IH.
Qed.

Lemma split_skip_not_nil (sep s : string) :
  forall skip, split_skip sep skip s <> [].
Proof.
  induction s as [|a s IH]; intros skip; [done|]. cbn [split_skip].
  destruct skip as [|skip]; [|by apply IH].
  destruct (String.prefix sep (String a s)); [done|].
  by destruct (split_skip sep 0 s).
Qed.

Lemma prefix_inv (sep s : string) :
  String.prefix sep s = true -> exists t, s = sep +:+ t.
Proof.
  revert s. induction sep as [|b sep IH]; intros s H; [by exists s|].
  destruct s as [|a s]; [done|]. simpl in H.
  destruct (ascii_dec b a) as [->|]; [|done].
  destruct (IH s H) as [t ->]. by exists t.
Qed.

Lemma length_append (x t : string) :
  String.length (x +:+ t) = (String.length x + String.length t)%nat.
Proof. induction x as [|a x IH]; [done|]. simpl. by rewrite <- IH. Qed.

Lemma str_join_cons (sep : string) (a : ascii) (piece : string)
    (pieces : list string) :
  str_join sep (String a piece :: pieces) =
  String a (str_join sep (piece :: pieces)).
Proof. by destruct pieces. Qed.

(** [sep.join(s.split(sep))] is [s]. *)
Lemma str_join_split (sep s : string) :
  sep <> EmptyString -> str_join sep (str_split sep s) = s.
Proof.
  intros Hsep. unfold str_split.
  assert (H : forall n s, (String.length s <= n)%nat ->
                str_join sep (split_skip sep 0 s) = s); [|by apply (H _ s (le_n _))].
  clear s. induction n as [|n IH]; intros [|a s] Hn; try done; [simpl in Hn; lia|].
  simpl in Hn. cbn [split_skip].
  destruct (String.prefix sep (String a s)) eqn:Hp.
  - destruct sep as [|b sep]; [done|].
    destruct (prefix_inv _ _ Hp) as [t Ht].
    change (String b sep +:+ t) with (String b (sep +:+ t)) in Ht.
    injection Ht as -> ->.
    replace (String.length (String b sep) - 1)%nat with (String.length sep)
      by (simpl; lia).
    rewrite split_skip_over.
    assert (Ht : str_join (String b sep) (split_skip (String b sep) 0 t) = t).
    { apply IH. rewrite length_append in Hn. lia. }
    destruct (split_skip (String b sep) 0 t) as [|piece pieces] eqn:E.
    + by apply split_skip_not_nil in E.
    + change (str_join (String b sep) (EmptyString :: piece :: pieces))
        with (String b sep +:+ str_join (String b sep) (piece :: pieces)).
      by rewrite Ht.
  - specialize (IH s ltac:(lia)).
    destruct (split_skip sep 0 s) as [|piece pieces].
    + simpl in IH. by rewrite <- IH.
    + by rewrite str_join_cons, IH.
Qed.

Lemma format_response_unfold (r : string) :
  format_response r =
  re_sub_enclosed "(" ")"
    (re_sub_enclosed "[" "]" (remove_char "#" (remove_char "*" r))).
Proof. unfold format_response. by apply str_join_split. Qed.

Lemma format_response_absent (c : ascii) (r : string) :
  occurs c r = false -> occurs c (format_response r) = false.
Proof.
  intros H. rewrite format_response_unfold. unfold re_sub_enclosed.
  by do 2 apply re_sub_skip_absent; do 2 apply remove_char_absent.
Qed.

Lemma occurs_append (a : ascii) (x y : string) :
  occurs a (x +:+ y) = occurs a x || occurs a y.
Proof.
  induction x as [|b x IH]; [done|]. simpl. by rewrite IH, orb_assoc.
Qed.

(** [s.replace(c, "")] keeps the characters other than [c], in order. *)
Lemma remove_char_filter (c : ascii) (s : string) :
  String.list_ascii_of_string (remove_char c s) =
  filter (fun a => a <> c) (String.list_ascii_of_string s).
Proof.
  induction s as [|a s IH]; [done|]. cbn [remove_char String.list_ascii_of_string].
  destruct (Ascii.eqb_spec a c) as [->|Hne].
  - by rewrite filter_cons_False by (intros H; by apply H).
  - rewrite filter_cons_True by done. simpl. by rewrite IH.
Qed.

Lemma re_sub_skip_sublist (open close : ascii) (s : string) :
  forall skip,
    String.list_ascii_of_string (re_sub_skip open close skip s)
      `sublist_of` String.list_ascii_of_string s.
Proof.
  induction s as [|a s IH]; intros skip; [done|].
  cbn [re_sub_skip String.list_ascii_of_string].
  destruct skip as [|skip]; [|by apply sublist_cons].
  destruct (Ascii.eqb a open); [destruct (greedy_to close s)|];
    cbn [String.list_ascii_of_string];
    first [by apply sublist_skip | by apply sublist_cons].
Qed.

Lemma format_response_sublist (r : string) :
  String.list_ascii_of_string (format_response r)
    `sublist_of` String.list_ascii_of_string r.
Proof.
  rewrite format_response_unfold. unfold re_sub_enclosed.
  etransitivity; [apply re_sub_skip_sublist|].
  etransitivity; [apply re_sub_skip_sublist|].
  rewrite !remove_char_filter.
  etransitivity; apply sublist_filter.
Qed.

(** A match of [.*<close>] does not go past the end of the line. *)
Lemma greedy_to_line (close : ascii) (l rest : string) :
  occurs newline l = false ->
  greedy_to close (l +:+ String newline rest) = greedy_to close l.
Proof.
  induction l as [|a l IH]; cbn [occurs]; intros H.
  - done.
  - apply orb_false_elim in H as [Ha Hl].
    change (String a l +:+ String newline rest)
      with (String a (l +:+ String newline rest)).
    cbn [greedy_to]. by rewrite IH.
Qed.

Lemma greedy_to_le (close : ascii) (s : string) (n : nat) :
  greedy_to close s = Some n -> (n <= String.length s)%nat.
Proof.
  revert n. induction s as [|a s IH]; intros n; [done|]. cbn [greedy_to].
  destruct (Ascii.eqb a newline); [done|].
  destruct (greedy_to close s) as [m|].
  - intros [= <-]. specialize (IH m eq_refl). simpl. lia.
  - destruct (Ascii.eqb a close); [|done]. intros [= <-]. simpl. lia.
Qed.

Lemma greedy_to_absent (close : ascii) (s : string) :
  occurs close s = false -> greedy_to close s = None.
Proof.
  induction s as [|a s IH]; [done|]. cbn [occurs greedy_to]. intros H.
  apply orb_false_elim in H as [Ha Hs]. rewrite (IH Hs).
  rewrite (Ascii.eqb_sym a close), Ha. by destruct (Ascii.eqb a newline).
Qed.

(** The match goes up to the last [close] of the line. *)
Lemma greedy_to_last (close : ascii) (mid post : string) :
  close <> newline ->
  occurs newline mid = false ->
  occurs close post = false ->
  greedy_to close (mid +:+ String close post) = Some (S (String.length mid)).
Proof.
  intros Hc Hmid Hpost. induction mid as [|a mid IH].
  - simpl. rewrite (greedy_to_absent _ _ Hpost), Ascii.eqb_refl.
    by destruct (Ascii.eqb_spec close newline).
  - cbn [occurs] in Hmid. apply orb_false_elim in Hmid as [Ha Hmid].
    change (String a mid +:+ String close post)
      with (String a (mid +:+ String close post)).
    cbn [greedy_to]. rewrite (IH Hmid). rewrite Ascii.eqb_sym in Ha.
    by rewrite Ha.
Qed.

Lemma re_sub_skip_lines (open close : ascii) (rest : string) (l : string) :
  open <> newline ->
  forall skip,
    (skip <= String.length l)%nat ->
    occurs newline l = false ->
    re_sub_skip open close skip (l +:+ String newline rest) =
    re_sub_skip open close skip l +:+ String newline (re_sub_skip open close 0 rest).
Proof.
  intros Ho. induction l as [|a l IH]; intros skip Hskip Hl.
  - simpl in Hskip. assert (skip = 0%nat) as -> by lia.
    change (EmptyString +:+ String newline rest) with (String newline rest).
    cbn [re_sub_skip].
    destruct (Ascii.eqb_spec newline open) as [E|_]; [by symmetry in E|done].
  - cbn [occurs] in Hl. apply orb_false_elim in Hl as [Ha Hl].
    change (String a l +:+ String newline rest)
      with (String a (l +:+ String newline rest)).
    cbn [re_sub_skip]. simpl in Hskip.
    destruct skip as [|skip]; [|apply IH; [lia|done]].
    destruct (Ascii.eqb a open).
    + rewrite (greedy_to_line _ _ _ Hl).
      destruct (greedy_to close l) as [n|] eqn:E.
      * apply IH; [by apply greedy_to_le in E|done].
      * simpl. by rewrite IH by (done || lia).
    + simpl. by rewrite IH by (done || lia).
Qed.

Lemma re_sub_skip_before (open close : ascii) (pre x : string) :
  occurs open pre = false ->
  re_sub_skip open close 0 (pre +:+ x) = pre +:+ re_sub_skip open close 0 x.
Proof.
  induction pre as [|a pre IH]; [done|]. cbn [occurs]. intros H.
  apply orb_false_elim in H as [Ha Hpre].
  change (String a pre +:+ x) with (String a (pre +:+ x)).
  cbn [re_sub_skip]. rewrite Ascii.eqb_sym in Ha. rewrite Ha. simpl.
  by rewrite IH.
Qed.

Lemma re_sub_skip_past (open close : ascii) (mid : string) (b : ascii)
    (post : string) :
  re_sub_skip open close (S (String.length mid)) (mid +:+ String b post) =
  re_sub_skip open close 0 post.
Proof. induction mid as [|a mid IH]; [done | apply IH]. Qed.

Lemma re_sub_skip_no_close (open close : ascii) (s : string) :
  occurs close s = false -> re_sub_skip open close 0 s = s.
Proof.
  induction s as [|a s IH]; [done|]. cbn [occurs re_sub_skip]. intros H.
  apply orb_false_elim in H as [Ha Hs].
  rewrite (greedy_to_absent _ _ Hs), (IH Hs). by destruct (Ascii.eqb a open).
Qed.

(** What [re.sub] with [<open>.*<close>] does: line by line; on a line,
    from the first [open] to the last [close] after it; nothing where no
    [close] follows an [open]. *)
Lemma re_sub_enclosed_spec (open close : ascii) :
  open <> newline -> close <> newline ->
  (forall l rest,
     occurs newline l = false ->
     re_sub_enclosed open close (l +:+ String newline rest) =
     re_sub_enclosed open close l +:+ String newline (re_sub_enclosed open close rest)) /\
  (forall pre mid post,
     occurs newline mid = false ->
     occurs open pre = false ->
     occurs close post = false ->
     re_sub_enclosed open close (pre +:+ String open (mid +:+ String close post)) =
     pre +:+ post) /\
  (forall pre post,
     occurs open pre = false ->
     occurs close post = false ->
     re_sub_enclosed open close (pre +:+ post) = pre +:+ post).
Proof.
  intros Ho Hc. unfold re_sub_enclosed. split_and!.
  - intros l rest Hl. apply re_sub_skip_lines; [done|lia|done].
  - intros pre mid post Hmid Hpre Hpost.
    rewrite (re_sub_skip_before _ _ _ _ Hpre). f_equal.
    cbn [re_sub_skip]. rewrite Ascii.eqb_refl.
    rewrite (greedy_to_last _ _ _ Hc Hmid Hpost), re_sub_skip_past.
    by apply re_sub_skip_no_close.
  - intros pre post Hpre Hpost.
    rewrite (re_sub_skip_before _ _ _ _ Hpre). f_equal.
    by apply re_sub_skip_no_close.
Qed.

(** X23.  [format_response] only removes characters: what it returns is
    a subsequence of the answer.  It drops every [*] and [#] and keeps the
    other characters; then, line by line, it drops what lies from the
    first [[] of the line to the last []] after it, and leaves a line
    alone in which no []] follows a [[]; then likewise for [(] and [)].
    Splitting at blank lines and joining again changes nothing.  A text
    without [*], [#], [[] and [(] is returned as it is. *)
Theorem X23_format_response_only_removes (r : string) :
  String.list_ascii_of_string (format_response r)
    `sublist_of` String.list_ascii_of_string r /\
  format_response r =
    re_sub_enclosed "(" ")"
      (re_sub_enclosed "[" "]" (remove_char "#" (remove_char "*" r))) /\
  (forall c s,
     String.list_ascii_of_string (remove_char c s) =
     filter (fun a => a <> c) (String.list_ascii_of_string s)) /\
  (forall open close,
     (open = "["%char /\ close = "]"%char) \/
     (open = "("%char /\ close = ")"%char) ->
     (forall l rest,
        occurs newline l = false ->
        re_sub_enclosed open close (l +:+ String newline rest) =
        re_sub_enclosed open close l +:+
        String newline (re_sub_enclosed open close rest)) /\
     (forall pre mid post,
        occurs newline mid = false ->
        occurs open pre = false ->
        occurs close post = false ->
        re_sub_enclosed open close
          (pre +:+ String open (mid +:+ String close post)) =
        pre +:+ post) /\
     (forall pre post,
        occurs open pre = false ->
        occurs close post = false ->
        re_sub_enclosed open close (pre +:+ post) = pre +:+ post)) /\
  occurs "*" (format_response r) = false /\
  occurs "#" (format_response r) = false /\
  (forall c, occurs c r = false -> occurs c (format_response r) = false) /\
  (occurs "*" r = false -> occurs "#" r = false ->
   occurs "[" r = false -> occurs "(" r = false -> format_response r = r).
Proof.
  split_and!.
  - apply format_response_sublist.
  - apply format_response_unfold.
  - apply remove_char_filter.
  - intros open close [[-> ->]|[-> ->]]; by apply re_sub_enclosed_spec.
  - rewrite format_response_unfold. unfold re_sub_enclosed.
    do 2 apply re_sub_skip_absent. apply remove_char_absent, remove_char_clean.
  - rewrite format_response_unfold. unfold re_sub_enclosed.
    do 2 apply re_sub_skip_absent. apply remove_char_clean.
  - intros c. apply format_response_absent.
  - intros H1 H2 H3 H4. rewrite format_response_unfold.
    by rewrite (remove_char_id "*"), (remove_char_id "#"),
      (re_sub_enclosed_id "["), (re_sub_enclosed_id "(").
Qed.

Example format_response_sample :
  format_response "## Title [intro] one (aside) two [x] three* (y) end" =
  " Title  three  end".
Proof. vm_compute. reflexivity. Qed.

Lemma is_empty_true (s : string) : is_empty s = true -> s = EmptyString.
Proof. by destruct s. Qed.

Lemma list_ascii_of_string_append (x t : string) :
  String.list_ascii_of_string (x +:+ t) =
  String.list_ascii_of_string x ++ String.list_ascii_of_string t.
Proof. induction x as [|a x IH]; [done|]. simpl. by rewrite <- IH. Qed.

Lemma occurs_elem_of (c : ascii) (s : string) :
  occurs c s = true <-> c ∈ String.list_ascii_of_string s.
Proof.
  induction s as [|a s IH]; simpl.
  - split; [done|]. by intros H%elem_of_nil.
  - rewrite elem_of_cons, <- IH, orb_true_iff, Ascii.eqb_eq. done.
Qed.

Section generate_script_facts.

Variable settings : Settings.
Variable chat_completions_create :
  forall (n : nat) (api_key base_url model_name prompt : string), result chat_response.
Variable genai_GenerativeModel :
  forall (n : nat) (api_key model_name : string), result unit.
Variable generate_content_text :
  forall (n : nat) (model_name prompt : string), result string.
Variable unbound_local_message : string.
Variable GEN_VIDEO_SCRIPT_format : string -> Z -> string.
Variable isspace : ascii -> bool.

Local Abbreviation answer :=
  (_generate_response settings chat_completions_create genai_GenerativeModel
     generate_content_text unbound_local_message).
Local Abbreviation script_loop :=
  (generate_script_loop settings chat_completions_create genai_GenerativeModel
     generate_content_text unbound_local_message).
Local Abbreviation script :=
  (generate_script settings chat_completions_create genai_GenerativeModel
     generate_content_text unbound_local_message GEN_VIDEO_SCRIPT_format isspace).
Local Abbreviation prompt_of := (generate_script_prompt GEN_VIDEO_SCRIPT_format).
Local Abbreviation stripped := (str_strip isspace).

Lemma str_strip_head (s : string) (a : ascii) (t : string) :
  stripped s = String a t -> isspace a = false.
Proof.
  unfold str_strip. intros H.
  apply (f_equal String.list_ascii_of_string) in H.
  rewrite String.list_ascii_of_string_of_list_ascii in H.
  apply (strip_head isspace (String.list_ascii_of_string s)). by rewrite H.
Qed.

Lemma str_strip_last (s : string) (t : string) (a : ascii) :
  stripped s = t +:+ String a EmptyString -> isspace a = false.
Proof.
  unfold str_strip. intros H.
  apply (f_equal String.list_ascii_of_string) in H.
  rewrite String.list_ascii_of_string_of_list_ascii, list_ascii_of_string_append in H.
  apply (strip_last isspace (String.list_ascii_of_string s)).
  rewrite H. simpl. apply last_snoc.
Qed.

Lemma str_strip_absent (c : ascii) (s : string) :
  occurs c s = false -> occurs c (stripped s) = false.
Proof.
  intros H. destruct (occurs c (stripped s)) eqn:E; [|done].
  apply occurs_elem_of in E. unfold str_strip in E.
  rewrite String.list_ascii_of_string_of_list_ascii in E.
  apply (sublist_subseteq _ _ (strip_sublist isspace _)) in E.
  apply occurs_elem_of in E. congruence.
Qed.

Lemma str_strip_id (s : string) :
  (forall c, head (String.list_ascii_of_string s) = Some c -> isspace c = false) ->
  (forall c, last (String.list_ascii_of_string s) = Some c -> isspace c = false) ->
  stripped s = s.
Proof.
  intros Hh Hl. unfold str_strip. rewrite strip_id by done.
  apply String.string_of_list_ascii_of_string.
Qed.

(** [_generate_response] lets no [Exception] out. *)
Lemma answer_raises (n : nat) (prompt : string) (e : exn) :
  answer n prompt = Raise e -> isinstance_Exception e = false.
Proof.
  unfold _generate_response.
  destruct (_generate_response_try _ _ _ _ _ _ _) as [text|e']; [done|].
  destruct (isinstance_Exception e') eqn:E; [done|]. by intros [= <-].
Qed.

Lemma script_loop_raises (prompt : string) (retries : nat) :
  forall n final_script e,
    script_loop n retries prompt final_script = Raise e ->
    isinstance_Exception e = false.
Proof.
  induction retries as [|retries IH]; intros n final_script e; [done|].
  cbn [generate_script_loop]. unfold generate_script_iteration.
  destruct (answer n prompt) as [r|e'] eqn:Ha.
  - cbv beta iota zeta. destruct (negb _); [done|]. apply IH.
  - pose proof (answer_raises _ _ _ Ha) as He. rewrite He. by intros [= <-].
Qed.

Lemma script_loop_first_usable (prompt : string) (k : nat) :
  forall n retries r,
    (k < retries)%nat ->
    (forall i, (n <= i < n + k)%nat ->
       exists r', answer i prompt = Ok r' /\ is_empty (format_response r') = true) ->
    answer (n + k) prompt = Ok r ->
    is_empty (format_response r) = false ->
    script_loop n retries prompt EmptyString = Ok (format_response r).
Proof.
  induction k as [|k IH]; intros n [|retries] r Hk Hbefore Hr Hne; try lia.
  - rewrite Nat.add_0_r in Hr.
    cbn [generate_script_loop]. unfold generate_script_iteration. rewrite Hr.
    destruct (is_empty r) eqn:Er; [apply is_empty_true in Er; by subst|].
    by rewrite Hne.
  - destruct (Hbefore n ltac:(lia)) as (r' & Hr' & He).
    cbn [generate_script_loop]. unfold generate_script_iteration. rewrite Hr'.
    assert (E : (if is_empty r' then EmptyString else format_response r')
                = EmptyString)
      by (destruct (is_empty r'); [done | by apply is_empty_true]).
    rewrite E. simpl. apply IH;
      [lia| |by replace (S n + k)%nat with (n + S k)%nat by lia|done].
    intros i Hi. apply Hbefore. lia.
Qed.

Lemma script_loop_none_usable (prompt : string) (retries : nat) :
  forall n,
    (forall i, (n <= i < n + retries)%nat ->
       exists r', answer i prompt = Ok r' /\ is_empty (format_response r') = true) ->
    script_loop n retries prompt EmptyString = Ok EmptyString.
Proof.
  induction retries as [|retries IH]; intros n Hall; [done|].
  destruct (Hall n ltac:(lia)) as (r' & Hr' & He).
  cbn [generate_script_loop]. unfold generate_script_iteration. rewrite Hr'.
  assert (E : (if is_empty r' then EmptyString else format_response r')
              = EmptyString)
    by (destruct (is_empty r'); [done | by apply is_empty_true]).
  rewrite E. simpl. apply IH. intros i Hi. apply Hall. lia.
Qed.

Lemma script_loop_provenance (prompt : string) (retries : nat) :
  forall n final_script v,
    script_loop n retries prompt final_script = Ok v ->
    v = final_script \/
    exists i r, (n <= i < n + retries)%nat /\ answer i prompt = Ok r /\
      v = format_response r.
Proof.
  induction retries as [|retries IH]; intros n final_script v.
  - intros [= <-]. by left.
  - cbn [generate_script_loop]. unfold generate_script_iteration.
    destruct (answer n prompt) as [r|e] eqn:Ha.
    + destruct (is_empty r) eqn:Er.
      * destruct (negb _); [intros [= <-]; by left|].
        intros H. apply IH in H as [->|(i & r' & Hi & Hr' & ->)]; [by left|].
        right. exists i, r'. split; [lia|done].
      * destruct (negb _).
        { intros [= <-]. right. exists n, r. split; [lia|done]. }
        intros H. apply IH in H as [->|(i & r' & Hi & Hr' & ->)]; right.
        { exists n, r. split; [lia|done]. }
        exists i, r'. split; [lia|done].
    + destruct (isinstance_Exception e); [|done].
      intros H. apply IH in H as [->|(i & r' & Hi & Hr' & ->)]; [by left|].
      right. exists i, r'. split; [lia|done].
Qed.

(** X24.  [generate_script] asks for one answer at a time and makes the
    script from the first answer that is not empty after formatting: the
    formatted answer, stripped.  When none of the five answers is usable
    the script is the empty string. *)
Theorem X24_generate_script_first_usable_answer (n k : nat)
    (video_subject language : string) (paragraph_number : Z) :
  (k <= 5)%nat ->
  (forall i, (n <= i < n + k)%nat ->
     exists r',
       answer i (prompt_of video_subject language paragraph_number) = Ok r' /\
       is_empty (format_response r') = true) ->
  ((k < 5)%nat ->
   forall r,
     answer (n + k) (prompt_of video_subject language paragraph_number) = Ok r ->
     is_empty (format_response r) = false ->
     script n video_subject language paragraph_number
     = Ok (stripped (format_response r))) /\
  (k = 5%nat ->
   script n video_subject language paragraph_number = Ok EmptyString).
Proof.
  intros Hk Hbefore. unfold generate_script, _max_retries. split.
  - intros Hlt r Hr Hne.
    by rewrite (script_loop_first_usable _ k n 5 r Hlt Hbefore Hr Hne).
  - intros ->. by rewrite (script_loop_none_usable _ 5 n Hbefore).
Qed.

(** X25.  What [generate_script] returns is the empty string or one of
    the five answers, formatted and stripped; it holds no [*] and no [#]
    and has no white space at either end.  No [Exception] leaves
    [generate_script]. *)
Theorem X25_generate_script_result (n : nat) (video_subject language : string)
    (paragraph_number : Z) :
  (forall v, script n video_subject language paragraph_number = Ok v ->
     (v = EmptyString \/
      exists i r, (n <= i < n + 5)%nat /\
        answer i (prompt_of video_subject language paragraph_number) = Ok r /\
        v = stripped (format_response r)) /\
     occurs "*" v = false /\ occurs "#" v = false /\
     (forall a t, v = String a t -> isspace a = false) /\
     (forall t a, v = t +:+ String a EmptyString -> isspace a = false)) /\
  (forall e, script n video_subject language paragraph_number = Raise e ->
     isinstance_Exception e = false).
Proof.
  unfold generate_script, _max_retries. split.
  - intros v.
    destruct (script_loop n 5 _ EmptyString) as [v0|e] eqn:Hloop; [|done].
    intros [= <-]. split_and!.
    + apply script_loop_provenance in Hloop as [->|(i & r & Hi & Hr & ->)];
        [by left|right]. by exists i, r.
    + apply str_strip_absent.
      apply script_loop_provenance in Hloop as [->|(i & r & Hi & Hr & ->)];
        [done|]. rewrite format_response_unfold. unfold re_sub_enclosed.
      do 2 apply re_sub_skip_absent. apply remove_char_absent, remove_char_clean.
    + apply str_strip_absent.
      apply script_loop_provenance in Hloop as [->|(i & r & Hi & Hr & ->)];
        [done|]. rewrite format_response_unfold. unfold re_sub_enclosed.
      do 2 apply re_sub_skip_absent. apply remove_char_clean.
    + intros a t. apply str_strip_head.
    + intros t a. apply str_strip_last.
  - intros e.
    destruct (script_loop n 5 _ EmptyString) as [v0|e'] eqn:Hloop; [done|].
    intros [= <-]. by apply script_loop_raises in Hloop.
Qed.

(** X26.  An error of the provider becomes the script.  With settings
    that are misconfigured, [generate_script] asks no provider and
    returns the error text of [_generate_response] as it is.  With OpenAI
    set up and an empty response from it, the script is the error text
    with its leading [[openai]] removed by [format_response]. *)
Theorem X26_error_text_is_returned_as_script (n : nat)
    (video_subject language : string) (paragraph_number : Z) :
  isspace "E" = false ->
  isspace "." = false ->
  (misconfigured settings = true ->
   exists msg,
     answer n (prompt_of video_subject language paragraph_number)
     = Ok ("Error: " +:+ msg) /\
     script n video_subject language paragraph_number = Ok ("Error: " +:+ msg)) /\
  (llm_provider settings = "openai" ->
   is_empty (open_api_key settings) = false ->
   is_empty (openai_model_name settings) = false ->
   chat_completions_create n (open_api_key settings)
     (if is_empty (openai_base_url settings) then "https://api.openai.com/v1"
      else openai_base_url settings)
     (openai_model_name settings)
     (prompt_of video_subject language paragraph_number)
   = Ok NoResponse ->
   answer n (prompt_of video_subject language paragraph_number)
   = Ok "Error: [openai] returned an empty response, please check your network connection and try again." /\
   script n video_subject language paragraph_number
   = Ok "Error:  returned an empty response, please check your network connection and try again.").
Proof.
  intros HE Hdot.
  assert (Hscript : forall r r',
    answer n (prompt_of video_subject language paragraph_number) = Ok r ->
    format_response r = String "E" r' ->
    last (String.list_ascii_of_string (String "E" r')) = Some "."%char ->
    script n video_subject language paragraph_number = Ok (String "E" r')).
  { intros r r' Hr Hf Hl. unfold generate_script, _max_retries.
    rewrite (script_loop_first_usable _ 0 n 5 r); rewrite ?Nat.add_0_r;
      [|lia|intros i Hi; lia|done|by rewrite Hf].
    simpl. rewrite Hf, str_strip_id; [done| |].
    - simpl. by intros c [= <-].
    - rewrite Hl. by intros c [= <-]. }
  split.
  - unfold misconfigured. intros Hm.
    assert (Hans : exists msg,
      answer n (prompt_of video_subject language paragraph_number)
        = Ok ("Error: " +:+ msg) /\
      format_response ("Error: " +:+ msg) = "Error: " +:+ msg /\
      last (String.list_ascii_of_string ("Error: " +:+ msg)) = Some "."%char).
    { unfold _generate_response, _generate_response_try.
      destruct (String.eqb (llm_provider settings) "openai") eqn:Ho;
        [|destruct (String.eqb (llm_provider settings) "gemini") eqn:Hg].
      - apply String.eqb_eq in Ho. rewrite Ho. simpl.
        destruct (is_empty (open_api_key settings)); simpl.
        + by eexists.
        + simpl in Hm. rewrite Hm. by eexists.
      - apply String.eqb_eq in Hg. rewrite Hg. simpl.
        destruct (is_empty (gemini_api_key settings)); simpl.
        + by eexists.
        + simpl in Hm. rewrite Hm. by eexists.
      - simpl. by eexists. }
    destruct Hans as (msg & Hans & Hf & Hl). exists msg. split; [done|].
    by apply (Hscript _ _ Hans).
  - intros Hp Hk Hm Hchat.
    assert (Hans : answer n (prompt_of video_subject language paragraph_number)
      = Ok "Error: [openai] returned an empty response, please check your network connection and try again.").
    { unfold _generate_response, _generate_response_try.
      rewrite Hp. simpl. rewrite Hk, Hm.
      destruct (is_empty (openai_base_url settings)) eqn:Hb; simpl;
        rewrite ?Hb; simpl; by rewrite Hchat. }
    split; [done|]. by apply (Hscript _ _ Hans).
Qed.

End generate_script_facts.

Lemma X24_generate_script_first_usable_answer_witness :
  generate_script openai_settings
    (fun _ _ _ _ _ => Ok (ChatCompletion [Some "  *A script* (draft)  "]))
    (fun _ _ _ => Ok tt) (fun _ _ _ => Ok EmptyString) EmptyString
    (fun video_subject _ => video_subject) ascii_isspace
    0 "topic" EmptyString 1
  = Ok "A script".
Proof.
  refine (proj1 (X24_generate_script_first_usable_answer openai_settings
                   (fun _ _ _ _ _ => Ok (ChatCompletion [Some "  *A script* (draft)  "]))
                   (fun _ _ _ => Ok tt) (fun _ _ _ => Ok EmptyString) EmptyString
                   (fun video_subject _ => video_subject) ascii_isspace
                   0 0 "topic" EmptyString 1 _ _)
            _ "  *A script* (draft)  " _ _).
  - lia.
  - intros i Hi. lia.
  - lia.
  - reflexivity.
  - reflexivity.
Defined.

Lemma X26_error_text_is_returned_as_script_witness :
  generate_script openai_settings
    (fun _ _ _ _ _ => Ok NoResponse)
    (fun _ _ _ => Ok tt) (fun _ _ _ => Ok EmptyString) EmptyString
    (fun video_subject _ => video_subject) ascii_isspace
    0 "topic" EmptyString 1
  = Ok "Error:  returned an empty response, please check your network connection and try again.".
Proof.
  refine (proj2 (proj2 (X26_error_text_is_returned_as_script openai_settings
                          (fun _ _ _ _ _ => Ok NoResponse)
                          (fun _ _ _ => Ok tt) (fun _ _ _ => Ok EmptyString)
                          EmptyString
                          (fun video_subject _ => video_subject) ascii_isspace
                          0 "topic" EmptyString 1 _ _) _ _ _ _));
    reflexivity.
Defined.
